(** * A binary search tree with in-, pre- and post-order cursors

    Shallow embedding of [lib/BST/BST.hpp]: the nodes of all trees live in
    one store addressed by natural numbers, a C++ pointer is an optional
    address ([None] is [nullptr]), and every member function is a Rocq
    function on the store.  Dereferencing a null or released pointer is
    undefined behaviour and is reported as [UB]; every [while] loop is
    bounded by a fuel argument and reports [Timeout] when it runs out. *)

From stdpp Require Import gmap list sorting.
From Stdlib Require Import ZArith NArith.

(** ** Results of running a member function *)

Inductive result (A : Type) : Type :=
  | Ok (a : A)
  | UB
  | Timeout.
Arguments Ok {A} a.
Arguments UB {A}.
Arguments Timeout {A}.

Global Instance result_ret : MRet result := λ A a, Ok a.
Global Instance result_bind : MBind result := λ A B f m,
  match m with
  | Ok a => f a
  | UB => UB
  | Timeout => Timeout
  end.

(** ** Tag types selecting the traversal *)

Inductive Pick : Type := Inorder | Preorder | Postorder.

Global Instance Pick_eq_dec : EqDecision Pick.
Proof. solve_decision. Defined.

(** ** Pointers, nodes and the store *)

Abbreviation addr := nat (only parsing).
Abbreviation ptr := (option nat) (only parsing).

(** [size_t] is a 64-bit unsigned integer; [++] and [--] wrap around. *)
Definition size_t_max : N := 2 ^ 64.
Definition size_t_incr (n : N) : N := ((n + 1) mod size_t_max)%N.
Definition size_t_decr (n : N) : N := ((n + size_t_max - 1) mod size_t_max)%N.

Section BST.
Context {T : Type} `{!EqDecision T}.
(** [comp] is the object [comp_] of type [Compare]; [T0] is the
    value-initialised [T] that [alloc_node] leaves in a new node. *)
Variable comp : T → T → bool.
Variable T0 : T.

Record Node : Type := mkNode {
  data_ : T;
  parent_ : ptr;
  left_ : ptr;
  right_ : ptr
}.

Abbreviation heap := (gmap nat Node) (only parsing).

(** [p->field] for reading. *)
Definition load (h : heap) (p : ptr) : result Node :=
  match p with
  | Some a => match h !! a with Some n => Ok n | None => UB end
  | None => UB
  end.

(** [p->data_ = v], [p->parent_ = v], [p->left_ = v], [p->right_ = v]. *)
Definition store (h : heap) (p : ptr) (f : Node → Node) : result heap :=
  match p with
  | Some a => match h !! a with Some n => Ok (<[a := f n]> h) | None => UB end
  | None => UB
  end.
Definition set_data (v : T) (n : Node) : Node :=
  mkNode v (parent_ n) (left_ n) (right_ n).
Definition set_parent (v : ptr) (n : Node) : Node :=
  mkNode (data_ n) v (left_ n) (right_ n).
Definition set_left (v : ptr) (n : Node) : Node :=
  mkNode (data_ n) (parent_ n) v (right_ n).
Definition set_right (v : ptr) (n : Node) : Node :=
  mkNode (data_ n) (parent_ n) (left_ n) v.

(** [alloc_node]: a slot that is not in use, value-initialised. *)
Definition alloc_node (h : heap) : heap * ptr :=
  let a := fresh (dom h) in
  (<[a := mkNode T0 None None None]> h, Some a).

(** [delete_node]: releasing a null pointer does nothing. *)
Definition delete_node (h : heap) (node_ : ptr) : heap :=
  match node_ with
  | Some a => delete a h
  | None => h
  end.

(** ** Iterator: the six stepping rules *)

(** [while (it_->left_ != nullptr) it_ = it_->left_;] *)
Fixpoint while_left (fuel : nat) (h : heap) (it : ptr) : result ptr :=
  match fuel with
  | O => Timeout
  | S f =>
      n ← load h it;
      if left_ n is Some _ then while_left f h (left_ n) else Ok it
  end.

(** [while (it_->right_ != nullptr) it_ = it_->right_;] *)
Fixpoint while_right (fuel : nat) (h : heap) (it : ptr) : result ptr :=
  match fuel with
  | O => Timeout
  | S f =>
      n ← load h it;
      if right_ n is Some _ then while_right f h (right_ n) else Ok it
  end.

(** The loop of [Add(Inorder)]:
    [while (it_ == it_->parent_->right_) { it_ = it_->parent_;
       if (it_->parent_->parent_ == nullptr) break; }] *)
Fixpoint Add_Inorder_loop (fuel : nat) (h : heap) (it : ptr) : result ptr :=
  match fuel with
  | O => Timeout
  | S f =>
      n ← load h it;
      pn ← load h (parent_ n);
      if decide (it = right_ pn) then
        let it1 := parent_ n in
        n1 ← load h it1;
        pn1 ← load h (parent_ n1);
        if parent_ pn1 is None then Ok it1 else Add_Inorder_loop f h it1
      else Ok it
  end.

Definition Add_Inorder (fuel : nat) (h : heap) (it : ptr) : result ptr :=
  n ← load h it;
  if right_ n is Some _ then while_left fuel h (right_ n)
  else if parent_ n is Some _ then
    it1 ← Add_Inorder_loop fuel h it;
    n1 ← load h it1;
    Ok (parent_ n1)
  else Ok it.

(** The loop of [Add(Preorder)]:
    [while (it_->parent_ != nullptr && (it_ == it_->parent_->right_ ||
            it_->parent_->right_ == nullptr)) it_ = it_->parent_;] *)
Fixpoint Add_Preorder_loop (fuel : nat) (h : heap) (it : ptr) : result ptr :=
  match fuel with
  | O => Timeout
  | S f =>
      n ← load h it;
      if parent_ n is Some _ then
        pn ← load h (parent_ n);
        if bool_decide (it = right_ pn) || bool_decide (right_ pn = None)
        then Add_Preorder_loop f h (parent_ n)
        else Ok it
      else Ok it
  end.

Definition Add_Preorder (fuel : nat) (h : heap) (it : ptr) : result ptr :=
  n ← load h it;
  if left_ n is Some _ then Ok (left_ n)
  else
    it1 ← Add_Preorder_loop fuel h it;
    n1 ← load h it1;
    let it2 := if parent_ n1 is Some _ then parent_ n1 else it1 in
    n2 ← load h it2;
    Ok (if right_ n2 is Some _ then right_ n2 else it2).

Definition Add_Postorder (fuel : nat) (h : heap) (it : ptr) : result ptr :=
  n ← load h it;
  pn ← load h (parent_ n);
  if decide (it = left_ pn) then
    if right_ pn is Some _ then while_left fuel h (right_ pn)
    else Ok (parent_ n)
  else Ok (parent_ n).

(** The loop of [Subtract(Inorder)], the mirror image of [Add_Inorder_loop]. *)
Fixpoint Subtract_Inorder_loop (fuel : nat) (h : heap) (it : ptr) : result ptr :=
  match fuel with
  | O => Timeout
  | S f =>
      n ← load h it;
      pn ← load h (parent_ n);
      if decide (it = left_ pn) then
        let it1 := parent_ n in
        n1 ← load h it1;
        pn1 ← load h (parent_ n1);
        if parent_ pn1 is None then Ok it1 else Subtract_Inorder_loop f h it1
      else Ok it
  end.

Definition Subtract_Inorder (fuel : nat) (h : heap) (it : ptr) : result ptr :=
  n ← load h it;
  if left_ n is Some _ then while_right fuel h (left_ n)
  else if parent_ n is Some _ then
    it1 ← Subtract_Inorder_loop fuel h it;
    n1 ← load h it1;
    Ok (parent_ n1)
  else Ok it.

Definition Subtract_Preorder (fuel : nat) (h : heap) (it : ptr) : result ptr :=
  n ← load h it;
  if parent_ n is None then while_right fuel h (left_ n)
  else
    pn ← load h (parent_ n);
    if decide (it = left_ pn) then Ok (parent_ n)
    else if left_ pn is Some _ then while_right fuel h (left_ pn)
    else Ok (parent_ n).

(** The loop of [Subtract(Postorder)]; the flag tells that the loop left
    through its [return *this].
    [while (it_->parent_->right_ == nullptr || it_ == it_->parent_->left_) {
       it_ = it_->parent_; if (it_->parent_ == nullptr) return *this; }] *)
Fixpoint Subtract_Postorder_loop (fuel : nat) (h : heap) (it : ptr)
    : result (ptr * bool) :=
  match fuel with
  | O => Timeout
  | S f =>
      n ← load h it;
      pn ← load h (parent_ n);
      if bool_decide (right_ pn = None) || bool_decide (it = left_ pn) then
        if parent_ pn is None then Ok (parent_ n, true)
        else Subtract_Postorder_loop f h (parent_ n)
      else Ok (it, false)
  end.

Definition Subtract_Postorder (fuel : nat) (h : heap) (it : ptr) : result ptr :=
  n ← load h it;
  if parent_ n is None then Ok (left_ n)
  else if right_ n is Some _ then Ok (right_ n)
  else if left_ n is Some _ then Ok (left_ n)
  else
    '(it1, returned) ← Subtract_Postorder_loop fuel h it;
    if (returned : bool) then Ok it1
    else
      n1 ← load h it1;
      n2 ← load h (parent_ n1);
      Ok (if left_ n2 is Some _ then left_ n2 else parent_ n1).

(** [operator++] and [operator--] dispatch on the tag. *)
Definition Add (pick : Pick) : nat → heap → ptr → result ptr :=
  match pick with
  | Inorder => Add_Inorder
  | Preorder => Add_Preorder
  | Postorder => Add_Postorder
  end.

Definition Subtract (pick : Pick) : nat → heap → ptr → result ptr :=
  match pick with
  | Inorder => Subtract_Inorder
  | Preorder => Subtract_Preorder
  | Postorder => Subtract_Postorder
  end.

(** [operator*] *)
Definition deref (h : heap) (it : ptr) : result T :=
  n ← load h it; Ok (data_ n).

(** [ReverseIterator]: [++] steps the wrapped iterator back, [--] forward. *)
Definition ReverseIterator_incr (pick : Pick) := Subtract pick.
Definition ReverseIterator_decr (pick : Pick) := Add pick.

(** ** The container *)

Record BST : Type := mkBST {
  root_ : ptr;
  size_ : N
}.

(** [BST()] *)
Definition BST_new (h : heap) : heap * BST :=
  let '(h1, r) := alloc_node h in (h1, mkBST r 0).

(** [Leftmost()] *)
Definition BST_Leftmost (fuel : nat) (h : heap) (b : BST) : result ptr :=
  r ← load h (root_ b);
  if left_ r is None then Ok (root_ b) else while_left fuel h (left_ r).

(** [Leftmost(Node<T>* node)] *)
Definition BST_Leftmost_from (fuel : nat) (h : heap) (node : ptr) : result ptr :=
  while_left fuel h node.

(** [Rightmost()] *)
Definition BST_Rightmost (fuel : nat) (h : heap) (b : BST) : result ptr :=
  r ← load h (root_ b);
  while_right fuel h (left_ r).

Definition BST_begin (pick : Pick) (fuel : nat) (h : heap) (b : BST) : result ptr :=
  match pick with
  | Inorder => BST_Leftmost fuel h b
  | Preorder => r ← load h (root_ b); Ok (left_ r)
  | Postorder => BST_Leftmost_from fuel h (root_ b)
  end.

Definition BST_end (pick : Pick) (b : BST) : ptr := root_ b.

(** [rbegin] and [rend]: the wrapped iterator after one [++] of the adapter. *)
Definition BST_rbegin (pick : Pick) (fuel : nat) (h : heap) (b : BST) : result ptr :=
  ReverseIterator_incr pick fuel h (BST_end pick b).
Definition BST_rend (pick : Pick) (fuel : nat) (h : heap) (b : BST) : result ptr :=
  it ← BST_begin pick fuel h b; ReverseIterator_incr pick fuel h it.

Definition BST_empty (h : heap) (b : BST) : result bool :=
  r ← load h (root_ b); Ok (bool_decide (left_ r = None)).

Definition BST_size (b : BST) : N := size_ b.

(** [swap]: the two root pointers change places. *)
Definition BST_swap (b other : BST) : BST * BST :=
  let temp := root_ b in
  (mkBST (root_ other) (size_ b), mkBST temp (size_ other)).

(** The descent of [insert]: returns [parent] when [current] is null. *)
Fixpoint BST_insert_loop (fuel : nat) (h : heap) (value : T)
    (current parent : ptr) : result ptr :=
  match current with
  | None => Ok parent
  | Some _ =>
      match fuel with
      | O => Timeout
      | S f =>
          c ← load h current;
          if comp value (data_ c)
          then BST_insert_loop f h value (left_ c) current
          else BST_insert_loop f h value (right_ c) current
      end
  end.

(** [insert(const T& value, Pick)]; the tag only selects the type of the
    returned iterator. *)
Definition BST_insert (fuel : nat) (h : heap) (b : BST) (value : T)
    : result (heap * BST * (ptr * bool)) :=
  r ← load h (root_ b);
  parent ← BST_insert_loop fuel h value (left_ r) (root_ b);
  let '(h1, newNode) := alloc_node h in
  h2 ← store h1 newNode (set_data value);
  h3 ← store h2 newNode (set_parent parent);
  h4 ← store h3 newNode (set_left None);
  h5 ← store h4 newNode (set_right None);
  p ← load h5 parent;
  h6 ← (if parent_ p is None then store h5 (root_ b) (set_left newNode)
        else if comp value (data_ p) then store h5 parent (set_left newNode)
        else store h5 parent (set_right newNode));
  Ok (h6, mkBST (root_ b) (size_t_incr (size_ b)), (newNode, true)).

(** [insert(InputIt first, InputIt last)] over a sequence of values. *)
Fixpoint BST_insert_range (fuel : nat) (h : heap) (b : BST) (vs : list T)
    : result (heap * BST) :=
  match vs with
  | [] => Ok (h, b)
  | v :: vs' =>
      '(h1, b1, _) ← BST_insert fuel h b v;
      BST_insert_range fuel h1 b1 vs'
  end.

(** [p->field] as an expression. *)
Definition field (h : heap) (p : ptr) (f : Node → ptr) : result ptr :=
  n ← load h p; Ok (f n).

(** The two statements that put a child of [node] in its place, as in
    [node->parent_->left_ = node->right_;
     node->right_->parent_ = node->parent_;]
    [is_left] tells which slot of the parent is written and [child] which
    child of [node] moves up. *)
Definition splice (h : heap) (node : ptr) (is_left : bool) (child : Node → ptr)
    : result heap :=
  p ← field h node parent_;
  v ← field h node child;
  h1 ← store h p (if is_left then set_left v else set_right v);
  c ← field h1 node child;
  p1 ← field h1 node parent_;
  store h1 c (set_parent p1).

(** [DeleteNode] *)
Definition BST_DeleteNode (fuel : nat) (h : heap) (node : ptr) : result heap :=
  n ← load h node;
  h' ← (if bool_decide (left_ n = None) && bool_decide (right_ n = None) then
          pn ← load h (parent_ n);
          if bool_decide (node = left_ pn) then store h (parent_ n) (set_left None)
          else store h (parent_ n) (set_right None)
        else if bool_decide (left_ n = None) then
          pn ← load h (parent_ n);
          splice h node (bool_decide (node = left_ pn)) right_
        else if bool_decide (right_ n = None) then
          pn ← load h (parent_ n);
          splice h node (bool_decide (node = left_ pn)) left_
        else
          temp ← BST_Leftmost_from fuel h (right_ n);
          pn ← load h (parent_ n);
          h2 ← splice h node (bool_decide (node = left_ pn)) right_;
          l ← field h2 node left_;
          h3 ← store h2 temp (set_left l);
          l1 ← field h3 node left_;
          store h3 l1 (set_parent temp));
  Ok (delete_node h' node).

(** [erase(Iterator<false, Pick> it)]; the overload on constant iterators
    has the same body. *)
Definition BST_erase (pick : Pick) (fuel : nat) (h : heap) (b : BST) (it : ptr)
    : result (heap * BST * ptr) :=
  if decide (it = BST_end pick b) then Ok (h, b, it)
  else
    let node := it in
    it1 ← Add pick fuel h it;
    h1 ← BST_DeleteNode fuel h node;
    Ok (h1, mkBST (root_ b) (size_t_decr (size_ b)), it1).

(** [find(const T& value, Pick)] *)
Fixpoint BST_find_loop (pick : Pick) (fuel0 : nat) (h : heap) (b : BST)
    (value : T) (fuel : nat) (it : ptr) : result ptr :=
  match fuel with
  | O => Timeout
  | S f =>
      if decide (it = BST_end pick b) then Ok it
      else
        v ← deref h it;
        if decide (v = value) then Ok it
        else it1 ← Add pick fuel0 h it; BST_find_loop pick fuel0 h b value f it1
  end.

Definition BST_find (pick : Pick) (fuel : nat) (h : heap) (b : BST) (value : T)
    : result ptr :=
  it ← BST_begin pick fuel h b;
  BST_find_loop pick fuel h b value fuel it.







(** The client loop of the tests:
    [for (auto i = bst.begin(P); i != bst.end(P); ++i) out.push_back( *i);] *)
Fixpoint traverse_loop (pick : Pick) (fuel0 : nat) (h : heap) (b : BST)
    (fuel : nat) (it : ptr) : result (list T) :=
  match fuel with
  | O => Timeout
  | S f =>
      if decide (it = BST_end pick b) then Ok []
      else
        v ← deref h it;
        it1 ← Add pick fuel0 h it;
        vs ← traverse_loop pick fuel0 h b f it1;
        Ok (v :: vs)
  end.

Definition traverse (pick : Pick) (fuel : nat) (h : heap) (b : BST)
    : result (list T) :=
  it ← BST_begin pick fuel h b;
  traverse_loop pick fuel h b fuel it.


(** ** The rest of the container's interface *)

(** [ClearRecursive] *)
Fixpoint ClearRecursive (fuel : nat) (h : heap) (node : ptr) : result heap :=
  match node with
  | None => Ok h
  | Some _ =>
      match fuel with
      | O => Timeout
      | S f =>
          n ← load h node;
          h1 ← ClearRecursive f h (left_ n);
          n1 ← load h1 node;
          h2 ← ClearRecursive f h1 (right_ n1);
          Ok (delete_node h2 node)
      end
  end.

(** [clear] *)
Definition BST_clear (fuel : nat) (h : heap) (b : BST) : result (heap * BST) :=
  r ← load h (root_ b);
  h1 ← ClearRecursive fuel h (left_ r);
  h2 ← store h1 (root_ b) (set_left None);
  Ok (h2, mkBST (root_ b) 0).

(** [~BST] *)
Definition BST_destroy (fuel : nat) (h : heap) (b : BST) : result heap :=
  ClearRecursive fuel h (root_ b).

(** [CopyRecursive] *)
Fixpoint CopyRecursive (fuel : nat) (h : heap) (other parent : ptr)
    : result (heap * ptr) :=
  match other with
  | None => Ok (h, None)
  | Some _ =>
      match fuel with
      | O => Timeout
      | S f =>
          let '(h1, node) := alloc_node h in
          o ← load h1 other;
          h2 ← store h1 node (set_data (data_ o));
          h3 ← store h2 node (set_parent parent);
          o1 ← load h3 other;
          '(h4, l) ← CopyRecursive f h3 (left_ o1) node;
          h5 ← store h4 node (set_left l);
          o2 ← load h5 other;
          '(h6, r) ← CopyRecursive f h5 (right_ o2) node;
          h7 ← store h6 node (set_right r);
          Ok (h7, node)
      end
  end.

(** [BST(const BST& other)] *)
Definition BST_copy (fuel : nat) (h : heap) (other : BST) : result (heap * BST) :=
  '(h1, r) ← CopyRecursive fuel h (root_ other) None;
  Ok (h1, mkBST r (size_ other)).

(** [operator=(const BST& other)]; [same] tells whether [this == &other]. *)
Definition BST_copy_assign (same : bool) (fuel : nat) (h : heap) (b other : BST)
    : result (heap * BST) :=
  if same then Ok (h, b)
  else
    h1 ← ClearRecursive fuel h (root_ b);
    '(h2, r) ← CopyRecursive fuel h1 (root_ other) None;
    Ok (h2, mkBST r (size_ other)).

(** [operator=(BST&& other)]; [other] keeps its fields. *)
Definition BST_move_assign (same : bool) (fuel : nat) (h : heap) (b other : BST)
    : result (heap * BST) :=
  if same then Ok (h, b)
  else
    h1 ← ClearRecursive fuel h (root_ b);
    Ok (h1, mkBST (root_ other) (size_ other)).

(** [contains] *)
Definition BST_contains (fuel : nat) (h : heap) (b : BST) (value : T) : result bool :=
  it ← BST_find Inorder fuel h b value;
  Ok (bool_decide (it ≠ BST_end Inorder b)).

(** [count] *)
Fixpoint BST_count_loop (fuel : nat) (h : heap) (value : T) (current : ptr)
    (count : N) : result N :=
  match current with
  | None => Ok count
  | Some _ =>
      match fuel with
      | O => Timeout
      | S f =>
          c ← load h current;
          let count1 := if decide (data_ c = value) then size_t_incr count else count in
          if comp value (data_ c)
          then BST_count_loop f h value (left_ c) count1
          else BST_count_loop f h value (right_ c) count1
      end
  end.

Definition BST_count (fuel : nat) (h : heap) (b : BST) (value : T) : result N :=
  r ← load h (root_ b);
  BST_count_loop fuel h value (left_ r) 0.

(** [rfind]: the loop [while (it != end(Pick()) && *it == value) ++it;]
    and the step back. *)
Fixpoint BST_rfind_loop (pick : Pick) (fuel0 : nat) (h : heap) (b : BST)
    (value : T) (fuel : nat) (it : ptr) : result ptr :=
  match fuel with
  | O => Timeout
  | S f =>
      if decide (it = BST_end pick b) then Ok it
      else
        v ← deref h it;
        if decide (v = value)
        then it1 ← Add pick fuel0 h it; BST_rfind_loop pick fuel0 h b value f it1
        else Ok it
  end.

Definition BST_rfind (pick : Pick) (fuel : nat) (h : heap) (b : BST) (value : T)
    : result ptr :=
  it ← BST_find pick fuel h b value;
  it1 ← BST_rfind_loop pick fuel h b value fuel it;
  if decide (it1 = BST_end pick b) then Ok it1 else Subtract pick fuel h it1.

(** [lower_bound], [upper_bound], [equal_range] *)
Definition BST_lower_bound (pick : Pick) (fuel : nat) (h : heap) (b : BST)
    (value : T) : result ptr :=
  BST_find pick fuel h b value.

Definition BST_upper_bound (pick : Pick) (fuel : nat) (h : heap) (b : BST)
    (value : T) : result ptr :=
  it ← BST_rfind pick fuel h b value;
  if decide (it = BST_end pick b) then Ok it else Add pick fuel h it.

Definition BST_equal_range (pick : Pick) (fuel : nat) (h : heap) (b : BST)
    (value : T) : result (ptr * ptr) :=
  lo ← BST_lower_bound pick fuel h b value;
  hi ← BST_upper_bound pick fuel h b value;
  Ok (lo, hi).

(** [extract(Iterator it)] and [extract(const T& value)] *)
Definition BST_extract (pick : Pick) (fuel : nat) (h : heap) (b : BST) (it : ptr)
    : result (heap * BST * T) :=
  value ← deref h it;
  '(h1, b1, _) ← BST_erase pick fuel h b it;
  Ok (h1, b1, value).

Definition BST_extract_value (fuel : nat) (h : heap) (b : BST) (value : T)
    : result (heap * BST * T) :=
  it ← BST_find Inorder fuel h b value;
  BST_extract Inorder fuel h b it.

(** [erase(Iterator first, Iterator last)]:
    [while (first != last) erase(first++);] *)
Fixpoint BST_erase_range (pick : Pick) (fuel0 : nat) (fuel : nat) (h : heap)
    (b : BST) (first last : ptr) : result (heap * BST) :=
  match fuel with
  | O => Timeout
  | S f =>
      if decide (first = last) then Ok (h, b)
      else
        let tmp := first in
        first1 ← Add pick fuel0 h first;
        '(h1, b1, _) ← BST_erase pick fuel0 h b tmp;
        BST_erase_range pick fuel0 f h1 b1 first1 last
  end.

(** [insert(InputIt first, InputIt last)] over the constant in-order
    iterators of a container, as [insert_range] calls it. *)
Fixpoint BST_insert_iter (fuel0 : nat) (fuel : nat) (h : heap) (b : BST)
    (first last : ptr) : result (heap * BST) :=
  match fuel with
  | O => Timeout
  | S f =>
      if decide (first = last) then Ok (h, b)
      else
        v ← deref h first;
        '(h1, b1, _) ← BST_insert fuel0 h b v;
        first1 ← Add Inorder fuel0 h1 first;
        BST_insert_iter fuel0 f h1 b1 first1 last
  end.

(** [merge(const BST& other)] through [insert_range(other)] *)
Definition BST_merge (fuel : nat) (h : heap) (b other : BST) : result (heap * BST) :=
  first ← BST_begin Inorder fuel h other;
  BST_insert_iter fuel fuel h b first (BST_end Inorder other).

(** [operator=(initializer_list<T>)] *)
Definition BST_assign_list (fuel : nat) (h : heap) (b : BST) (ilist : list T)
    : result (heap * BST) :=
  '(h1, b1) ← BST_clear fuel h b;
  BST_insert_range fuel h1 b1 ilist.

(** [operator==]: the loop compares in lockstep along both in-orders. *)
Fixpoint BST_eq_loop (fuel0 : nat) (h : heap) (b : BST) (fuel : nat)
    (it other_it : ptr) : result bool :=
  match fuel with
  | O => Timeout
  | S f =>
      if decide (it = BST_end Inorder b) then Ok true
      else
        v ← deref h it;
        w ← deref h other_it;
        if decide (v = w) then
          other_it1 ← Add Inorder fuel0 h other_it;
          it1 ← Add Inorder fuel0 h it;
          BST_eq_loop fuel0 h b f it1 other_it1
        else Ok false
  end.

Definition BST_eq (fuel : nat) (h : heap) (b other : BST) : result bool :=
  if decide (size_ b = size_ other) then
    other_it ← BST_begin Inorder fuel h other;
    it ← BST_begin Inorder fuel h b;
    BST_eq_loop fuel h b fuel it other_it
  else Ok false.

(** The reverse client loop:
    [for (auto i = bst.rbegin(P); i != bst.rend(P); ++i) out.push_back( *i);] *)
Fixpoint rtraverse_loop (pick : Pick) (fuel0 : nat) (h : heap) (b : BST)
    (fuel : nat) (it : ptr) : result (list T) :=
  match fuel with
  | O => Timeout
  | S f =>
      e ← BST_rend pick fuel0 h b;
      if decide (it = e) then Ok []
      else
        v ← deref h it;
        it1 ← ReverseIterator_incr pick fuel0 h it;
        vs ← rtraverse_loop pick fuel0 h b f it1;
        Ok (v :: vs)
  end.

Definition rtraverse (pick : Pick) (fuel : nat) (h : heap) (b : BST)
    : result (list T) :=
  it ← BST_rbegin pick fuel h b;
  rtraverse_loop pick fuel h b fuel it.

(** ** The tree a store holds

    A tree of the store is described by a binary tree whose nodes carry
    their address.  [repr h par t] says that the store [h] holds [t] below
    the node at [par]; a path from a node up to the sentinel is a list of
    frames, innermost first. *)

Inductive tree : Type :=
  | Leaf
  | Tr (l : tree) (a : addr) (x : T) (r : tree).

Definition rootp (t : tree) : ptr :=
  match t with
  | Leaf => None
  | Tr _ a _ _ => Some a
  end.

Fixpoint inorder (t : tree) : list (addr * T) :=
  match t with
  | Leaf => []
  | Tr l a x r => inorder l ++ (a, x) :: inorder r
  end.

Definition addrs (t : tree) : list addr := (inorder t).*1.
Definition elems (t : tree) : list T := (inorder t).*2.

Fixpoint tsize (t : tree) : nat :=
  match t with
  | Leaf => 0
  | Tr l _ _ r => S (tsize l + tsize r)
  end.

Fixpoint repr (h : heap) (par : addr) (t : tree) : Prop :=
  match t with
  | Leaf => True
  | Tr l a x r =>
      h !! a = Some (mkNode x (Some par) (rootp l) (rootp r))
      ∧ repr h a l ∧ repr h a r
  end.

Inductive frame : Type :=
  | FL (a : addr) (x : T) (r : tree)   (* the hole is the left child of [a] *)
  | FR (l : tree) (a : addr) (x : T).  (* the hole is the right child of [a] *)

Definition fill (f : frame) (t : tree) : tree :=
  match f with
  | FL a x r => Tr t a x r
  | FR l a x => Tr l a x t
  end.

Fixpoint plug (c : list frame) (t : tree) : tree :=
  match c with
  | [] => t
  | f :: c' => plug c' (fill f t)
  end.

Definition frame_addr (f : frame) : addr :=
  match f with
  | FL a _ _ => a
  | FR _ a _ => a
  end.

(** The node whose child the hole is; the sentinel [s] at the top. *)
Definition ctx_parent (s : addr) (c : list frame) : addr :=
  match c with
  | [] => s
  | f :: _ => frame_addr f
  end.

Fixpoint ctx_before (c : list frame) : list (addr * T) :=
  match c with
  | [] => []
  | FL _ _ _ :: c' => ctx_before c'
  | FR l a x :: c' => ctx_before c' ++ inorder l ++ [(a, x)]
  end.

Fixpoint ctx_after (c : list frame) : list (addr * T) :=
  match c with
  | [] => []
  | FL a x r :: c' => (a, x) :: inorder r ++ ctx_after c'
  | FR _ _ _ :: c' => ctx_after c'
  end.

(** All addresses of a path: its nodes and their other subtrees. *)
Fixpoint ctx_addrs (c : list frame) : list addr :=
  match c with
  | [] => []
  | FL a _ r :: c' => a :: addrs r ++ ctx_addrs c'
  | FR l a _ :: c' => a :: addrs l ++ ctx_addrs c'
  end.

Fixpoint repr_ctx (h : heap) (s : addr) (c : list frame) (hole : ptr) : Prop :=
  match c with
  | [] => ∃ d, h !! s = Some (mkNode d None hole None)
  | FL a x r :: c' =>
      h !! a = Some (mkNode x (Some (ctx_parent s c')) hole (rootp r))
      ∧ repr h a r ∧ repr_ctx h s c' (Some a)
  | FR l a x :: c' =>
      h !! a = Some (mkNode x (Some (ctx_parent s c')) (rootp l) hole)
      ∧ repr h a l ∧ repr_ctx h s c' (Some a)
  end.

(** The container [b] holds the tree [t] in [h]: the sentinel has no parent
    and no right child, its left child is the data root, and no address
    occurs twice. *)
Definition wf_at (h : heap) (s : addr) (t : tree) : Prop :=
  repr_ctx h s [] (rootp t) ∧ repr h s t ∧ NoDup (s :: addrs t).

Definition wf (h : heap) (b : BST) (t : tree) : Prop :=
  ∃ s, root_ b = Some s ∧ wf_at h s t.

(** The size counter agrees with the number of data nodes. *)
Definition size_ok (b : BST) (t : tree) : Prop :=
  size_ b = N.of_nat (tsize t).

(** The tree invariant of the specification: nothing in a left subtree is
    greater than the node, nothing in a right subtree is less. *)
Fixpoint bst_inv (t : tree) : Prop :=
  match t with
  | Leaf => True
  | Tr l _ x r =>
      Forall (λ y, comp x y = false) (elems l)
      ∧ Forall (λ y, comp y x = false) (elems r)
      ∧ bst_inv l ∧ bst_inv r
  end.

(** Non-decreasing under the comparator: no later value is less than an
    earlier one. *)
Definition non_decreasing (vs : list T) : Prop :=
  StronglySorted (λ x y, comp y x = false) vs.

(** Insertion as the specification words it: left exactly when the value is
    strictly less than the node's, right otherwise, a new leaf at the end. *)
Fixpoint spec_insert (a : addr) (v : T) (t : tree) : tree :=
  match t with
  | Leaf => Tr Leaf a v Leaf
  | Tr l p x r =>
      if comp v x then Tr (spec_insert a v l) p x r
      else Tr l p x (spec_insert a v r)
  end.

(** The search path of [v] in [t], on top of the path [c]. *)
Fixpoint ins_path (v : T) (t : tree) (c : list frame) : list frame :=
  match t with
  | Leaf => c
  | Tr l p x r =>
      if comp v x then ins_path v l (FL p x r :: c)
      else ins_path v r (FR l p x :: c)
  end.

(** The direction the descent took at a frame of the search path. *)
Definition dir_ok (v : T) (f : frame) : Prop :=
  match f with
  | FL _ y _ => comp v y = true
  | FR _ _ y => comp v y = false
  end.

(** Writing the slot of the hole in the node above it. *)
Definition is_left_hole (c : list frame) : bool :=
  match c with
  | FR _ _ _ :: _ => false
  | _ => true
  end.

Definition set_hole (c : list frame) (v : ptr) : Node → Node :=
  if is_left_hole c then set_left v else set_right v.

(** The first position of an in-order sequence that holds [v], the
    sentinel [s] when there is none. *)
Fixpoint find_first (v : T) (s : addr) (l : list (addr * T)) : addr :=
  match l with
  | [] => s
  | (a, x) :: l' => if decide (x = v) then a else find_first v s l'
  end.

(** Deletion as the specification words it: a leaf is detached, a single
    child is spliced in, and with two children the right subtree takes the
    node's place and the left subtree becomes the left child of the right
    subtree's minimum. *)
Fixpoint graft (l r : tree) : tree :=
  match r with
  | Leaf => l
  | Tr rl p y rr => Tr (graft l rl) p y rr
  end.

Definition spec_delete_root (l r : tree) : tree :=
  match l, r with
  | Leaf, _ => r
  | _, Leaf => l
  | _, _ => graft l r
  end.

(** The invariant that [insert] and [DeleteNode] keep in its strict form:
    everything in a left subtree is less than the node, nothing in a right
    subtree is. *)
Fixpoint bst_strict (t : tree) : Prop :=
  match t with
  | Leaf => True
  | Tr l _ x r =>
      Forall (λ y, comp y x = true) (elems l)
      ∧ Forall (λ y, comp y x = false) (elems r)
      ∧ bst_strict l ∧ bst_strict r
  end.

(** Two trees of the same shape with the same values, whatever the
    addresses. *)
Fixpoint same_shape (t t' : tree) : Prop :=
  match t, t' with
  | Leaf, Leaf => True
  | Tr l _ x r, Tr l' _ x' r' => x = x' ∧ same_shape l l' ∧ same_shape r r'
  | _, _ => False
  end.

(** The pre-order and the post-order sequence of a tree. *)
Fixpoint preorder (t : tree) : list (addr * T) :=
  match t with
  | Leaf => []
  | Tr l a x r => (a, x) :: preorder l ++ preorder r
  end.

Fixpoint postorder (t : tree) : list (addr * T) :=
  match t with
  | Leaf => []
  | Tr l a x r => postorder l ++ postorder r ++ [(a, x)]
  end.

(** What the pre-order and the post-order loop visit: the right subtree
    of a node without a left child is left out. *)
Fixpoint pre_visited (t : tree) : list (addr * T) :=
  match t with
  | Leaf => []
  | Tr l a x r =>
      (a, x) :: match l with
                | Leaf => []
                | _ => pre_visited l ++ pre_visited r
                end
  end.

Fixpoint post_visited (t : tree) : list (addr * T) :=
  match t with
  | Leaf => []
  | Tr l a x r =>
      match l with
      | Leaf => []
      | _ => post_visited l ++ post_visited r
      end ++ [(a, x)]
  end.

(** Every node that has a right child has a left child. *)
Fixpoint left_full (t : tree) : Prop :=
  match t with
  | Leaf => True
  | Tr l _ _ r => (l = Leaf → r = Leaf) ∧ left_full l ∧ left_full r
  end.

(** The node that follows, in pre-order, the subtree in the hole of a
    path: the root of the nearest right sibling above, the sentinel [s]
    when there is none. *)
Fixpoint next_pre (s : addr) (c : list frame) : addr :=
  match c with
  | [] => s
  | FL _ _ (Tr _ ra _ _) :: _ => ra
  | _ :: c' => next_pre s c'
  end.

(** The node that follows, in post-order, the subtree in the hole of a
    path: the leftmost node of the right sibling, else the parent. *)
Definition next_post (s : addr) (c : list frame) : addr :=
  match c with
  | [] => s
  | FL p _ r :: _ => hd p (addrs r)
  | FR _ p _ :: _ => p
  end.

(** How often [v] occurs. *)
Definition occurrences (v : T) (vs : list T) : nat :=
  length (filter (λ y, y = v) vs).

End BST.

Arguments Leaf {T}.
Arguments Tr {T} _ _ _ _.

(** ** Runs on [BST<int>] with [std::less<int>] *)

Definition Zempty : gmap nat (Node (T:=Z)) * BST := BST_new 0%Z ∅.

Definition Zbuild (vs : list Z) : result (gmap nat (Node (T:=Z)) * BST) :=
  BST_insert_range Z.ltb 0%Z 100 (Zempty.1) (Zempty.2) vs.

Definition Ztraverse (pick : Pick) (vs : list Z) : result (list Z) :=
  '(h, b) ← Zbuild vs; traverse pick 100 h b.

(** The store and the container after inserting [vs]. *)
Definition Zstate (vs : list Z) : gmap nat (Node (T:=Z)) * BST :=
  match Zbuild vs with
  | Ok s => s
  | _ => Zempty
  end.
Definition Zh (vs : list Z) : gmap nat (Node (T:=Z)) := (Zstate vs).1.
Definition Zb (vs : list Z) : BST := (Zstate vs).2.

(** The tree that [Zh [4;2;6]] holds. *)
Definition Ztree426 : tree (T:=Z) :=
  Tr (Tr Leaf 2 2%Z Leaf) 1 4%Z (Tr Leaf 3 6%Z Leaf).

(** The tree that [Zh [2;1]] holds. *)
Definition Ztree21 : tree (T:=Z) := Tr (Tr Leaf 2 1%Z Leaf) 1 2%Z Leaf.

(** The tree that [Zh [1;2]] holds. *)
Definition Ztree12 : tree (T:=Z) := Tr Leaf 1 1%Z (Tr Leaf 2 2%Z Leaf).

(** Two containers in one store, the first holding [vs] and the second
    [ws]. *)
Definition Zpair (vs ws : list Z) : gmap nat (Node (T:=Z)) * BST * BST :=
  let '(h1, b1) := BST_new 0%Z ∅ in
  let '(h2, b2) := BST_new 0%Z h1 in
  match BST_insert_range Z.ltb 0%Z 100 h2 b1 vs with
  | Ok (h3, b1') =>
      match BST_insert_range Z.ltb 0%Z 100 h3 b2 ws with
      | Ok (h4, b2') => (h4, b1', b2')
      | _ => (h2, b1, b2)
      end
  | _ => (h2, b1, b2)
  end.

(** The store and the two containers after inserting 2,1 into the first
    and 1,2 into the second, and the trees they hold. *)
Definition Zh2 : gmap nat (Node (T:=Z)) := (Zpair [2;1]%Z [1;2]%Z).1.1.
Definition Zb2a : BST := (Zpair [2;1]%Z [1;2]%Z).1.2.
Definition Zb2b : BST := (Zpair [2;1]%Z [1;2]%Z).2.
Definition Ztree2a : tree (T:=Z) := Tr (Tr Leaf 3 1%Z Leaf) 2 2%Z Leaf.
Definition Ztree2b : tree (T:=Z) := Tr Leaf 4 1%Z (Tr Leaf 5 2%Z Leaf).

(** Two containers in one store: [1] is inserted into the first, then the
    two are swapped. *)
Definition Zswap_run : result (gmap nat (Node (T:=Z)) * BST * BST) :=
  let '(h1, b1) := BST_new 0%Z ∅ in
  let '(h2, b2) := BST_new 0%Z h1 in
  '(h3, b1', _) ← BST_insert Z.ltb 0%Z 100 h2 b1 1%Z;
  let '(b1'', b2'') := BST_swap b1' b2 in
  Ok (h3, b1'', b2'').


(** * Proofs *)

Section BST_proofs.
Context {T : Type} `{!EqDecision T}.

Implicit Types (h : gmap nat (Node (T:=T))) (t l r : tree (T:=T)).
Implicit Types (c : list (frame (T:=T))) (f : frame (T:=T)).
Implicit Types (a s par : nat) (x v : T) (b : BST).

(** ** The tree and its paths *)

Lemma addrs_Tr l a x r : addrs (Tr l a x r) = addrs l ++ a :: addrs r.
Proof. unfold addrs. simpl. by rewrite fmap_app. Qed.

Lemma elems_Tr l a x r : elems (Tr l a x r) = elems l ++ x :: elems r.
Proof. unfold elems. simpl. by rewrite fmap_app. Qed.

Lemma length_inorder t : length (inorder t) = tsize t.
Proof.
  induction t as [|l IHl a x r IHr]; simpl; [done|].
  rewrite length_app. simpl. lia.
Qed.

Lemma rootp_addrs t a : rootp t = Some a → a ∈ addrs t.
Proof.
  destruct t as [|l p x r]; simpl; [done|]. intros [= ->].
  rewrite addrs_Tr. set_solver.
Qed.

Lemma plug_app c1 c2 t : plug (c1 ++ c2) t = plug c2 (plug c1 t).
Proof. revert t. induction c1 as [|f c1 IH]; intros t; simpl; [done|]. apply IH. Qed.

Lemma inorder_plug c t :
  inorder (plug c t) = ctx_before c ++ inorder t ++ ctx_after c.
Proof.
  revert t. induction c as [|[a x r|l a x] c IH]; intros t; simpl.
  - by rewrite app_nil_r.
  - rewrite IH. simpl. by rewrite <- !app_assoc.
  - rewrite IH. simpl. by rewrite <- !app_assoc.
Qed.

Lemma ctx_parent_cons s f c : ctx_parent s (f :: c) = frame_addr f.
Proof. done. Qed.

Lemma repr_plug h s c t :
  repr h (ctx_parent s c) t ∧ repr_ctx h s c (rootp t)
  ↔ repr h s (plug c t) ∧ repr_ctx h s [] (rootp (plug c t)).
Proof.
  revert t. induction c as [|[a x r|l a x] c IH]; intros t; simpl; [done| |].
  - rewrite <- IH. simpl. tauto.
  - rewrite <- IH. simpl. tauto.
Qed.

(** Only the nodes of a tree matter for [repr]. *)
Lemma repr_ext h h' par t :
  (∀ a, a ∈ addrs t → h' !! a = h !! a) → repr h par t → repr h' par t.
Proof.
  revert par. induction t as [|l IHl a x r IHr]; intros par Hagree; simpl; [done|].
  intros (Ha & Hl & Hr). split_and!.
  - rewrite Hagree; [done|]. rewrite addrs_Tr. set_solver.
  - apply IHl; [|done]. intros a' Hin. apply Hagree. rewrite addrs_Tr. set_solver.
  - apply IHr; [|done]. intros a' Hin. apply Hagree. rewrite addrs_Tr. set_solver.
Qed.

Lemma addrs_fill f t :
  addrs (fill f t) ≡ₚ addrs t ++ ctx_addrs [f].
Proof.
  destruct f as [a x r|l a x]; simpl; rewrite addrs_Tr, app_nil_r.
  - done.
  - rewrite (Permutation_app_comm (addrs t)). simpl.
    by rewrite Permutation_middle, Permutation_app_comm.
Qed.

Lemma ctx_addrs_cons f c : ctx_addrs (f :: c) = ctx_addrs [f] ++ ctx_addrs c.
Proof. destruct f; simpl; by rewrite app_nil_r. Qed.

Lemma addrs_plug c t : addrs (plug c t) ≡ₚ addrs t ++ ctx_addrs c.
Proof.
  revert t. induction c as [|f c IH]; intros t.
  - simpl. by rewrite app_nil_r.
  - simpl plug. rewrite IH, addrs_fill, (ctx_addrs_cons f c).
    rewrite <- app_assoc. reflexivity.
Qed.

Lemma repr_ctx_ext h h' s c hole :
  (∀ a, a = s ∨ a ∈ ctx_addrs c → h' !! a = h !! a) →
  repr_ctx h s c hole → repr_ctx h' s c hole.
Proof.
  revert hole. induction c as [|[a x r|l a x] c IH]; intros hole Hagree; simpl.
  - intros [d Hd]. exists d. rewrite Hagree; auto.
  - intros (Ha & Hr & Hc). split_and!.
    + rewrite Hagree; [done|]. right. set_solver.
    + eapply repr_ext; [|done]. intros a' Hin. apply Hagree. right. set_solver.
    + apply IH; [|done]. intros a' [->|Hin]; apply Hagree; [by left|].
      right. set_solver.
  - intros (Ha & Hl & Hc). split_and!.
    + rewrite Hagree; [done|]. right. set_solver.
    + eapply repr_ext; [|done]. intros a' Hin. apply Hagree. right. set_solver.
    + apply IH; [|done]. intros a' [->|Hin]; apply Hagree; [by left|].
      right. set_solver.
Qed.

Lemma repr_lookup h par t a :
  repr h par t → a ∈ addrs t → is_Some (h !! a).
Proof.
  revert par. induction t as [|l IHl p x r IHr]; intros par; simpl.
  - intros _ Hin. by apply elem_of_nil in Hin.
  - intros (Hp & Hl & Hr). rewrite addrs_Tr. intros Hin.
    apply elem_of_app in Hin as [Hin|Hin]; [by eapply IHl|].
    apply elem_of_cons in Hin as [->|Hin]; [by eexists|by eapply IHr].
Qed.

Lemma repr_ctx_lookup h s c hole a :
  repr_ctx h s c hole → a = s ∨ a ∈ ctx_addrs c → is_Some (h !! a).
Proof.
  revert hole. induction c as [|[p x r|l p x] c IH]; intros hole; simpl.
  - intros [d Hd] [->|Hin]; [by eexists|]. set_solver.
  - intros (Hp & Hr & Hc) [->|Hin]; [eapply IH; eauto|].
    apply elem_of_cons in Hin as [->|Hin]; [by eexists|].
    apply elem_of_app in Hin as [Hin|Hin]; [by eapply repr_lookup|eapply IH; eauto].
  - intros (Hp & Hl & Hc) [->|Hin]; [eapply IH; eauto|].
    apply elem_of_cons in Hin as [->|Hin]; [by eexists|].
    apply elem_of_app in Hin as [Hin|Hin]; [by eapply repr_lookup|eapply IH; eauto].
Qed.

Lemma focus_perm f c t :
  addrs (fill f t) ++ ctx_addrs c ≡ₚ addrs t ++ ctx_addrs (f :: c).
Proof. rewrite addrs_fill, (ctx_addrs_cons f c). by rewrite <- app_assoc. Qed.

Lemma ctx_after_addrs c a : a ∈ (ctx_after c).*1 → a ∈ ctx_addrs c.
Proof.
  induction c as [|[p x r|l p x] c IH]; simpl; [done| |].
  - rewrite fmap_app. fold (addrs r). set_solver.
  - set_solver.
Qed.

(** The node above the hole of a path. *)
Lemma repr_ctx_parent h s c hole :
  repr_ctx h s c hole →
  ∃ n, h !! ctx_parent s c = Some n
       ∧ parent_ n = match c with [] => None | _ :: c' => Some (ctx_parent s c') end
       ∧ match c with
         | [] => left_ n = hole ∧ right_ n = None
         | FL _ _ r :: _ => left_ n = hole ∧ right_ n = rootp r
         | FR l _ _ :: _ => left_ n = rootp l ∧ right_ n = hole
         end.
Proof.
  destruct c as [|[a x r|l a x] c]; simpl.
  - intros [d Hd]. eauto.
  - intros (Ha & _ & _). eauto.
  - intros (Ha & _ & _). eauto.
Qed.

(** ** Reading the store *)

Lemma load_Some h a n : h !! a = Some n → load h (Some a) = Ok n.
Proof. intros H. unfold load. by rewrite H. Qed.

Lemma hd_app_ne {A} (d : A) (l1 l2 : list A) : l1 ≠ [] → hd d (l1 ++ l2) = hd d l1.
Proof. by destruct l1. Qed.

Lemma addrs_ne t : t ≠ Leaf → addrs t ≠ [].
Proof.
  destruct t as [|l a x r]; [done|]. intros _. rewrite addrs_Tr.
  by destruct (addrs l).
Qed.

(** [while_left] stops at the first node of the subtree in in-order. *)
Lemma while_left_spec h par t fuel d :
  repr h par t → t ≠ Leaf → tsize t ≤ fuel →
  while_left fuel h (rootp t) = Ok (Some (hd d (addrs t))).
Proof.
  revert par fuel. induction t as [|l IHl a x r _]; intros par fuel Hr Hne Hf; [done|].
  destruct fuel as [|fuel]; [simpl in Hf; lia|].
  destruct Hr as (Ha & Hl & _). simpl.
  rewrite Ha. simpl. rewrite addrs_Tr.
  destruct l as [|ll la lx lr].
  - done.
  - change (rootp (Tr ll la lx lr)) with (Some la) at 1.
    rewrite hd_app_ne by (by apply addrs_ne).
    apply (IHl a); [done|done|]. simpl in *. lia.
Qed.

Lemma bind_Ok {A B} (a : A) (k : A → result B) : (Ok a ≫= k) = k a.
Proof. done. Qed.

Lemma Add_Inorder_loop_S fuel h it :
  Add_Inorder_loop (S fuel) h it =
  (n ← load h it;
   pn ← load h (parent_ n);
   if decide (it = right_ pn) then
     n1 ← load h (parent_ n);
     pn1 ← load h (parent_ n1);
     if parent_ pn1 is None then Ok (parent_ n) else Add_Inorder_loop fuel h (parent_ n)
   else Ok it).
Proof. done. Qed.

(** Rewrite with the lookups at hand and run the binds. *)
Ltac run :=
  cbn [parent_ left_ right_ data_ ctx_parent frame_addr rootp] in *;
  repeat (first
    [ rewrite bind_Ok
    | match goal with
      | H : ?h !! ?a = Some _ |- context [load ?h (Some ?a)] =>
          rewrite (load_Some h a _ H)
      end ];
    cbn [parent_ left_ right_ data_ ctx_parent frame_addr rootp] in *).

(** The climbing loop of [Add(Inorder)] stops at a node whose parent is the
    in-order successor of the subtree it started from. *)
Lemma Add_Inorder_loop_spec h s c t a fuel :
  rootp t = Some a →
  repr h (ctx_parent s c) t →
  repr_ctx h s c (Some a) →
  NoDup (s :: addrs t ++ ctx_addrs c) →
  length c < fuel →
  ∃ a1 n1, Add_Inorder_loop fuel h (Some a) = Ok (Some a1)
           ∧ h !! a1 = Some n1
           ∧ parent_ n1 = Some (hd s (ctx_after c).*1).
Proof.
  revert t a fuel. induction c as [|f c IH]; intros t a fuel Hroot Ht Hc Hnd Hf.
  - destruct fuel as [|fuel]; [simpl in Hf; lia|].
    destruct t as [|l p x r]; [done|]. injection Hroot as ->.
    destruct Ht as (Ha & _ & _). destruct Hc as [d Hd].
    rewrite Add_Inorder_loop_S. run.
    rewrite decide_False by done. eauto.
  - destruct fuel as [|fuel]; [simpl in Hf; lia|].
    destruct t as [|l p x r]; [done|]. injection Hroot as ->.
    pose proof Ht as (Ha & _ & _).
    assert (Hin : a ∈ addrs (Tr l a x r)) by (by apply rootp_addrs).
    rewrite Add_Inorder_loop_S.
    destruct f as [q y r'|l' q y].
    + destruct Hc as (Hq & Hr' & Hc). run.
      rewrite decide_False.
      { exists a. eexists. split_and!; [done|done|done]. }
      intros Heq. symmetry in Heq. apply rootp_addrs in Heq.
      apply NoDup_cons in Hnd as [_ Hnd]. apply NoDup_app in Hnd as (_ & Hdisj & _).
      apply (Hdisj a Hin). simpl. set_solver.
    + destruct Hc as (Hq & Hl' & Hc). run.
      rewrite decide_True by done.
      destruct (repr_ctx_parent _ _ _ _ Hc) as (pn & Hpn & Hpar & _).
      run. rewrite Hpar.
      destruct c as [|f' c'].
      * exists q. eexists. split_and!; [done|done|reflexivity].
      * apply (IH (Tr l' q y (Tr l a x r)) q); [done| |done| |simpl in *; lia].
        -- exact (conj Hq (conj Hl' Ht)).
        -- eapply NoDup_Permutation_proper; [|exact Hnd]. apply perm_skip.
           apply (focus_perm (FR l' q y)).
Qed.

(** ** Focusing on a position of the in-order sequence *)

Lemma app_cons_split {A} (l1 l2 pre suf : list A) (y z : A) :
  l1 ++ y :: l2 = pre ++ z :: suf →
  (∃ m1, l1 = pre ++ z :: m1 ∧ suf = m1 ++ y :: l2)
  ∨ (l1 = pre ∧ y = z ∧ l2 = suf)
  ∨ (∃ m2, l2 = m2 ++ z :: suf ∧ pre = l1 ++ y :: m2).
Proof.
  revert pre. induction l1 as [|u l1 IH]; intros [|p0 pre]; simpl; intros [= E1 E2].
  - right. left. done.
  - right. right. exists pre. by subst.
  - left. exists l1. by subst.
  - subst p0. destruct (IH _ E2) as [(m1 & -> & ->)|[(-> & -> & ->)|(m2 & -> & ->)]].
    + left. eauto.
    + right. left. done.
    + right. right. eauto.
Qed.

Lemma focus_split t c0 pre a x suf :
  inorder t = pre ++ (a, x) :: suf →
  ∃ c l r, plug c0 t = plug c (Tr l a x r)
           ∧ suf ++ ctx_after c0 = inorder r ++ ctx_after c
           ∧ ctx_before c0 ++ pre = ctx_before c ++ inorder l.
Proof.
  revert c0 pre suf. induction t as [|l IHl p y r IHr]; intros c0 pre suf; simpl.
  - intros E. by destruct pre.
  - intros E. apply app_cons_split in E
      as [(m1 & E & ->)|[(E1 & E2 & E3)|(m2 & E & ->)]].
    + destruct (IHl (FL p y r :: c0) _ _ E) as (c & l0 & r0 & Hp & Hs & Hb).
      exists c, l0, r0. split_and!; [done| |done]. rewrite <- Hs. simpl.
      by rewrite <- app_assoc.
    + injection E2 as -> ->. subst suf pre. by exists c0, l, r.
    + destruct (IHr (FR l p y :: c0) _ _ E) as (c & l0 & r0 & Hp & Hs & Hb).
      exists c, l0, r0. split_and!; [done|done|]. rewrite <- Hb. simpl.
      by rewrite <- !app_assoc.
Qed.

Lemma tsize_plug c t : tsize t + length c ≤ tsize (plug c t).
Proof.
  revert t. induction c as [|f c IH]; intros t; simpl; [lia|].
  specialize (IH (fill f t)). destruct f; simpl in *; lia.
Qed.

(** ** The in-order successor *)

Lemma Add_Inorder_focus h s c l a x r fuel :
  repr h (ctx_parent s c) (Tr l a x r) →
  repr_ctx h s c (Some a) →
  NoDup (s :: addrs (Tr l a x r) ++ ctx_addrs c) →
  tsize r ≤ fuel → length c < fuel →
  Add_Inorder fuel h (Some a) = Ok (Some (hd s (inorder r ++ ctx_after c).*1)).
Proof.
  intros Ht Hc Hnd Hf1 Hf2. pose proof Ht as (Ha & _ & Hr).
  unfold Add_Inorder. run. rewrite fmap_app. fold (addrs r).
  destruct r as [|rl ra rx rr].
  - cbn [rootp].
    destruct (Add_Inorder_loop_spec h s c (Tr l a x Leaf) a fuel eq_refl Ht Hc Hnd Hf2)
      as (a1 & n1 & -> & Hn1 & Hpar).
    run. by rewrite Hpar.
  - rewrite hd_app_ne by (by apply addrs_ne).
    change (Some ra) with (rootp (Tr rl ra rx rr)).
    by apply (while_left_spec h a).
Qed.

Lemma wf_at_focus h s c t :
  wf_at h s (plug c t) →
  repr h (ctx_parent s c) t ∧ repr_ctx h s c (rootp t)
  ∧ NoDup (s :: addrs t ++ ctx_addrs c).
Proof.
  intros (Hs & Ht & Hnd). split_and!.
  - by apply repr_plug.
  - by apply repr_plug.
  - eapply NoDup_Permutation_proper; [|exact Hnd]. apply perm_skip.
    symmetry. apply addrs_plug.
Qed.

Lemma wf_at_unfocus h s c t :
  repr h (ctx_parent s c) t → repr_ctx h s c (rootp t) →
  NoDup (s :: addrs t ++ ctx_addrs c) →
  wf_at h s (plug c t).
Proof.
  intros Ht Hc Hnd. destruct (proj1 (repr_plug h s c t) (conj Ht Hc)) as [H1 H2].
  split_and!; [done|done|].
  eapply NoDup_Permutation_proper; [|exact Hnd]. apply perm_skip. apply addrs_plug.
Qed.

(** At any position of the in-order sequence the node holds the value, and
    [++] moves to the next position, or to the sentinel after the last. *)
Lemma step_Inorder h s t pre a x suf fuel :
  wf_at h s t →
  inorder t = pre ++ (a, x) :: suf →
  tsize t < fuel →
  a ≠ s
  ∧ deref h (Some a) = Ok x
  ∧ Add_Inorder fuel h (Some a) = Ok (Some (hd s suf.*1)).
Proof.
  intros Hwf Hsplit Hf.
  destruct (focus_split t [] pre a x suf Hsplit) as (c & l & r & Hp & Hs & _).
  simpl in Hp, Hs. rewrite app_nil_r in Hs. subst t suf.
  pose proof (tsize_plug c (Tr l a x r)) as Hsz. simpl in Hsz.
  destruct (wf_at_focus _ _ _ _ Hwf) as (Ht & Hc & Hnd).
  pose proof Ht as (Ha & _ & _). split_and!.
  - apply NoDup_cons in Hnd as [Hnot _]. intros ->. apply Hnot.
    apply elem_of_app. left. by apply rootp_addrs.
  - unfold deref. by run.
  - apply Add_Inorder_focus with (l := l) (x := x); [done|done|done|lia|lia].
Qed.

Lemma BST_Leftmost_spec h s t b fuel :
  wf_at h s t → root_ b = Some s → tsize t ≤ fuel →
  BST_Leftmost fuel h b = Ok (Some (hd s (addrs t))).
Proof.
  intros ([d Hd] & Ht & _) Hb Hf. unfold BST_Leftmost. rewrite Hb. run.
  destruct t as [|l a x r]; [done|].
  change (Some a) with (rootp (Tr l a x r)). by apply (while_left_spec h s).
Qed.

Lemma traverse_loop_Inorder h s t b fuel0 pre suf fuel :
  wf_at h s t → root_ b = Some s →
  inorder t = pre ++ suf →
  tsize t < fuel0 → length suf < fuel →
  traverse_loop Inorder fuel0 h b fuel (Some (hd s suf.*1)) = Ok suf.*2.
Proof.
  intros Hwf Hb. revert pre fuel. induction suf as [|[a x] suf IH]; intros pre fuel Hsplit Hf0 Hf.
  - destruct fuel as [|fuel]; [simpl in Hf; lia|]. simpl.
    unfold BST_end. rewrite Hb. by rewrite decide_True.
  - destruct fuel as [|fuel]; [simpl in Hf; lia|].
    destruct (step_Inorder h s t pre a x suf fuel0 Hwf Hsplit Hf0) as (Hne & Hd & Hadd).
    cbn [traverse_loop fmap list_fmap hd fst snd].
    unfold BST_end. rewrite Hb. rewrite decide_False by congruence.
    rewrite Hd, bind_Ok. cbn [Add]. rewrite Hadd, bind_Ok.
    rewrite (IH (pre ++ [(a, x)]) fuel); [done| |done|simpl in Hf; lia].
    by rewrite <- app_assoc.
Qed.

(** The in-order loop from [begin()] to [end()] yields the values of the
    tree from left to right. *)
Lemma traverse_Inorder h b t fuel :
  wf h b t → tsize t < fuel →
  traverse Inorder fuel h b = Ok (elems t).
Proof.
  intros (s & Hb & Hwf) Hf. unfold traverse. cbn [BST_begin].
  rewrite (BST_Leftmost_spec h s t) by (done || lia). rewrite bind_Ok.
  apply (traverse_loop_Inorder h s t b fuel []); [done|done|done|done|].
  rewrite length_inorder. lia.
Qed.

(** ** Writing the store *)

Lemma store_Some h a n g : h !! a = Some n → store h (Some a) g = Ok (<[a := g n]> h).
Proof. intros H. unfold store. by rewrite H. Qed.

Lemma store_insert h a n g :
  store (<[a := n]> h) (Some a) g = Ok (<[a := g n]> h).
Proof.
  rewrite (store_Some _ a n) by apply lookup_insert_eq. by rewrite insert_insert_eq.
Qed.

(** Changing the slot of the hole re-targets a path. *)
Lemma repr_ctx_set_hole h h' s c hole hole' n :
  repr_ctx h s c hole →
  NoDup (s :: ctx_addrs c) →
  h !! ctx_parent s c = Some n →
  h' !! ctx_parent s c = Some (set_hole c hole' n) →
  (∀ a', a' ≠ ctx_parent s c → a' = s ∨ a' ∈ ctx_addrs c → h' !! a' = h !! a') →
  repr_ctx h' s c hole'.
Proof.
  intros Hc Hnd Hn Hn' Hagree. destruct c as [|[q y r|l q y] c]; simpl in *.
  - destruct Hc as [d Hd]. exists d. rewrite Hn'. rewrite Hd in Hn. by injection Hn as <-.
  - destruct Hc as (Hq & Hr & Hc). rewrite Hq in Hn. injection Hn as <-.
    apply NoDup_cons in Hnd as [Hs Hnd]. apply NoDup_cons in Hnd as [Hq' Hnd].
    split_and!; [done| |].
    + eapply repr_ext; [|done]. intros a' Hin. apply Hagree; set_solver.
    + eapply repr_ctx_ext; [|done]. intros a' Hin. apply Hagree; set_solver.
  - destruct Hc as (Hq & Hl & Hc). rewrite Hq in Hn. injection Hn as <-.
    apply NoDup_cons in Hnd as [Hs Hnd]. apply NoDup_cons in Hnd as [Hq' Hnd].
    split_and!; [done| |].
    + eapply repr_ext; [|done]. intros a' Hin. apply Hagree; set_solver.
    + eapply repr_ctx_ext; [|done]. intros a' Hin. apply Hagree; set_solver.
Qed.

(** ** Counting the steps from [begin()] to [end()] *)


(** ** Stepping back from [begin()] *)

Lemma Subtract_Inorder_loop_S fuel h it :
  Subtract_Inorder_loop (S fuel) h it =
  (n ← load h it;
   pn ← load h (parent_ n);
   if decide (it = left_ pn) then
     n1 ← load h (parent_ n);
     pn1 ← load h (parent_ n1);
     if parent_ pn1 is None then Ok (parent_ n)
     else Subtract_Inorder_loop fuel h (parent_ n)
   else Ok it).
Proof. done. Qed.

(** From a node reached from the data root by left links only, and not the
    data root itself, the climbing loop of [Subtract(Inorder)] stops at the
    data root. *)
Lemma Subtract_Inorder_loop_spine h s c a n fuel :
  h !! a = Some n → parent_ n = Some (ctx_parent s c) →
  repr_ctx h s c (Some a) → c ≠ [] → ctx_before c = [] → length c ≤ fuel →
  ∃ a1 n1, Subtract_Inorder_loop fuel h (Some a) = Ok (Some a1)
           ∧ h !! a1 = Some n1 ∧ parent_ n1 = Some s.
Proof.
  revert a n fuel. induction c as [|f c IH]; intros a n fuel Ha Hpar Hc Hne Hbef Hf; [done|].
  destruct f as [q y r|l q y].
  2:{ simpl in Hbef. apply app_eq_nil in Hbef as [_ Hbef].
      by apply app_eq_nil in Hbef as [_ Hbef]. }
  destruct fuel as [|fuel]; [simpl in Hf; lia|].
  destruct Hc as (Hq & _ & Hc). simpl in Hbef, Hpar.
  rewrite Subtract_Inorder_loop_S. run. rewrite Hpar. run.
  rewrite decide_True by done.
  destruct (repr_ctx_parent _ _ _ _ Hc) as (pn & Hpn & Hpp & _).
  run. rewrite Hpp. destruct c as [|f' c'].
  - exists q. eexists. split_and!; [done|done|reflexivity].
  - apply (IH q _ fuel Hq); [done|done|done|done|simpl in *; lia].
Qed.

Lemma Subtract_Inorder_begin h s l a x r fuel :
  wf_at h s (Tr l a x r) → l ≠ Leaf → tsize (Tr l a x r) ≤ fuel →
  Subtract_Inorder fuel h (Some (hd s (addrs (Tr l a x r)))) = Ok (Some s).
Proof.
  intros Hwf Hl Hf. set (t := Tr l a x r) in *.
  destruct (inorder t) as [|[m y] suf] eqn:E.
  { apply (f_equal length) in E. rewrite length_inorder in E. done. }
  destruct (focus_split t [] [] m y suf E) as (c & l0 & r0 & Hp & _ & Hb).
  simpl in Hp, Hb. symmetry in Hb. apply app_eq_nil in Hb as [Hbef Hl0].
  assert (l0 = Leaf) as ->.
  { destruct l0; [done|]. simpl in Hl0. by destruct (inorder l0_1). }
  assert (Hc_ne : c ≠ []).
  { intros ->. simpl in Hp. unfold t in Hp. injection Hp as -> _ _ _. done. }
  pose proof (tsize_plug c (Tr Leaf m y r0)) as Hsz. rewrite <- Hp in Hsz. simpl in Hsz.
  rewrite Hp in Hwf. apply wf_at_focus in Hwf as (Ht & Hc & _).
  destruct Ht as (Hm & _ & _).
  unfold addrs. rewrite E. cbn [fmap list_fmap hd fst].
  unfold Subtract_Inorder. run.
  destruct (Subtract_Inorder_loop_spine h s c m _ fuel Hm eq_refl Hc Hc_ne Hbef)
    as (a1 & n1 & -> & Hn1 & Hpar); [simpl in *; lia|].
  run. by rewrite Hpar.
Qed.

(** At a data root that has no left child [Subtract(Inorder)] climbs to the
    sentinel inside its loop and reads the parent of the sentinel's null
    parent. *)
Lemma Subtract_Inorder_root_UB h s a x r fuel :
  wf_at h s (Tr Leaf a x r) → Subtract_Inorder (S fuel) h (Some a) = UB.
Proof.
  intros ([d Hd] & (Ha & _) & _). unfold Subtract_Inorder. run.
  rewrite Subtract_Inorder_loop_S. run. rewrite decide_True by done. by run.
Qed.

Lemma Subtract_Inorder_empty h s fuel :
  wf_at h s Leaf → Subtract_Inorder fuel h (Some s) = Ok (Some s).
Proof. intros ([d Hd] & _). unfold Subtract_Inorder. by run. Qed.


(** ** The in-order predecessor, and [find] *)

Lemma last_addrs_Tr d l a x r :
  default d (last (addrs (Tr l a x r)))
  = match r with Leaf => a | _ => default d (last (addrs r)) end.
Proof.
  rewrite addrs_Tr, last_app_cons, last_cons.
  destruct r as [|rl ra rx rr]; [done|].
  destruct (last (addrs (Tr rl ra rx rr))) eqn:E; [done|].
  apply last_None in E. by apply addrs_ne in E.
Qed.

(** [while_right] stops at the last node of the subtree in in-order. *)
Lemma while_right_spec h par t fuel d :
  repr h par t → t ≠ Leaf → tsize t ≤ fuel →
  while_right fuel h (rootp t) = Ok (Some (default d (last (addrs t)))).
Proof.
  revert par fuel. induction t as [|l _ a x r IHr]; intros par fuel Hr Hne Hf; [done|].
  destruct fuel as [|fuel]; [simpl in Hf; lia|].
  destruct Hr as (Ha & _ & Hr). rewrite last_addrs_Tr.
  cbn [while_right rootp]. run.
  destruct r as [|rl ra rx rr]; [done|].
  cbn [rootp]. change (Some ra) with (rootp (Tr rl ra rx rr)).
  apply (IHr a); [done|done|]. simpl in *. lia.
Qed.

(** The climbing loop of [Subtract(Inorder)], started below the data root,
    stops at a node whose parent is the in-order predecessor of the subtree
    it started from, or the sentinel when there is none. *)
Lemma Subtract_Inorder_loop_spec h s c t a fuel :
  rootp t = Some a →
  repr h (ctx_parent s c) t →
  repr_ctx h s c (Some a) →
  NoDup (s :: addrs t ++ ctx_addrs c) →
  c ≠ [] → length c ≤ fuel →
  ∃ a1 n1, Subtract_Inorder_loop fuel h (Some a) = Ok (Some a1)
           ∧ h !! a1 = Some n1
           ∧ parent_ n1 = Some (default s (last (ctx_before c).*1)).
Proof.
  revert t a fuel. induction c as [|f c IH]; intros t a fuel Hroot Ht Hc Hnd Hne Hf; [done|].
  destruct fuel as [|fuel]; [simpl in Hf; lia|].
  destruct t as [|l p x r]; [done|]. injection Hroot as ->.
  pose proof Ht as (Ha & _ & _).
  assert (Hin : a ∈ addrs (Tr l a x r)) by (by apply rootp_addrs).
  rewrite Subtract_Inorder_loop_S.
  destruct f as [q y r'|l' q y].
  - destruct Hc as (Hq & Hr' & Hc). run.
    rewrite decide_True by done.
    destruct (repr_ctx_parent _ _ _ _ Hc) as (pn & Hpn & Hpar & _).
    run. rewrite Hpar.
    destruct c as [|f' c'].
    + exists q. eexists. split_and!; [done|done|reflexivity].
    + apply (IH (Tr (Tr l a x r) q y r') q); [done| |done| |done|simpl in *; lia].
      * exact (conj Hq (conj Ht Hr')).
      * eapply NoDup_Permutation_proper; [|exact Hnd]. apply perm_skip.
        apply (focus_perm (FL q y r')).
  - destruct Hc as (Hq & Hl' & Hc). run.
    rewrite decide_False.
    { exists a. eexists. split_and!; [done|done|].
      cbn [ctx_before parent_]. rewrite !fmap_app. simpl.
      by rewrite !app_assoc, last_snoc. }
    intros Heq. symmetry in Heq. apply rootp_addrs in Heq.
    apply NoDup_cons in Hnd as [_ Hnd]. apply NoDup_app in Hnd as (_ & Hdisj & _).
    apply (Hdisj a Hin). simpl. set_solver.
Qed.

(** At a node that is not a data root without a left child, [--] moves to
    the previous in-order position, or to the sentinel before the first. *)
Lemma Subtract_Inorder_focus h s c l a x r fuel :
  repr h (ctx_parent s c) (Tr l a x r) →
  repr_ctx h s c (Some a) →
  NoDup (s :: addrs (Tr l a x r) ++ ctx_addrs c) →
  l ≠ Leaf ∨ c ≠ [] →
  tsize l ≤ fuel → length c ≤ fuel →
  Subtract_Inorder fuel h (Some a)
  = Ok (Some (default s (last (ctx_before c ++ inorder l).*1))).
Proof.
  intros Ht Hc Hnd Hcase Hf1 Hf2. pose proof Ht as (Ha & Hl & _).
  unfold Subtract_Inorder. run. rewrite fmap_app, last_app. fold (addrs l).
  destruct l as [|ll la lx lr].
  - destruct Hcase as [?|Hne]; [done|].
    destruct (Subtract_Inorder_loop_spec h s c (Tr Leaf a x r) a fuel eq_refl Ht Hc Hnd Hne Hf2)
      as (a1 & n1 & -> & Hn1 & Hpar).
    run. rewrite Hpar. unfold addrs. simpl. done.
  - cbn [rootp]. change (Some la) with (rootp (Tr ll la lx lr)).
    rewrite (while_right_spec h a _ fuel s Hl) by done.
    destruct (last (addrs (Tr ll la lx lr))) eqn:E; [done|].
    apply last_None in E. by apply addrs_ne in E.
Qed.

(** From the sentinel [--] moves to the last in-order position. *)
Lemma Subtract_Inorder_end h s t fuel :
  wf_at h s t → t ≠ Leaf → tsize t ≤ fuel →
  Subtract_Inorder fuel h (Some s) = Ok (Some (default s (last (addrs t)))).
Proof.
  intros ([d Hd] & Ht & _) Hne Hf. unfold Subtract_Inorder. run.
  destruct t as [|l a x r]; [done|]. cbn [rootp].
  change (Some a) with (rootp (Tr l a x r)). by apply (while_right_spec h s).
Qed.

(** For the in-order, [++] followed by [--] returns to the node, from every
    data node. *)
Lemma Inorder_forward_backward h s t pre a x suf fuel :
  wf_at h s t →
  inorder t = pre ++ (a, x) :: suf →
  tsize t < fuel →
  (it ← Add_Inorder fuel h (Some a); Subtract_Inorder fuel h it) = Ok (Some a).
Proof.
  intros Hwf Hsplit Hf.
  destruct (step_Inorder h s t pre a x suf fuel Hwf Hsplit Hf) as (_ & _ & ->).
  rewrite bind_Ok. destruct suf as [|[q y] suf]; cbn [fmap list_fmap hd fst].
  - rewrite (Subtract_Inorder_end h s t fuel Hwf); [| |lia].
    + unfold addrs. rewrite Hsplit, fmap_app. simpl. by rewrite last_snoc.
    + intros ->. by destruct pre.
  - assert (Hsplit' : inorder t = (pre ++ [(a, x)]) ++ (q, y) :: suf)
      by (by rewrite <- app_assoc).
    destruct (focus_split t [] _ q y suf Hsplit') as (c & l & r & Hp & _ & Hb).
    simpl in Hp, Hb. subst t.
    pose proof (tsize_plug c (Tr l q y r)) as Hsz. simpl in Hsz.
    destruct (wf_at_focus _ _ _ _ Hwf) as (Ht & Hc & Hnd).
    rewrite (Subtract_Inorder_focus h s c l q y r fuel Ht Hc Hnd); [| |lia|lia].
    + rewrite <- Hb, fmap_app. simpl. by rewrite last_snoc.
    + destruct l as [|? ? ? ?]; [|by left]. right. intros ->.
      simpl in Hb. by destruct pre.
Qed.

(** [find] with the in-order returns the first position holding the value,
    or [end()]. *)
Lemma BST_find_loop_Inorder h s t b v fuel0 pre suf fuel :
  wf_at h s t → root_ b = Some s →
  inorder t = pre ++ suf →
  tsize t < fuel0 → length suf < fuel →
  BST_find_loop Inorder fuel0 h b v fuel (Some (hd s suf.*1))
  = Ok (Some (find_first v s suf)).
Proof.
  intros Hwf Hb. revert pre fuel.
  induction suf as [|[a x] suf IH]; intros pre fuel Hsplit Hf0 Hf.
  - destruct fuel as [|fuel]; [simpl in Hf; lia|]. simpl.
    unfold BST_end. rewrite Hb. by rewrite decide_True.
  - destruct fuel as [|fuel]; [simpl in Hf; lia|].
    destruct (step_Inorder h s t pre a x suf fuel0 Hwf Hsplit Hf0) as (Hne & Hd & Hadd).
    cbn [BST_find_loop find_first fmap list_fmap hd fst].
    unfold BST_end. rewrite Hb. rewrite decide_False by congruence.
    rewrite Hd, bind_Ok. destruct (decide (x = v)) as [_|_]; [done|].
    cbn [Add]. rewrite Hadd, bind_Ok.
    apply (IH (pre ++ [(a, x)])); [|done|simpl in Hf; lia].
    by rewrite <- app_assoc.
Qed.

Lemma find_first_spec v s (l : list (nat * T)) :
  (find_first v s l = s ∧ v ∉ l.*2)
  ∨ (∃ pre suf, l = pre ++ (find_first v s l, v) :: suf ∧ v ∉ pre.*2).
Proof.
  induction l as [|[a x] l IH]; simpl.
  - left. split; [done|]. apply not_elem_of_nil.
  - destruct (decide (x = v)) as [->|Hne].
    + right. exists [], l. split; [done|]. apply not_elem_of_nil.
    + destruct IH as [[E Hnot]|(pre & suf & E & Hnot)].
      * left. split; [done|]. apply not_elem_of_cons. by split.
      * right. exists ((a, x) :: pre), suf. split; [by rewrite E at 1|].
        simpl. apply not_elem_of_cons. by split.
Qed.

(** On a well-formed store the in-order [find] returns [end()] exactly when
    no stored value equals [v], and otherwise the node of the first
    occurrence in in-order. *)
Lemma BST_find_Inorder h b t v fuel :
  wf h b t → tsize t < fuel →
  ∃ it, BST_find Inorder fuel h b v = Ok it
    ∧ (it = BST_end Inorder b ↔ v ∉ elems t)
    ∧ (it ≠ BST_end Inorder b → deref h it = Ok v).
Proof.
  intros (s & Hb & Hwf) Hf. exists (Some (find_first v s (inorder t))).
  assert (Hrun : BST_find Inorder fuel h b v = Ok (Some (find_first v s (inorder t)))).
  { unfold BST_find. cbn [BST_begin].
    rewrite (BST_Leftmost_spec h s t b fuel Hwf Hb) by lia. rewrite bind_Ok.
    apply (BST_find_loop_Inorder h s t b v fuel []); [done|done|done|done|].
    rewrite length_inorder. lia. }
  split; [exact Hrun|]. clear Hrun. unfold BST_end. rewrite Hb.
  destruct (find_first_spec v s (inorder t)) as [[E Hnot]|(pre & suf & E & Hnot)].
  - rewrite E. split; [by split|done].
  - destruct (step_Inorder h s t pre _ v suf fuel Hwf E Hf) as (Hne & Hd & _).
    split; [|done]. split; [congruence|].
    intros Hnotin. exfalso. apply Hnotin. unfold elems. rewrite E, fmap_app.
    set_solver.
Qed.

(** ** Deletion *)

Lemma focus_distinct s l a x r c :
  NoDup (s :: addrs (Tr l a x r) ++ ctx_addrs c) →
  NoDup (addrs l) ∧ NoDup (addrs r) ∧ NoDup (s :: ctx_addrs c)
  ∧ (a ∉ addrs l) ∧ (a ∉ addrs r) ∧ (∀ a', a' ∈ addrs l → a' ∉ addrs r)
  ∧ (∀ a', a' = s ∨ a' ∈ ctx_addrs c →
       a' ≠ a ∧ (a' ∉ addrs l) ∧ (a' ∉ addrs r)).
Proof.
  rewrite addrs_Tr. rewrite !NoDup_cons, !NoDup_app, !NoDup_cons.
  intros (Hs & (Hl & Hlr & Ha & Hr) & Hc & Hcc).
  split_and!; try done.
  - set_solver.
  - intros Hin. apply (Hlr a Hin). set_solver.
  - intros a' Hl' Hr'. apply (Hlr a' Hl'). set_solver.
  - intros a' [->|Hin]; [set_solver|]. split_and!.
    + intros ->. apply (Hc a); set_solver.
    + intros Hl'. apply (Hc a'); set_solver.
    + intros Hr'. apply (Hc a'); set_solver.
Qed.

Lemma is_left_child h s c a :
  repr_ctx h s c (Some a) → a ∉ ctx_addrs c →
  ∃ pn, h !! ctx_parent s c = Some pn
        ∧ bool_decide (Some a = left_ pn) = is_left_hole c.
Proof.
  intros Hc Hnot. destruct c as [|[q y r|l q y] c]; simpl in *.
  - destruct Hc as [d Hd]. eexists. split; [done|]. by apply bool_decide_eq_true.
  - destruct Hc as (Hq & _). eexists. split; [done|]. by apply bool_decide_eq_true.
  - destruct Hc as (Hq & _). eexists. split; [done|]. apply bool_decide_eq_false.
    simpl. intros Heq. symmetry in Heq. apply rootp_addrs in Heq. set_solver.
Qed.

Lemma store_hole h c par (pn : Node (T:=T)) (v : option nat) :
  h !! par = Some pn →
  (if is_left_hole c then store h (Some par) (set_left v)
   else store h (Some par) (set_right v))
  = Ok (<[par := set_hole c v pn]> h).
Proof.
  intros H. unfold set_hole. destruct (is_left_hole c); by apply store_Some.
Qed.

Lemma splice_spec h c a n par pn (child : Node (T:=T) → option nat) sa nsa :
  h !! a = Some n → parent_ n = Some par → child n = Some sa →
  h !! par = Some pn → h !! sa = Some nsa → a ≠ par → sa ≠ par →
  splice h (Some a) (is_left_hole c) child
  = Ok (<[sa := set_parent (Some par) nsa]> (<[par := set_hole c (Some sa) pn]> h)).
Proof.
  intros Ha Hpar Hch Hpn Hsa Hne1 Hne2. unfold splice, field.
  rewrite (load_Some h a n Ha), !bind_Ok, Hpar, Hch.
  rewrite (store_Some h par pn) by done. rewrite bind_Ok.
  rewrite (load_Some _ a n) by (by rewrite lookup_insert_ne).
  rewrite !bind_Ok, Hch, Hpar.
  rewrite (store_Some _ sa nsa) by (by rewrite lookup_insert_ne).
  unfold set_hole. by destruct (is_left_hole c).
Qed.

(** Giving the root of a subtree another parent. *)
Lemma repr_reparent h h' par par' t sa nsa :
  repr h par t → rootp t = Some sa → h !! sa = Some nsa →
  h' !! sa = Some (set_parent (Some par') nsa) →
  (∀ a', a' ∈ addrs t → a' ≠ sa → h' !! a' = h !! a') →
  NoDup (addrs t) →
  repr h' par' t.
Proof.
  destruct t as [|tl p tx tr]; [done|]. intros (Hp & Hl & Hr) [= ->] Hn Hn' Hagree Hnd.
  rewrite Hp in Hn. injection Hn as <-. rewrite addrs_Tr in Hnd, Hagree.
  apply NoDup_app in Hnd as (_ & Hd1 & Hd2). apply NoDup_cons in Hd2 as [Hd2 _].
  simpl. split_and!; [done| |].
  - eapply repr_ext; [|done]. intros a' Hin. apply Hagree; [set_solver|].
    intros ->. apply (Hd1 sa Hin). set_solver.
  - eapply repr_ext; [|done]. intros a' Hin. apply Hagree; [set_solver|].
    intros ->. done.
Qed.

Lemma inorder_graft l r : inorder (graft l r) = inorder l ++ inorder r.
Proof.
  induction r as [|rl IHl p y rr _]; simpl; [by rewrite app_nil_r|].
  by rewrite IHl, <- app_assoc.
Qed.

Lemma rootp_graft l r : r ≠ Leaf → rootp (graft l r) = rootp r.
Proof. by destruct r. Qed.

(** Hanging [l] below the first node [m] of [r]. *)
Lemma graft_repr h2 h4 par l la r m nm :
  repr h2 par r → r ≠ Leaf → hd m (addrs r) = m →
  rootp l = Some la →
  h2 !! m = Some nm → h4 !! m = Some (set_left (Some la) nm) →
  (∀ a', a' ∈ addrs r → a' ≠ m → h4 !! a' = h2 !! a') →
  repr h4 m l → NoDup (addrs r) →
  repr h4 par (graft l r).
Proof.
  revert par. induction r as [|rl IHl ra rx rr _]; intros par Hr Hne Hm Hla Hnm Hnm' Hagree Hl Hnd; [done|].
  destruct Hr as (Hra & Hrl & Hrr). rewrite addrs_Tr in Hnd, Hagree, Hm.
  apply NoDup_app in Hnd as (Hnd1 & Hd1 & Hd2). apply NoDup_cons in Hd2 as [Hd2 Hnd2].
  assert (Hcase : rl = Leaf ∨ rl ≠ Leaf) by (destruct rl; [by left|by right]).
  destruct Hcase as [->|Hrlne].
  - simpl in Hm. subst m. rewrite Hra in Hnm. injection Hnm as <-.
    simpl. rewrite Hla. split_and!; [done|done|].
    eapply repr_ext; [|done]. intros a' Hin. apply Hagree; [set_solver|].
    by intros ->.
  - assert (Hm' : hd m (addrs rl) = m).
    { rewrite hd_app_ne in Hm; [done|]. by apply addrs_ne. }
    assert (Hin_m : m ∈ addrs rl).
    { destruct (addrs rl) as [|m0 rest] eqn:E.
      - by apply addrs_ne in E.
      - simpl in Hm'. subst m0. set_solver. }
    cbn [graft repr]. rewrite rootp_graft by done. split_and!.
    + rewrite Hagree; [done|set_solver|]. intros ->. by apply (Hd1 m Hin_m); set_solver.
    + apply IHl; try done. intros a' Hin Hne'. apply Hagree; [set_solver|done].
    + eapply repr_ext; [|done]. intros a' Hin. apply Hagree; [set_solver|].
      intros ->. apply (Hd1 m Hin_m). set_solver.
Qed.

Ltac lk :=
  repeat first
    [ rewrite lookup_delete_eq
    | rewrite lookup_insert_eq
    | rewrite lookup_delete_ne by congruence
    | rewrite lookup_insert_ne by congruence ].

(** Two addresses from lists known to be apart differ. *)
Lemma apart_ne (l1 l2 : list nat) a1 a2 :
  (∀ a', a' ∈ l1 → a' ∉ l2) → a1 ∈ l1 → a2 ∈ l2 → a1 ≠ a2.
Proof. intros H H1 H2 ->. by apply (H a2). Qed.

Lemma notin_ne (l1 : list nat) a1 a2 : a1 ∉ l1 → a2 ∈ l1 → a1 ≠ a2.
Proof. intros H H2 ->. done. Qed.

Ltac apart :=
  match goal with
  | Hn : ?x ∉ ?l, Hi : ?y ∈ ?l |- ?x ≠ ?y => exact (notin_ne l x y Hn Hi)
  | Hn : ?x ∉ ?l, Hi : ?y ∈ ?l |- ?y ≠ ?x => exact (not_eq_sym (notin_ne l x y Hn Hi))
  | Hd : (∀ a', a' ∈ ?l1 → a' ∉ ?l2), H1 : ?x ∈ ?l1, H2 : ?y ∈ ?l2 |- ?x ≠ ?y =>
      exact (apart_ne l1 l2 x y Hd H1 H2)
  | Hd : (∀ a', a' ∈ ?l1 → a' ∉ ?l2), H1 : ?x ∈ ?l1, H2 : ?y ∈ ?l2 |- ?y ≠ ?x =>
      exact (not_eq_sym (apart_ne l1 l2 x y Hd H1 H2))
  end.

(** What a store must satisfy after the node in focus has been replaced by
    [t'], built from its two subtrees. *)
Lemma delete_wf h h' s c l a x r t' pn :
  repr_ctx h s c (Some a) →
  NoDup (s :: addrs (Tr l a x r) ++ ctx_addrs c) →
  h !! ctx_parent s c = Some pn →
  h' !! ctx_parent s c = Some (set_hole c (rootp t') pn) →
  (∀ a', a' = s ∨ a' ∈ ctx_addrs c → a' ≠ ctx_parent s c → h' !! a' = h !! a') →
  repr h' (ctx_parent s c) t' →
  addrs t' = addrs l ++ addrs r →
  wf_at h' s (plug c t').
Proof.
  intros Hc Hnd Hpn Hpn' Hagree Ht' Haddrs.
  destruct (focus_distinct _ _ _ _ _ _ Hnd) as (Hl & Hr & Hsc & Hal & Har & Hlr & Hout).
  apply wf_at_unfocus; [done| |].
  - eapply repr_ctx_set_hole; [exact Hc|done|done|done|]. intros; by apply Hagree.
  - rewrite Haddrs. apply NoDup_cons in Hsc as [Hs Hcc]. apply NoDup_cons. split.
    + destruct (Hout s (or_introl eq_refl)) as (_ & ? & ?).
      rewrite !not_elem_of_app. done.
    + apply NoDup_app. split_and!; [|intros a' Hin Hin'|done].
      * apply NoDup_app. done.
      * destruct (Hout a' (or_intror Hin')) as (_ & ? & ?).
        apply elem_of_app in Hin as [?|?]; done.
Qed.

Lemma ctx_parent_in s c : ctx_parent s c = s ∨ ctx_parent s c ∈ ctx_addrs c.
Proof. destruct c as [|[]]; simpl; [by left|right; set_solver..]. Qed.

(** [DeleteNode] on the store refines [spec_delete_root] at the node in
    focus, and releases the node. *)
Lemma BST_DeleteNode_spec h s c l a x r fuel :
  wf_at h s (plug c (Tr l a x r)) → tsize r ≤ fuel →
  ∃ h', BST_DeleteNode fuel h (Some a) = Ok h'
        ∧ h' !! a = None
        ∧ wf_at h' s (plug c (spec_delete_root l r)).
Proof.
  intros Hwf Hf. apply wf_at_focus in Hwf as (Ht & Hc & Hnd).
  destruct (focus_distinct _ _ _ _ _ _ Hnd) as (Hl & Hr & Hsc & Hal & Har & Hlr & Hout).
  pose proof Ht as (Ha & Hrl & Hrr).
  assert (Hac : a ∉ ctx_addrs c).
  { intros Hin. by destruct (Hout a (or_intror Hin)). }
  destruct (is_left_child h s c a Hc Hac) as (pn & Hpn & Hisl).
  set (par := ctx_parent s c) in *.
  destruct (Hout par (ctx_parent_in s c)) as (Hpa & Hpl & Hpr).
  unfold BST_DeleteNode. run.
  destruct l as [|ll la lx lr], r as [|rl ra rx rr]; cbn [rootp spec_delete_root].
  - (* a leaf *)
    rewrite !bool_decide_eq_true_2 by done. cbn [andb]. run.
    rewrite Hisl, (store_hole h c par pn None Hpn), bind_Ok. cbn [delete_node].
    eexists. split_and!; [reflexivity|by lk|].
    eapply (delete_wf h _ s c Leaf a x Leaf Leaf pn); fold par; [done|done|done| | |done|done].
    + by lk.
    + intros a' Hin Hne. destruct (Hout a' Hin) as (? & _). by lk.
  - (* only a right child *)
    rewrite (bool_decide_eq_false_2 (Some ra = None)) by done.
    rewrite !bool_decide_eq_true_2 by done. cbn [andb]. run.
    destruct Hrr as (Hra & Hrrl & Hrrr).
    assert (Hin_ra : ra ∈ addrs (Tr rl ra rx rr)) by (by apply rootp_addrs).
    assert (Hne1 : ra ≠ par) by apart.
    assert (Hne2 : a ≠ ra) by apart.
    rewrite Hisl, (splice_spec h c a _ par pn right_ ra _ Ha eq_refl eq_refl Hpn Hra)
      by congruence.
    rewrite bind_Ok. cbn [delete_node].
    eexists. split_and!; [reflexivity|by lk|].
    eapply (delete_wf h _ s c Leaf a x (Tr rl ra rx rr) (Tr rl ra rx rr) pn);
      fold par; [done|done|done| | | |done].
    + by lk.
    + intros a' Hin Hne. destruct (Hout a' Hin) as (? & _ & ?).
      assert (a' ≠ ra) by apart. by lk.
    + eapply (repr_reparent h _ a par); [exact (conj Hra (conj Hrrl Hrrr))|done|done| | |done].
      * by lk.
      * intros a' Hin Hne.
        assert (a' ≠ a) by apart.
        assert (a' ≠ par) by apart. by lk.
  - (* only a left child *)
    rewrite (bool_decide_eq_false_2 (Some la = None)) by done.
    rewrite !bool_decide_eq_true_2 by done. cbn [andb]. run.
    destruct Hrl as (Hla & Hlll & Hllr).
    assert (Hin_la : la ∈ addrs (Tr ll la lx lr)) by (by apply rootp_addrs).
    assert (Hne1 : la ≠ par) by apart.
    assert (Hne2 : a ≠ la) by apart.
    rewrite Hisl, (splice_spec h c a _ par pn left_ la _ Ha eq_refl eq_refl Hpn Hla)
      by congruence.
    rewrite bind_Ok. cbn [delete_node].
    eexists. split_and!; [reflexivity|by lk|].
    eapply (delete_wf h _ s c (Tr ll la lx lr) a x Leaf (Tr ll la lx lr) pn);
      fold par; [done|done|done| | | |by rewrite app_nil_r].
    + by lk.
    + intros a' Hin Hne. destruct (Hout a' Hin) as (? & ? & _).
      assert (a' ≠ la) by apart. by lk.
    + eapply (repr_reparent h _ a par); [exact (conj Hla (conj Hlll Hllr))|done|done| | |done].
      * by lk.
      * intros a' Hin Hne.
        assert (a' ≠ a) by apart.
        assert (a' ≠ par) by apart. by lk.
  - (* two children *)
    rewrite !bool_decide_eq_false_2 by done. cbn [andb].
    set (l := Tr ll la lx lr) in *. set (r := Tr rl ra rx rr) in *.
    assert (Hin_la : la ∈ addrs l) by (by apply rootp_addrs).
    assert (Hin_ra : ra ∈ addrs r) by (by apply rootp_addrs).
    set (m := hd ra (addrs r)).
    assert (Hin_m : m ∈ addrs r).
    { unfold m. destruct (addrs r) eqn:E; [by apply addrs_ne in E|]. set_solver. }
    assert (Hm : hd m (addrs r) = m).
    { unfold m. by destruct (addrs r). }
    clearbody m.
    assert (Hne1 : ra ≠ par) by apart.
    assert (Hne2 : a ≠ ra) by apart.
    assert (Hne3 : la ≠ par) by apart.
    assert (Hne4 : a ≠ la) by apart.
    assert (Hne5 : m ≠ par) by apart.
    assert (Hne6 : a ≠ m) by apart.
    assert (Hne7 : la ≠ ra) by apart.
    assert (Hne8 : la ≠ m) by apart.
    unfold BST_Leftmost_from.
    change (Some ra) with (rootp r).
    rewrite (while_left_spec h a r fuel m Hrr) by done. rewrite Hm, bind_Ok. run.
    pose proof Hrr as (Hra & _). pose proof Hrl as (Hla & _).
    rewrite Hisl, (splice_spec h c a _ par pn right_ ra _ Ha eq_refl eq_refl Hpn Hra)
      by congruence.
    rewrite bind_Ok.
    set (h2 := <[ra := _]> (<[par := _]> h)).
    assert (Hr2 : repr h2 par r).
    { eapply (repr_reparent h _ a par); [exact Hrr|done|done| | |done].
      - unfold h2. by lk.
      - intros a' Hin Hne.
        assert (a' ≠ par) by apart.
        unfold h2. by lk. }
    destruct (repr_lookup h2 par r m Hr2 Hin_m) as [nm Hnm].
    assert (Ha2 : h2 !! a = h !! a) by (unfold h2; by lk).
    rewrite <- Ha2 in Ha.
    unfold field. rewrite (load_Some h2 a _ Ha), !bind_Ok.
    cbn [left_ rootp]. rewrite (store_Some h2 m nm _ Hnm), bind_Ok.
    set (h3 := <[m := _]> h2).
    assert (Ha3 : h3 !! a = h2 !! a) by (unfold h3; by lk).
    rewrite <- Ha3 in Ha.
    rewrite (load_Some h3 a _ Ha), !bind_Ok. cbn [left_ rootp].
    assert (Hla3 : h3 !! la = h !! la) by (unfold h3, h2; by lk).
    rewrite <- Hla3 in Hla.
    rewrite (store_Some h3 la _ _ Hla), bind_Ok.
    rewrite Hla3 in Hla.
    cbn [delete_node].
    eexists. split_and!; [reflexivity|by lk|].
    eapply (delete_wf h _ s c l a x r (graft l r) pn); fold par; [done|done|done| | | |].
    + rewrite rootp_graft by done. unfold h3, h2. by lk.
    + intros a' Hin Hne. destruct (Hout a' Hin) as (? & ? & ?).
      assert (a' ≠ la) by apart.
      assert (a' ≠ ra) by apart.
      assert (a' ≠ m) by apart.
      unfold h3, h2. by lk.
    + eapply (graft_repr h2 _ par l la r m nm); [done|done|done|done|done| | | |done].
      * unfold h3. by lk.
      * intros a' Hin Hne.
        assert (a' ≠ a) by apart.
        assert (a' ≠ la) by apart.
        unfold h3. by lk.
      * eapply (repr_reparent h _ a m); [exact Hrl|done|exact Hla| | |done].
        -- by lk.
        -- intros a' Hin Hne.
           assert (a' ≠ a) by apart.
           assert (a' ≠ par) by apart.
           assert (a' ≠ ra) by apart.
           assert (a' ≠ m) by apart.
           unfold h3, h2. by lk.
    + unfold addrs. by rewrite inorder_graft, fmap_app.
Qed.

Lemma inorder_delete_root l r :
  inorder (spec_delete_root l r) = inorder l ++ inorder r.
Proof.
  destruct l as [|ll la lx lr], r as [|rl ra rx rr]; cbn [spec_delete_root].
  - done.
  - done.
  - by rewrite app_nil_r.
  - apply inorder_graft.
Qed.

Lemma elems_delete_root l r :
  elems (spec_delete_root l r) = elems l ++ elems r.
Proof. unfold elems. by rewrite inorder_delete_root, fmap_app. Qed.

Lemma elems_plug c t : elems (plug c t) = (ctx_before c).*2 ++ elems t ++ (ctx_after c).*2.
Proof. unfold elems. by rewrite inorder_plug, !fmap_app. Qed.

(** C10: [erase] called with the [end()] cursor of any traversal, on any
    store and any container, the empty one included, returns that cursor
    and leaves the store, hence the contents, and the size counter as they
    were. *)
Theorem erase_end_is_noop (pick : Pick) (fuel : nat) h b :
  BST_erase pick fuel h b (BST_end pick b) = Ok (h, b, BST_end pick b).
Proof. unfold BST_erase. by rewrite decide_True. Qed.


(** [erase] with an in-order cursor at a data node: the node is deleted,
    the counter decremented, and the cursor of the next in-order position
    returned. *)
Lemma BST_erase_Inorder_spec h b t pre a x suf fuel :
  wf h b t → inorder t = pre ++ (a, x) :: suf → tsize t < fuel →
  ∃ h' t' it,
    BST_erase Inorder fuel h b (Some a)
      = Ok (h', mkBST (root_ b) (size_t_decr (size_ b)), it)
    ∧ it = hd (BST_end Inorder b) (Some <$> suf.*1)
    ∧ wf h' (mkBST (root_ b) (size_t_decr (size_ b))) t'
    ∧ inorder t' = pre ++ suf.
Proof.
  intros (s & Hb & Hwf) Hsplit Hf.
  destruct (step_Inorder h s t pre a x suf fuel Hwf Hsplit Hf) as (Hne & _ & Hadd).
  destruct (focus_split t [] pre a x suf Hsplit) as (c & l & r & Hp & Hs & Hpre).
  simpl in Hp, Hs, Hpre. rewrite app_nil_r in Hs. subst t.
  pose proof (tsize_plug c (Tr l a x r)) as Hsz. simpl in Hsz.
  destruct (BST_DeleteNode_spec h s c l a x r fuel Hwf ltac:(lia))
    as (h' & Hrun & _ & Hwf').
  exists h', (plug c (spec_delete_root l r)), (Some (hd s suf.*1)).
  split_and!.
  - unfold BST_erase, BST_end. rewrite Hb. rewrite decide_False by congruence.
    cbn [Add]. by rewrite Hadd, bind_Ok, Hrun.
  - unfold BST_end. rewrite Hb. by destruct suf.
  - by exists s.
  - rewrite inorder_plug, inorder_delete_root, Hpre, Hs. by rewrite <- !app_assoc.
Qed.

(** ** Lookup and removal by value *)

Lemma BST_find_Inorder_pos h b s t v fuel :
  root_ b = Some s → wf_at h s t → tsize t < fuel →
  BST_find Inorder fuel h b v = Ok (Some (find_first v s (inorder t))).
Proof.
  intros Hb Hwf Hf. unfold BST_find. cbn [BST_begin].
  rewrite (BST_Leftmost_spec h s t b fuel Hwf Hb) by lia. rewrite bind_Ok.
  apply (BST_find_loop_Inorder h s t b v fuel []); [done|done|done|done|].
  rewrite length_inorder. lia.
Qed.

Lemma find_first_absent v s (l : list (nat * T)) :
  v ∉ l.*2 → find_first v s l = s.
Proof.
  induction l as [|[a x] l IH]; simpl; [done|].
  intros Hnot. apply not_elem_of_cons in Hnot as [Hne Hnot].
  rewrite decide_False by done. by apply IH.
Qed.

Lemma find_first_present v s (pre suf : list (nat * T)) a :
  v ∉ pre.*2 → find_first v s (pre ++ (a, v) :: suf) = a.
Proof.
  induction pre as [|[p x] pre IH]; simpl.
  - intros _. by rewrite decide_True.
  - intros Hnot. apply not_elem_of_cons in Hnot as [Hne Hnot].
    rewrite decide_False by done. by apply IH.
Qed.

Lemma wf_at_sentinel_notin h s t : wf_at h s t → s ∉ addrs t.
Proof. intros (_ & _ & Hnd). by apply NoDup_cons in Hnd as [? _]. Qed.

Lemma inorder_addr_ne_sentinel h s t pre a x suf :
  wf_at h s t → inorder t = pre ++ (a, x) :: suf → a ≠ s.
Proof.
  intros Hwf Hsplit ->. apply (wf_at_sentinel_notin h s t Hwf).
  unfold addrs. rewrite Hsplit, fmap_app. set_solver.
Qed.

(** X1: on a well-formed store [find] with the in-order returns [end()]
    exactly when no stored value equals [value]; otherwise it returns the
    node of the first occurrence in in-order, which dereferences to
    [value]. *)
Theorem find_Inorder_first_occurrence_or_end h b t v fuel :
  wf h b t → tsize t < fuel →
  ∃ it, BST_find Inorder fuel h b v = Ok it
    ∧ (it = BST_end Inorder b ↔ v ∉ elems t)
    ∧ (it ≠ BST_end Inorder b →
       deref h it = Ok v
       ∧ ∃ pre a suf, it = Some a ∧ inorder t = pre ++ (a, v) :: suf ∧ v ∉ pre.*2).
Proof.
  intros (s & Hb & Hwf) Hf. exists (Some (find_first v s (inorder t))).
  split; [by apply BST_find_Inorder_pos|]. unfold BST_end. rewrite Hb.
  destruct (find_first_spec v s (inorder t)) as [[E Hnot]|(pre & suf & E & Hnot)].
  - rewrite E. split; [by split|done].
  - destruct (step_Inorder h s t pre _ v suf fuel Hwf E Hf) as (Hne & Hd & _).
    split.
    + split; [congruence|]. intros Hnotin. exfalso. apply Hnotin.
      unfold elems. rewrite E, fmap_app. set_solver.
    + intros _. split; [done|]. by exists pre, (find_first v s (inorder t)), suf.
Qed.

(** X2: [contains(value)] is true exactly when a stored value equals
    [value]. *)
Theorem contains_iff_stored h b t v fuel :
  wf h b t → tsize t < fuel →
  BST_contains fuel h b v = Ok (bool_decide (v ∈ elems t)).
Proof.
  intros (s & Hb & Hwf) Hf. unfold BST_contains.
  rewrite (BST_find_Inorder_pos h b s t v fuel Hb Hwf Hf), bind_Ok.
  unfold BST_end. rewrite Hb. f_equal.
  destruct (find_first_spec v s (inorder t)) as [[E Hnot]|(pre & suf & E & Hnot)].
  - rewrite E. rewrite bool_decide_eq_false_2 by (intros H; by apply H).
    by rewrite bool_decide_eq_false_2.
  - assert (find_first v s (inorder t) ≠ s)
      by (by eapply inorder_addr_ne_sentinel).
    rewrite bool_decide_eq_true_2 by congruence.
    rewrite bool_decide_eq_true_2; [done|].
    unfold elems. rewrite E, fmap_app. set_solver.
Qed.

Lemma size_t_decr_S k :
  (N.of_nat (S k) < size_t_max)%N → size_t_decr (N.of_nat (S k)) = N.of_nat k.
Proof.
  intros H. unfold size_t_decr.
  replace (N.of_nat (S k) + size_t_max - 1)%N with (N.of_nat k + 1 * size_t_max)%N by lia.
  rewrite N.Div0.mod_add. apply N.mod_small. lia.
Qed.

Lemma size_t_incr_S k :
  (N.of_nat (S k) < size_t_max)%N → size_t_incr (N.of_nat k) = N.of_nat (S k).
Proof. intros H. unfold size_t_incr. rewrite N.mod_small; lia. Qed.

(** X3: [erase] with an in-order cursor at a data node removes exactly that
    node from the tree: the other nodes stay in their order, [size()] still
    counts the nodes, and the cursor returned is the one of the next
    in-order position ([end()] after the last). *)
Theorem erase_Inorder_removes_one h b t pre a x suf fuel :
  wf h b t → size_ok b t → (N.of_nat (tsize t) < size_t_max)%N →
  inorder t = pre ++ (a, x) :: suf → tsize t < fuel →
  ∃ h' b' t' it,
    BST_erase Inorder fuel h b (Some a) = Ok (h', b', it)
    ∧ it = hd (BST_end Inorder b) (Some <$> suf.*1)
    ∧ wf h' b' t' ∧ size_ok b' t'
    ∧ inorder t' = pre ++ suf
    ∧ traverse Inorder fuel h' b' = Ok (pre.*2 ++ suf.*2).
Proof.
  intros Hwf Hsz Hmax Hsplit Hf.
  destruct (BST_erase_Inorder_spec h b t pre a x suf fuel Hwf Hsplit Hf)
    as (h' & t' & it & Hrun & Hit & Hwf' & Hin').
  assert (Hts : tsize t = S (tsize t')).
  { rewrite <- !length_inorder, Hsplit, Hin', !length_app. simpl. lia. }
  exists h', (mkBST (root_ b) (size_t_decr (size_ b))), t', it.
  split_and!; [done|done|done| |done|].
  - unfold size_ok in *. simpl. rewrite Hsz, Hts. apply size_t_decr_S.
    by rewrite <- Hts.
  - rewrite (traverse_Inorder h' _ t' fuel Hwf') by lia.
    unfold elems. by rewrite Hin', fmap_app.
Qed.

(** [extract(value)] *)
Lemma deref_sentinel h s t :
  wf_at h s t → ∃ d, deref h (Some s) = Ok d.
Proof. intros ([d Hd] & _). exists d. unfold deref. by run. Qed.

(** X4: [extract(value)] removes the first in-order occurrence of [value]
    and returns it; when no stored value equals [value] it returns the
    value held by the sentinel node and changes nothing. *)
Theorem extract_value_present_or_absent h b t v fuel :
  wf h b t → tsize t < fuel →
  (∀ pre a suf, inorder t = pre ++ (a, v) :: suf → v ∉ pre.*2 →
     ∃ h' b' t',
       BST_extract_value fuel h b v = Ok (h', b', v)
       ∧ wf h' b' t' ∧ inorder t' = pre ++ suf
       ∧ size_ b' = size_t_decr (size_ b))
  ∧ (v ∉ elems t →
     ∃ d, deref h (root_ b) = Ok d
          ∧ BST_extract_value fuel h b v = Ok (h, b, d)).
Proof.
  intros Hwf Hf. pose proof Hwf as (s & Hb & Hwfs). split.
  - intros pre a suf Hsplit Hnot.
    destruct (BST_erase_Inorder_spec h b t pre a v suf fuel Hwf Hsplit Hf)
      as (h' & t' & it & Hrun & _ & Hwf' & Hin').
    destruct (step_Inorder h s t pre a v suf fuel Hwfs Hsplit Hf) as (_ & Hd & _).
    exists h', (mkBST (root_ b) (size_t_decr (size_ b))), t'.
    split_and!; [|done|done|done].
    unfold BST_extract_value, BST_extract.
    rewrite (BST_find_Inorder_pos h b s t v fuel Hb Hwfs Hf), bind_Ok.
    rewrite Hsplit, find_first_present by done.
    by rewrite Hd, bind_Ok, Hrun.
  - intros Hnot. destruct (deref_sentinel h s t Hwfs) as [d Hd].
    exists d. rewrite Hb. split; [done|].
    unfold BST_extract_value, BST_extract.
    rewrite (BST_find_Inorder_pos h b s t v fuel Hb Hwfs Hf), bind_Ok.
    rewrite find_first_absent by done. rewrite Hd, bind_Ok.
    unfold BST_erase, BST_end. rewrite Hb. by rewrite decide_True.
Qed.

(** ** Removing a range and all occurrences of a value *)

Lemma inorder_later_ne h s t pre a x mid suf :
  wf_at h s t → inorder t = pre ++ (a, x) :: mid ++ suf →
  Some a ≠ Some (hd s suf.*1).
Proof.
  intros Hwf Hsplit [= Heq].
  pose proof Hwf as (_ & _ & Hnd). apply NoDup_cons in Hnd as [Hs Hnd].
  unfold addrs in Hs, Hnd. rewrite Hsplit in Hs, Hnd.
  rewrite fmap_app, fmap_cons, fmap_app in Hs, Hnd. simpl in Hs, Hnd.
  destruct suf as [|[q y] suf]; simpl in Heq.
  - subst a. apply Hs. set_solver.
  - subst q. apply NoDup_app in Hnd as (_ & _ & Hnd).
    apply NoDup_cons in Hnd as [Hnot _]. apply Hnot. simpl. set_solver.
Qed.

Lemma BST_erase_range_spec h b s t pre mid suf fuel0 fuel :
  root_ b = Some s → wf_at h s t →
  inorder t = pre ++ mid ++ suf → tsize t < fuel0 → length mid < fuel →
  ∃ h' b' t',
    BST_erase_range Inorder fuel0 fuel h b
      (Some (hd s (mid ++ suf).*1)) (Some (hd s suf.*1)) = Ok (h', b')
    ∧ root_ b' = Some s ∧ wf_at h' s t' ∧ inorder t' = pre ++ suf
    ∧ (size_ok b t → (N.of_nat (tsize t) < size_t_max)%N → size_ok b' t').
Proof.
  revert h b t fuel. induction mid as [|[a x] mid IH]; intros h b t fuel Hb Hwf Hsplit Hf0 Hf.
  - destruct fuel as [|fuel]; [simpl in Hf; lia|]. simpl.
    rewrite decide_True by done. by exists h, b, t.
  - destruct fuel as [|fuel]; [simpl in Hf; lia|].
    simpl in Hsplit.
    destruct (step_Inorder h s t pre a x (mid ++ suf) fuel0 Hwf Hsplit Hf0) as (_ & _ & Hadd).
    destruct (BST_erase_Inorder_spec h b t pre a x (mid ++ suf) fuel0
                (ex_intro _ s (conj Hb Hwf)) Hsplit Hf0)
      as (h1 & t1 & it & Hrun & _ & (s1 & Hb1 & Hwf1) & Hin1).
    simpl in Hb1. rewrite Hb in Hb1. injection Hb1 as <-.
    assert (Hts : tsize t = S (tsize t1)).
    { rewrite <- !length_inorder, Hsplit, Hin1, !length_app. simpl.
      rewrite !length_app. lia. }
    destruct (IH h1 (mkBST (root_ b) (size_t_decr (size_ b))) t1 fuel)
      as (h' & b' & t' & Hrun' & Hb' & Hwf' & Hin' & Hsz'); [done|done|done|lia|simpl in Hf; lia|].
    exists h', b', t'. split_and!; [|done|done|done|].
    + cbn [BST_erase_range app fmap list_fmap hd fst].
      rewrite decide_False by exact (inorder_later_ne h s t pre a x mid suf Hwf Hsplit).
      cbn [Add]. rewrite Hadd, bind_Ok, Hrun, bind_Ok. exact Hrun'.
    + intros Hsz Hmax. apply Hsz'; [|lia].
      unfold size_ok in *. simpl. rewrite Hsz, Hts. apply size_t_decr_S.
      by rewrite <- Hts.
Qed.

(** X5: [erase(first, last)] with in-order cursors removes exactly the
    nodes from [first] up to, not including, [last]; the values before and
    after keep their order and [size()] still counts the nodes.  With
    [begin()] and [end()] it empties the container. *)
Theorem erase_range_Inorder_removes_segment h b t pre mid suf fuel :
  wf h b t → size_ok b t → (N.of_nat (tsize t) < size_t_max)%N →
  inorder t = pre ++ mid ++ suf → tsize t < fuel →
  ∃ h' b' t',
    BST_erase_range Inorder fuel fuel h b
      (hd (BST_end Inorder b) (Some <$> (mid ++ suf).*1))
      (hd (BST_end Inorder b) (Some <$> suf.*1)) = Ok (h', b')
    ∧ wf h' b' t' ∧ size_ok b' t'
    ∧ inorder t' = pre ++ suf
    ∧ traverse Inorder fuel h' b' = Ok (pre.*2 ++ suf.*2)
    ∧ (pre = [] → suf = [] → BST_empty h' b' = Ok true).
Proof.
  intros (s & Hb & Hwf) Hsz Hmax Hsplit Hf.
  assert (Hlen : length mid < fuel).
  { rewrite <- length_inorder, Hsplit, !length_app in Hf. lia. }
  destruct (BST_erase_range_spec h b s t pre mid suf fuel fuel Hb Hwf Hsplit Hf Hlen)
    as (h' & b' & t' & Hrun & Hb' & Hwf' & Hin' & Hsz').
  assert (Hts : tsize t' ≤ tsize t).
  { rewrite <- !length_inorder, Hsplit, Hin', !length_app. lia. }
  exists h', b', t'. unfold BST_end. rewrite Hb. split_and!.
  - replace (hd (Some s) (Some <$> (mid ++ suf).*1)) with (Some (hd s (mid ++ suf).*1))
      by (by destruct (mid ++ suf)).
    replace (hd (Some s) (Some <$> suf.*1)) with (Some (hd s suf.*1)) by (by destruct suf).
    done.
  - by exists s.
  - by apply Hsz'.
  - done.
  - rewrite (traverse_Inorder h' b' t' fuel) by (by exists s || lia).
    unfold elems. by rewrite Hin', fmap_app.
  - intros -> ->. simpl in Hin'. destruct t' as [|l a x r].
    + destruct Hwf' as ([d Hd] & _). unfold BST_empty. rewrite Hb'. by run.
    + simpl in Hin'. by destruct (inorder l).
Qed.



Lemma occurrences_absent v (vs : list T) : v ∉ vs → occurrences v vs = 0.
Proof.
  unfold occurrences. induction vs as [|y vs IH]; simpl; [done|].
  intros Hnot. apply not_elem_of_cons in Hnot as [Hne Hnot].
  rewrite filter_cons_False by congruence. by apply IH.
Qed.

Lemma occurrences_app v (l1 l2 : list T) :
  occurrences v (l1 ++ l2) = occurrences v l1 + occurrences v l2.
Proof. unfold occurrences. by rewrite filter_app, length_app. Qed.

Lemma occurrences_cons_eq v (vs : list T) : occurrences v (v :: vs) = S (occurrences v vs).
Proof. unfold occurrences. by rewrite filter_cons_True. Qed.

Lemma occurrences_le v (vs : list T) : occurrences v vs ≤ length vs.
Proof. unfold occurrences. apply length_filter. Qed.





Lemma iter_size_t_incr k :
  (N.of_nat k < size_t_max)%N → Nat.iter k size_t_incr 0%N = N.of_nat k.
Proof.
  induction k as [|k IH]; [done|]. intros H. simpl. rewrite IH by lia.
  by apply size_t_incr_S.
Qed.


(** ** [rfind] and the bounds *)

Lemma hd_Some s (l : list nat) : hd (Some s) (Some <$> l) = Some (hd s l).
Proof. by destruct l. Qed.

Lemma BST_rfind_loop_Inorder h b s t v pre run rest fuel0 fuel :
  root_ b = Some s → wf_at h s t →
  inorder t = pre ++ run ++ rest →
  Forall (λ p, p.2 = v) run →
  match rest with [] => True | p :: _ => p.2 ≠ v end →
  tsize t < fuel0 → length run < fuel →
  BST_rfind_loop Inorder fuel0 h b v fuel (Some (hd s (run ++ rest).*1))
  = Ok (Some (hd s rest.*1)).
Proof.
  intros Hb Hwf. revert pre fuel.
  induction run as [|[a x] run IH]; intros pre fuel Hsplit Hall Hrest Hf0 Hf.
  - destruct fuel as [|fuel]; [simpl in Hf; lia|]. simpl in *.
    destruct rest as [|[q y] rest]; simpl.
    + unfold BST_end. rewrite Hb. by rewrite decide_True.
    + destruct (step_Inorder h s t pre q y rest fuel0 Hwf Hsplit Hf0) as (Hne & Hd & _).
      unfold BST_end. rewrite Hb. rewrite decide_False by congruence.
      rewrite Hd, bind_Ok. simpl in Hrest. by rewrite decide_False.
  - destruct fuel as [|fuel]; [simpl in Hf; lia|].
    apply Forall_cons in Hall as [Hx Hall]. simpl in Hx. subst x.
    simpl in Hsplit.
    destruct (step_Inorder h s t pre a v (run ++ rest) fuel0 Hwf Hsplit Hf0)
      as (Hne & Hd & Hadd).
    cbn [BST_rfind_loop app fmap list_fmap hd fst].
    rewrite decide_False by (unfold BST_end; rewrite Hb; congruence).
    rewrite Hd, bind_Ok. rewrite decide_True by done.
    cbn [Add]. rewrite Hadd, bind_Ok.
    apply (IH (pre ++ [(a, v)])); [|done|done|done|simpl in Hf; lia].
    by rewrite <- app_assoc.
Qed.

(** The node before a position that is not the first. *)
Lemma Subtract_Inorder_prev h s t pre a x q y suf fuel :
  wf_at h s t → inorder t = pre ++ (a, x) :: (q, y) :: suf → tsize t < fuel →
  Subtract_Inorder fuel h (Some q) = Ok (Some a).
Proof.
  intros Hwf Hsplit Hf.
  pose proof (Inorder_forward_backward h s t pre a x _ fuel Hwf Hsplit Hf) as Hrt.
  destruct (step_Inorder h s t pre a x _ fuel Hwf Hsplit Hf) as (_ & _ & Hadd).
  by rewrite Hadd, bind_Ok in Hrt.
Qed.

(** X7: when no stored value equals [value], [lower_bound], [upper_bound]
    and [rfind] with the in-order all return [end()], whatever larger
    values are stored. *)
Theorem bounds_of_absent_value_are_end h b t v fuel :
  wf h b t → tsize t < fuel → v ∉ elems t →
  BST_lower_bound Inorder fuel h b v = Ok (BST_end Inorder b)
  ∧ BST_rfind Inorder fuel h b v = Ok (BST_end Inorder b)
  ∧ BST_upper_bound Inorder fuel h b v = Ok (BST_end Inorder b)
  ∧ BST_equal_range Inorder fuel h b v = Ok (BST_end Inorder b, BST_end Inorder b).
Proof.
  intros (s & Hb & Hwf) Hf Hnot.
  assert (Hfind : BST_find Inorder fuel h b v = Ok (BST_end Inorder b)).
  { rewrite (BST_find_Inorder_pos h b s t v fuel Hb Hwf Hf).
    rewrite find_first_absent by done. unfold BST_end. by rewrite Hb. }
  assert (Hrfind : BST_rfind Inorder fuel h b v = Ok (BST_end Inorder b)).
  { unfold BST_rfind. rewrite Hfind, bind_Ok.
    destruct fuel as [|fuel]; [lia|]. cbn [BST_rfind_loop].
    rewrite decide_True by done. rewrite bind_Ok. by rewrite decide_True. }
  assert (Hup : BST_upper_bound Inorder fuel h b v = Ok (BST_end Inorder b)).
  { unfold BST_upper_bound. rewrite Hrfind, bind_Ok. by rewrite decide_True. }
  split_and!; [done|done|done|].
  unfold BST_equal_range, BST_lower_bound. by rewrite Hfind, bind_Ok, Hup.
Qed.

(** X8: when the in-order sequence is [pre ++ run ++ rest] with [run] the
    first block of values equal to [value], [equal_range] returns the
    cursor of the first node of [run] and the cursor of the first node of
    [rest] ([end()] when [rest] is empty), so the range covers exactly
    [run]; [rfind] returns the last node of [run], except that it returns
    [end()] when [rest] is empty, that is when [run] closes the
    sequence. *)
Theorem equal_range_Inorder_delimits_run h b t v pre run rest fuel :
  wf h b t → tsize t < fuel →
  inorder t = pre ++ run ++ rest →
  v ∉ pre.*2 → run ≠ [] → Forall (λ p, p.2 = v) run →
  match rest with [] => True | p :: _ => p.2 ≠ v end →
  BST_equal_range Inorder fuel h b v
  = Ok (hd (BST_end Inorder b) (Some <$> run.*1),
        hd (BST_end Inorder b) (Some <$> rest.*1))
  ∧ BST_rfind Inorder fuel h b v
    = Ok (match rest with
          | [] => BST_end Inorder b
          | _ => default (BST_end Inorder b) (last (Some <$> run.*1))
          end).
Proof.
  intros (s & Hb & Hwf) Hf Hsplit Hnot Hne Hall Hrest.
  unfold BST_end. rewrite Hb. rewrite !hd_Some.
  assert (Hlen : length run < fuel).
  { rewrite <- length_inorder, Hsplit, !length_app in Hf. lia. }
  assert (Hfind : BST_find Inorder fuel h b v = Ok (Some (hd s run.*1))).
  { rewrite (BST_find_Inorder_pos h b s t v fuel Hb Hwf Hf), Hsplit.
    destruct run as [|[a x] run]; [done|].
    apply Forall_cons in Hall as [Hx _]. simpl in Hx. subst x.
    simpl. by rewrite (find_first_present v s pre (run ++ rest) a). }
  assert (Hloop : BST_rfind_loop Inorder fuel h b v fuel (Some (hd s run.*1))
                  = Ok (Some (hd s rest.*1))).
  { rewrite <- (BST_rfind_loop_Inorder h b s t v pre run rest fuel fuel) by done.
    f_equal. f_equal. rewrite fmap_app. by rewrite hd_app_ne by (by destruct run). }
  assert (Hrfind : BST_rfind Inorder fuel h b v
                   = Ok (match rest with
                         | [] => Some s
                         | _ => default (Some s) (last (Some <$> run.*1))
                         end)).
  { unfold BST_rfind. rewrite Hfind, bind_Ok, Hloop, bind_Ok.
    unfold BST_end. rewrite Hb.
    destruct rest as [|[q y] rest].
    - simpl. by rewrite decide_True.
    - simpl. destruct (exists_last Hne) as (run0 & [z vz] & ->).
      apply Forall_app in Hall as [_ Hz]. apply Forall_cons in Hz as [Hz _]. simpl in Hz. subst vz.
      assert (Hsplit' : inorder t = (pre ++ run0) ++ (z, v) :: (q, y) :: rest).
      { rewrite Hsplit. by rewrite <- !app_assoc. }
      assert (Hq : q ≠ s).
      { apply (inorder_addr_ne_sentinel h s t ((pre ++ run0) ++ [(z, v)]) q y rest Hwf).
        rewrite Hsplit'. by rewrite <- (app_assoc _ [(z, v)]). }
      rewrite decide_False by congruence.
      cbn [Subtract].
      rewrite (Subtract_Inorder_prev h s t _ z v q y rest fuel Hwf Hsplit' Hf).
      rewrite !fmap_app. simpl. by rewrite last_snoc. }
  split; [|done].
  unfold BST_equal_range, BST_lower_bound, BST_upper_bound.
  rewrite Hfind, bind_Ok, Hrfind, bind_Ok. unfold BST_end. rewrite Hb.
  destruct rest as [|[q y] rest].
  - simpl. by rewrite decide_True.
  - destruct (exists_last Hne) as (run0 & [z vz] & ->).
    apply Forall_app in Hall as [_ Hz]. apply Forall_cons in Hz as [Hz _]. simpl in Hz. subst vz.
    assert (Hsplit' : inorder t = (pre ++ run0) ++ (z, v) :: (q, y) :: rest).
    { rewrite Hsplit. by rewrite <- !app_assoc. }
    destruct (step_Inorder h s t _ z v _ fuel Hwf Hsplit' Hf) as (Hz & _ & Hadd).
    rewrite !fmap_app. simpl. rewrite last_snoc. simpl.
    rewrite decide_False by congruence. cbn [Add]. by rewrite Hadd.
Qed.

(** ** Comparing two containers *)

Lemma BST_eq_loop_spec h b s so ta tb prea sufa preb sufb fuel0 fuel :
  root_ b = Some s → wf_at h s ta → wf_at h so tb →
  inorder ta = prea ++ sufa → inorder tb = preb ++ sufb →
  length sufa = length sufb →
  tsize ta < fuel0 → tsize tb < fuel0 → length sufa < fuel →
  BST_eq_loop fuel0 h b fuel (Some (hd s sufa.*1)) (Some (hd so sufb.*1))
  = Ok (bool_decide (sufa.*2 = sufb.*2)).
Proof.
  intros Hb Hwa Hwb. revert sufb prea preb fuel.
  induction sufa as [|[a x] sufa IH]; intros [|[c y] sufb] prea preb fuel Ha Hbb Hlen Hfa Hfb Hf;
    try (simpl in Hlen; lia).
  - destruct fuel as [|fuel]; [simpl in Hf; lia|]. simpl.
    unfold BST_end. rewrite Hb. by rewrite decide_True.
  - destruct fuel as [|fuel]; [simpl in Hf; lia|].
    destruct (step_Inorder h s ta prea a x sufa fuel0 Hwa Ha Hfa) as (Hne & Hda & Hadda).
    destruct (step_Inorder h so tb preb c y sufb fuel0 Hwb Hbb Hfb) as (_ & Hdb & Haddb).
    cbn [BST_eq_loop fmap list_fmap hd fst snd].
    rewrite decide_False by (unfold BST_end; rewrite Hb; congruence).
    rewrite Hda, bind_Ok, Hdb, bind_Ok.
    destruct (decide (x = y)) as [->|Hxy].
    + cbn [Add]. rewrite Haddb, bind_Ok, Hadda, bind_Ok.
      rewrite (IH sufb (prea ++ [(a, y)]) (preb ++ [(c, y)]) fuel);
        [|by rewrite <- app_assoc|by rewrite <- app_assoc|simpl in Hlen; lia|done|done
         |simpl in Hf; lia].
      f_equal. apply bool_decide_ext. split; [by intros ->|by intros [= ->]].
    + f_equal. symmetry. apply bool_decide_eq_false_2. by intros [= ? ?].
Qed.

(** X9: when both size counters count the nodes, [operator==] is true
    exactly when the two in-order value sequences are the same. *)
Theorem operator_eq_compares_inorder_sequences h b other ta tb fuel :
  wf h b ta → wf h other tb → size_ok b ta → size_ok other tb →
  tsize ta < fuel → tsize tb < fuel →
  BST_eq fuel h b other = Ok (bool_decide (elems ta = elems tb)).
Proof.
  intros (s & Hb & Hwa) (so & Ho & Hwb) Hsa Hsb Hfa Hfb. unfold BST_eq.
  unfold size_ok in *. rewrite Hsa, Hsb.
  destruct (decide (N.of_nat (tsize ta) = N.of_nat (tsize tb))) as [Heq|Hne].
  - apply Nat2N.inj in Heq. cbn [BST_begin].
    rewrite (BST_Leftmost_spec h so tb other fuel Hwb Ho) by lia. rewrite bind_Ok.
    rewrite (BST_Leftmost_spec h s ta b fuel Hwa Hb) by lia. rewrite bind_Ok.
    apply (BST_eq_loop_spec h b s so ta tb [] _ [] _ fuel fuel); try done.
    + by rewrite !length_inorder.
    + rewrite length_inorder. lia.
  - f_equal. symmetry. apply bool_decide_eq_false_2. intros Heq. apply Hne. f_equal.
    apply (f_equal length) in Heq. unfold elems in Heq.
    by rewrite !length_fmap, !length_inorder in Heq.
Qed.

(** ** Walking backwards *)

Lemma BST_rend_Inorder h b s t fuel :
  root_ b = Some s → wf_at h s t →
  match t with Leaf => True | Tr l _ _ _ => l ≠ Leaf end →
  tsize t < fuel →
  BST_rend Inorder fuel h b = Ok (Some s).
Proof.
  intros Hb Hwf Hshape Hf. unfold BST_rend, ReverseIterator_incr. cbn [BST_begin Subtract].
  rewrite (BST_Leftmost_spec h s t b fuel Hwf Hb) by lia. rewrite bind_Ok.
  destruct t as [|l a x r].
  - by apply Subtract_Inorder_empty.
  - apply Subtract_Inorder_begin; [done|done|lia].
Qed.

Lemma rtraverse_loop_Inorder h b s t pre suf fuel0 fuel :
  root_ b = Some s → wf_at h s t →
  match t with Leaf => True | Tr l _ _ _ => l ≠ Leaf end →
  inorder t = pre ++ suf → tsize t < fuel0 → length pre < fuel →
  rtraverse_loop Inorder fuel0 h b fuel (Some (default s (last pre.*1)))
  = Ok (reverse pre.*2).
Proof.
  intros Hb Hwf Hshape. revert suf fuel.
  induction pre as [|[a x] pre IH] using rev_ind; intros suf fuel Hsplit Hf0 Hf.
  - destruct fuel as [|fuel]; [simpl in Hf; lia|]. cbn [rtraverse_loop].
    rewrite (BST_rend_Inorder h b s t fuel0 Hb Hwf Hshape Hf0), bind_Ok.
    simpl. by rewrite decide_True.
  - destruct fuel as [|fuel]; [rewrite length_app in Hf; simpl in Hf; lia|].
    rewrite <- app_assoc in Hsplit. simpl in Hsplit.
    destruct (step_Inorder h s t pre a x suf fuel0 Hwf Hsplit Hf0) as (Hne & Hd & _).
    cbn [rtraverse_loop].
    rewrite (BST_rend_Inorder h b s t fuel0 Hb Hwf Hshape Hf0), bind_Ok.
    rewrite !fmap_app. simpl. rewrite last_snoc. simpl.
    rewrite decide_False by congruence. rewrite Hd, bind_Ok.
    unfold ReverseIterator_incr. cbn [Subtract].
    assert (Hsub : Subtract_Inorder fuel0 h (Some a) = Ok (Some (default s (last pre.*1)))).
    { destruct pre as [|[z w] pre0 _] using rev_ind.
      - simpl. simpl in Hsplit. destruct t as [|l a' x' r]; [done|].
        pose proof (Subtract_Inorder_begin h s l a' x' r fuel0 Hwf Hshape ltac:(lia)) as Hs.
        unfold addrs in Hs. by rewrite Hsplit in Hs.
      - rewrite fmap_app. simpl. rewrite last_snoc. simpl.
        rewrite <- app_assoc in Hsplit. simpl in Hsplit.
        by apply (Subtract_Inorder_prev h s t pre0 z w a x suf). }
    rewrite Hsub, bind_Ok.
    rewrite (IH ((a, x) :: suf) fuel); [|done|done|rewrite length_app in Hf; simpl in Hf; lia].
    by rewrite reverse_snoc.
Qed.

(** X10: on the empty container and on every container whose data root has
    a left child, the reverse in-order loop from [rbegin()] to [rend()]
    yields the stored values in the reverse of their in-order sequence. *)
Theorem reverse_Inorder_loop_yields_reversed_values h b t fuel :
  wf h b t →
  match t with Leaf => True | Tr l _ _ _ => l ≠ Leaf end →
  tsize t < fuel →
  rtraverse Inorder fuel h b = Ok (reverse (elems t)).
Proof.
  intros (s & Hb & Hwf) Hshape Hf. unfold rtraverse, BST_rbegin, ReverseIterator_incr.
  unfold BST_end. rewrite Hb. cbn [Subtract].
  assert (Hlast : Subtract_Inorder fuel h (Some s)
                  = Ok (Some (default s (last (inorder t).*1)))).
  { destruct t as [|l a x r].
    - by apply Subtract_Inorder_empty.
    - by apply (Subtract_Inorder_end h s _ fuel Hwf); [|lia]. }
  rewrite Hlast, bind_Ok.
  apply (rtraverse_loop_Inorder h b s t (inorder t) [] fuel fuel); try done.
  - by rewrite app_nil_r.
  - rewrite length_inorder. lia.
Qed.

(** X11: on a container whose data root has no left child (a single
    element, or values inserted in ascending order) [rend(Inorder)] steps
    back from the data root, reaches the sentinel inside the loop of
    [Subtract] and reads through the sentinel's null parent, so the reverse
    loop has undefined behaviour. *)
Theorem rend_Inorder_null_dereference h b a x r fuel :
  wf h b (Tr Leaf a x r) → tsize (Tr Leaf a x r) ≤ fuel →
  BST_begin Inorder fuel h b = Ok (Some a)
  ∧ BST_rend Inorder fuel h b = UB
  ∧ rtraverse Inorder fuel h b = UB.
Proof.
  intros (s & Hb & Hwf) Hf.
  assert (Hbegin : BST_begin Inorder fuel h b = Ok (Some a)).
  { cbn [BST_begin]. rewrite (BST_Leftmost_spec h s _ b fuel Hwf Hb) by done.
    by rewrite addrs_Tr. }
  assert (Hrend : BST_rend Inorder fuel h b = UB).
  { unfold BST_rend, ReverseIterator_incr. rewrite Hbegin, bind_Ok. cbn [Subtract].
    destruct fuel as [|fuel]; [simpl in Hf; lia|].
    by apply (Subtract_Inorder_root_UB h s a x r). }
  split_and!; [done|done|].
  unfold rtraverse, BST_rbegin, ReverseIterator_incr, BST_end. rewrite Hb. cbn [Subtract].
  rewrite (Subtract_Inorder_end h s _ fuel Hwf) by done. rewrite bind_Ok.
  destruct fuel as [|fuel]; [simpl in Hf; lia|]. cbn [rtraverse_loop].
  by rewrite Hrend.
Qed.

(** ** The pre-order and the post-order loop *)

Lemma hd_irrel {A} (d d' : A) (l : list A) : l ≠ [] → hd d l = hd d' l.
Proof. by destruct l. Qed.

Lemma focus_NoDup s f c t :
  NoDup (s :: addrs (fill f t) ++ ctx_addrs c) →
  NoDup (s :: addrs t ++ ctx_addrs (f :: c)).
Proof.
  intros Hnd. eapply NoDup_Permutation_proper; [|exact Hnd].
  apply perm_skip. symmetry. apply focus_perm.
Qed.

Lemma focus_root_ne_sentinel s t c a :
  rootp t = Some a → NoDup (s :: addrs t ++ ctx_addrs c) → a ≠ s.
Proof.
  intros Hroot Hnd ->. apply NoDup_cons in Hnd as [Hnot _]. apply Hnot.
  apply elem_of_app. left. by apply rootp_addrs.
Qed.

Lemma Add_Preorder_loop_S fuel h it :
  Add_Preorder_loop (S fuel) h it =
  (n ← load h it;
   if parent_ n is Some _ then
     pn ← load h (parent_ n);
     if bool_decide (it = right_ pn) || bool_decide (right_ pn = None)
     then Add_Preorder_loop fuel h (parent_ n)
     else Ok it
   else Ok it).
Proof. done. Qed.

(** The climbing loop of [Add(Preorder)] followed by the two statements
    after it reaches the root of the nearest right sibling above. *)
Lemma Add_Preorder_loop_spec h s c t a fuel :
  rootp t = Some a →
  repr h (ctx_parent s c) t →
  repr_ctx h s c (Some a) →
  NoDup (s :: addrs t ++ ctx_addrs c) →
  S (length c) < fuel →
  ∃ a1, Add_Preorder_loop fuel h (Some a) = Ok (Some a1)
        ∧ (n1 ← load h (Some a1);
           let it2 := if parent_ n1 is Some _ then parent_ n1 else Some a1 in
           n2 ← load h it2;
           Ok (if right_ n2 is Some _ then right_ n2 else it2))
          = Ok (Some (next_pre s c)).
Proof.
  revert t a fuel. induction c as [|f c IH]; intros t a fuel Hroot Ht Hc Hnd Hf.
  - destruct fuel as [|[|fuel]]; [simpl in Hf; lia..|].
    destruct t as [|l p x r]; [done|]. injection Hroot as ->.
    destruct Ht as (Ha & _ & _). destruct Hc as [d Hd].
    rewrite Add_Preorder_loop_S. run.
    rewrite bool_decide_eq_false_2 by done. rewrite bool_decide_eq_true_2 by done.
    cbn [orb]. rewrite Add_Preorder_loop_S. run.
    exists s. split; [done|]. by run.
  - destruct fuel as [|fuel]; [simpl in Hf; lia|].
    destruct t as [|l p x r]; [done|]. injection Hroot as ->.
    pose proof Ht as (Ha & _ & _).
    assert (Hin : a ∈ addrs (Tr l a x r)) by (by apply rootp_addrs).
    rewrite Add_Preorder_loop_S.
    destruct f as [q y r'|l' q y].
    + destruct Hc as (Hq & Hr' & Hc). run.
      destruct r' as [|rl ra rx rr].
      * cbn [rootp]. rewrite bool_decide_eq_false_2 by done.
        rewrite bool_decide_eq_true_2 by done. cbn [orb next_pre].
        apply (IH (Tr (Tr l a x r) q y Leaf) q); [done| |done| |simpl in *; lia].
        -- exact (conj Hq (conj Ht I)).
        -- eapply NoDup_Permutation_proper; [|exact Hnd]. apply perm_skip.
           apply (focus_perm (FL q y Leaf)).
      * cbn [rootp next_pre].
        assert (Hne : a ≠ ra).
        { intros ->. apply NoDup_cons in Hnd as [_ Hnd].
          apply NoDup_app in Hnd as (_ & Hdisj & _). apply (Hdisj ra Hin).
          simpl. rewrite addrs_Tr. set_solver. }
        rewrite !bool_decide_eq_false_2 by congruence. cbn [orb].
        exists a. split; [done|]. by run.
    + destruct Hc as (Hq & Hl' & Hc). run.
      rewrite bool_decide_eq_true_2 by done. cbn [orb next_pre].
      apply (IH (Tr l' q y (Tr l a x r)) q); [done| |done| |simpl in *; lia].
      * exact (conj Hq (conj Hl' Ht)).
      * eapply NoDup_Permutation_proper; [|exact Hnd]. apply perm_skip.
        apply (focus_perm (FR l' q y)).
Qed.

(** [++] with the pre-order: the left child when there is one; from a node
    without a left child it climbs, whatever its right subtree holds. *)
Lemma Add_Preorder_focus h s c l a x r fuel :
  repr h (ctx_parent s c) (Tr l a x r) →
  repr_ctx h s c (Some a) →
  NoDup (s :: addrs (Tr l a x r) ++ ctx_addrs c) →
  S (length c) < fuel →
  Add_Preorder fuel h (Some a)
  = Ok (Some (match l with Leaf => next_pre s c | Tr _ la _ _ => la end)).
Proof.
  intros Ht Hc Hnd Hf. pose proof Ht as (Ha & _ & _).
  unfold Add_Preorder. run. destruct l as [|ll la lx lr]; [|done].
  cbn [rootp].
  destruct (Add_Preorder_loop_spec h s c (Tr Leaf a x r) a fuel eq_refl Ht Hc Hnd Hf)
    as (a1 & -> & Hpost).
  by rewrite bind_Ok.
Qed.

Lemma traverse_loop_Preorder h s b c t fuel0 k rest :
  root_ b = Some s → t ≠ Leaf →
  repr h (ctx_parent s c) t → repr_ctx h s c (rootp t) →
  NoDup (s :: addrs t ++ ctx_addrs c) →
  tsize (plug c t) < fuel0 →
  traverse_loop Preorder fuel0 h b k (Some (next_pre s c)) = Ok rest →
  traverse_loop Preorder fuel0 h b (length (pre_visited t) + k) (rootp t)
  = Ok ((pre_visited t).*2 ++ rest).
Proof.
  intros Hb. revert c k rest.
  induction t as [|l IHl a x r IHr]; intros c k rest Hne Ht Hc Hnd Hf Hrest; [done|].
  pose proof Ht as (Ha & Hl & Hr).
  assert (Has : a ≠ s) by (by eapply (focus_root_ne_sentinel s (Tr l a x r) c)).
  pose proof (tsize_plug c (Tr l a x r)) as Hsz. simpl in Hsz.
  pose proof (Add_Preorder_focus h s c l a x r fuel0 Ht Hc Hnd ltac:(lia)) as Hadd.
  cbn [pre_visited length rootp]. rewrite fmap_cons. cbn [snd].
  change (S ?n + k) with (S (n + k)). cbn [traverse_loop].
  unfold BST_end. rewrite Hb. rewrite decide_False by congruence.
  unfold deref. run. cbn [Add]. rewrite Hadd, bind_Ok.
  destruct l as [|ll la lx lr].
  - simpl. by rewrite Hrest.
  - set (L := Tr ll la lx lr) in *.
    assert (HL : traverse_loop Preorder fuel0 h b
                   (length (pre_visited L) + (length (pre_visited r) + k)) (rootp L)
                 = Ok ((pre_visited L).*2 ++ (pre_visited r).*2 ++ rest)).
    { apply (IHl (FL a x r :: c)); [done|done| |by apply (focus_NoDup s (FL a x r))|done|].
      - exact (conj Ha (conj Hr Hc)).
      - destruct r as [|rl ra rx rr]; [exact Hrest|].
        set (R := Tr rl ra rx rr) in *.
        apply (IHr (FR L a x :: c)); [done|done| |by apply (focus_NoDup s (FR L a x))|done|done].
        exact (conj Ha (conj Hl Hc)). }
    rewrite length_app, <- Nat.add_assoc. change (Some la) with (rootp L).
    rewrite HL, bind_Ok. rewrite fmap_app. simpl. by rewrite <- app_assoc.
Qed.

Lemma pre_visited_length t : length (pre_visited t) ≤ tsize t.
Proof.
  induction t as [|l IHl a x r IHr]; simpl; [done|].
  destruct l; simpl in *; [lia|]. rewrite length_app. lia.
Qed.

Lemma length_preorder t : length (preorder t) = tsize t.
Proof.
  induction t as [|l IHl a x r IHr]; simpl; [done|]. rewrite length_app. lia.
Qed.

Lemma pre_visited_full t : left_full t → pre_visited t = preorder t.
Proof.
  induction t as [|l IHl a x r IHr]; simpl; [done|].
  intros (Hlr & Fl & Fr). destruct l as [|ll la lx lr].
  - by rewrite (Hlr eq_refl).
  - by rewrite IHl, IHr.
Qed.

Lemma pre_visited_short t : length (pre_visited t) = tsize t → left_full t.
Proof.
  intros Heq. induction t as [|l IHl a x r IHr]; simpl; [done|].
  pose proof (pre_visited_length l). pose proof (pre_visited_length r).
  simpl in Heq. destruct l as [|ll la lx lr].
  - simpl in Heq. destruct r; [done|simpl in Heq; lia].
  - rewrite length_app in Heq. split_and!; [done|apply IHl; lia|apply IHr; lia].
Qed.

(** X23: on a container that is not empty the pre-order loop from
    [begin()] to [end()] yields the values in pre-order, except that it
    leaves out the right subtree of every node that has no left child; it
    yields all values exactly when every node with a right child has a left
    child.  On the empty container the loop dereferences the null cursor
    that [begin()] returns. *)
Theorem preorder_loop_skips_right_of_leftless h b t fuel :
  wf h b t → tsize t < fuel →
  traverse Preorder fuel h b
  = match t with Leaf => UB | _ => Ok (pre_visited t).*2 end
  ∧ (left_full t ↔ (pre_visited t).*2 = (preorder t).*2).
Proof.
  intros (s & Hb & Hwf) Hf. split.
  2:{ split; [intros Hfull; by rewrite pre_visited_full|].
      intros Heq. apply (f_equal length) in Heq.
      rewrite !length_fmap, length_preorder in Heq. by apply pre_visited_short. }
  pose proof Hwf as ([d Hd] & Ht & Hnd).
  unfold traverse. cbn [BST_begin]. rewrite Hb. run.
  destruct t as [|l a x r].
  - destruct fuel as [|fuel]; [lia|]. cbn [traverse_loop rootp].
    unfold BST_end. rewrite Hb. by rewrite decide_False.
  - set (t := Tr l a x r) in *.
    pose proof (pre_visited_length t) as Hlen.
    replace fuel with (length (pre_visited t) + (fuel - length (pre_visited t))) at 2 by lia.
    rewrite <- (app_nil_r (pre_visited t).*2).
    change (Some a) with (rootp t).
    apply (traverse_loop_Preorder h s b [] t); [done|done|done|by exists d| |done|].
    + by rewrite app_nil_r.
    + destruct (fuel - length (pre_visited t)) as [|k] eqn:E; [lia|].
      cbn [traverse_loop next_pre]. unfold BST_end. rewrite Hb. by rewrite decide_True.
Qed.

(** [++] with the post-order: from a left child to the leftmost node of
    the right sibling, else to the parent. *)
Lemma Add_Postorder_focus h s c l a x r fuel :
  repr h (ctx_parent s c) (Tr l a x r) →
  repr_ctx h s c (Some a) →
  NoDup (s :: addrs (Tr l a x r) ++ ctx_addrs c) →
  tsize (plug c (Tr l a x r)) ≤ fuel →
  Add_Postorder fuel h (Some a) = Ok (Some (next_post s c)).
Proof.
  intros Ht Hc Hnd Hf. pose proof Ht as (Ha & _ & _).
  assert (Hin : a ∈ addrs (Tr l a x r)) by (by apply rootp_addrs).
  unfold Add_Postorder.
  destruct c as [|[q y r'|l' q y] c'].
  - destruct Hc as [d Hd]. run. by rewrite decide_True.
  - destruct Hc as (Hq & Hr' & Hc). run. rewrite decide_True by done.
    destruct r' as [|rl ra rx rr]; [done|].
    cbn [next_post rootp]. change (Some ra) with (rootp (Tr rl ra rx rr)).
    apply (while_left_spec h q); [done|done|].
    pose proof (tsize_plug c' (Tr (Tr l a x r) q y (Tr rl ra rx rr))) as Hsz.
    simpl in *. lia.
  - destruct Hc as (Hq & Hl' & Hc). run. rewrite decide_False; [done|].
    intros Heq. symmetry in Heq. apply rootp_addrs in Heq.
    apply NoDup_cons in Hnd as [_ Hnd]. apply NoDup_app in Hnd as (_ & Hdisj & _).
    apply (Hdisj a Hin). simpl. set_solver.
Qed.

Lemma traverse_loop_Postorder h s b c t fuel0 k rest :
  root_ b = Some s → t ≠ Leaf →
  repr h (ctx_parent s c) t → repr_ctx h s c (rootp t) →
  NoDup (s :: addrs t ++ ctx_addrs c) →
  tsize (plug c t) ≤ fuel0 →
  traverse_loop Postorder fuel0 h b k (Some (next_post s c)) = Ok rest →
  traverse_loop Postorder fuel0 h b (length (post_visited t) + k) (Some (hd s (addrs t)))
  = Ok ((post_visited t).*2 ++ rest).
Proof.
  intros Hb. revert c k rest.
  induction t as [|l IHl a x r IHr]; intros c k rest Hne Ht Hc Hnd Hf Hrest; [done|].
  pose proof Ht as (Ha & Hl & Hr).
  assert (Has : a ≠ s) by (by eapply (focus_root_ne_sentinel s (Tr l a x r) c)).
  assert (Hstep : traverse_loop Postorder fuel0 h b (S k) (Some a) = Ok (x :: rest)).
  { cbn [traverse_loop]. unfold BST_end. rewrite Hb. rewrite decide_False by congruence.
    unfold deref. run. cbn [Add].
    rewrite (Add_Postorder_focus h s c l a x r fuel0 Ht Hc Hnd Hf), bind_Ok.
    by rewrite Hrest. }
  destruct l as [|ll la lx lr]; [exact Hstep|].
  set (L := Tr ll la lx lr) in *.
  assert (HL : traverse_loop Postorder fuel0 h b
                 (length (post_visited L) + (length (post_visited r) + S k))
                 (Some (hd s (addrs L)))
               = Ok ((post_visited L).*2 ++ (post_visited r).*2 ++ x :: rest)).
  { apply (IHl (FL a x r :: c)); [done|done| |by apply (focus_NoDup s (FL a x r))|done|].
    - exact (conj Ha (conj Hr Hc)).
    - cbn [next_post]. destruct r as [|rl ra rx rr]; [exact Hstep|].
      set (R := Tr rl ra rx rr) in *.
      rewrite (hd_irrel a s) by (by apply addrs_ne).
      apply (IHr (FR L a x :: c)); [done|done| |by apply (focus_NoDup s (FR L a x))|done|done].
      exact (conj Ha (conj Hl Hc)). }
  rewrite addrs_Tr, hd_app_ne by (by apply addrs_ne).
  replace (post_visited (Tr L a x r)) with ((post_visited L ++ post_visited r) ++ [(a, x)])
    by done.
  rewrite !length_app, !fmap_app. change (length [(a, x)]) with 1.
  replace (length (post_visited L) + length (post_visited r) + 1 + k)
    with (length (post_visited L) + (length (post_visited r) + S k)) by lia.
  rewrite HL. simpl. by rewrite <- !app_assoc.
Qed.

Lemma post_visited_length t : length (post_visited t) ≤ tsize t.
Proof.
  induction t as [|l IHl a x r IHr]; [done|].
  assert (length (match l with Leaf => [] | _ => post_visited l ++ post_visited r end)
          ≤ tsize l + tsize r).
  { destruct l; [simpl; lia|]. cbv iota. rewrite length_app. lia. }
  cbn [post_visited tsize]. rewrite length_app. simpl length. lia.
Qed.

Lemma length_postorder t : length (postorder t) = tsize t.
Proof.
  induction t as [|l IHl a x r IHr]; simpl; [done|]. rewrite !length_app. simpl. lia.
Qed.

Lemma post_visited_full t : left_full t → post_visited t = postorder t.
Proof.
  induction t as [|l IHl a x r IHr]; simpl; [done|].
  intros (Hlr & Fl & Fr). destruct l as [|ll la lx lr].
  - by rewrite (Hlr eq_refl).
  - by rewrite IHl, IHr, <- app_assoc.
Qed.

Lemma post_visited_short t : length (post_visited t) = tsize t → left_full t.
Proof.
  intros Heq. induction t as [|l IHl a x r IHr]; [done|].
  pose proof (post_visited_length l). pose proof (post_visited_length r).
  cbn [post_visited tsize] in Heq. rewrite length_app in Heq.
  change (length [(a, x)]) with 1 in Heq.
  destruct l as [|ll la lx lr].
  - simpl in Heq. destruct r; [done|simpl in Heq; lia].
  - cbv iota in Heq. rewrite length_app in Heq.
    split; [done|]. split; [apply IHl; lia|apply IHr; lia].
Qed.

(** X24: the post-order loop from [begin()] to [end()] yields the values
    in post-order, except that it leaves out the right subtree of every
    node that has no left child; it yields all values exactly when every
    node with a right child has a left child.  On the empty container it
    yields nothing. *)
Theorem postorder_loop_skips_right_of_leftless h b t fuel :
  wf h b t → tsize t < fuel →
  traverse Postorder fuel h b = Ok (post_visited t).*2
  ∧ (left_full t ↔ (post_visited t).*2 = (postorder t).*2).
Proof.
  intros (s & Hb & Hwf) Hf. split.
  2:{ split; [intros Hfull; by rewrite post_visited_full|].
      intros Heq. apply (f_equal length) in Heq.
      rewrite !length_fmap, length_postorder in Heq. by apply post_visited_short. }
  pose proof Hwf as ([d Hd] & Ht & Hnd).
  unfold traverse. cbn [BST_begin]. unfold BST_Leftmost_from. rewrite Hb.
  destruct fuel as [|fuel]; [lia|].
  destruct t as [|l a x r].
  - cbn [while_left]. run. cbn [traverse_loop].
    unfold BST_end. rewrite Hb. by rewrite decide_True.
  - set (t := Tr l a x r) in *.
    assert (Hbegin : while_left (S fuel) h (Some s) = Ok (Some (hd s (addrs t)))).
    { cbn [while_left]. run. change (Some a) with (rootp t).
      apply (while_left_spec h s); [done|done|lia]. }
    rewrite Hbegin, bind_Ok.
    pose proof (post_visited_length t) as Hlen.
    replace (S fuel) with (length (post_visited t) + (S fuel - length (post_visited t)))
      at 2 by lia.
    rewrite <- (app_nil_r (post_visited t).*2).
    apply (traverse_loop_Postorder h s b [] t); [done|done|done|by exists d| |cbn [plug]; lia|].
    + by rewrite app_nil_r.
    + destruct (S fuel - length (post_visited t)) as [|k] eqn:E; [lia|].
      cbn [traverse_loop next_post]. unfold BST_end. rewrite Hb. by rewrite decide_True.
Qed.

(** ** Tearing down *)

Lemma wf_at_ext h h' s t :
  (∀ a, a = s ∨ a ∈ addrs t → h' !! a = h !! a) → wf_at h s t → wf_at h' s t.
Proof.
  intros Hagree (Hs & Ht & Hnd). split_and!; [| |done].
  - eapply (repr_ctx_ext h h' s []); [|done].
    intros a [->|Hin]; [|by apply elem_of_nil in Hin]. apply Hagree. by left.
  - eapply repr_ext; [|done]. intros a Hin. apply Hagree. by right.
Qed.

Lemma ClearRecursive_None fuel h : ClearRecursive fuel h None = Ok h.
Proof. by destruct fuel. Qed.

Lemma ClearRecursive_spec h par t fuel :
  repr h par t → NoDup (addrs t) → tsize t ≤ fuel →
  ∃ h', ClearRecursive fuel h (rootp t) = Ok h'
        ∧ (∀ a, a ∈ addrs t → h' !! a = None)
        ∧ (∀ a, a ∉ addrs t → h' !! a = h !! a).
Proof.
  revert h par fuel. induction t as [|l IHl a x r IHr]; intros h par fuel Ht Hnd Hf.
  - exists h. rewrite ClearRecursive_None. split_and!; [done| |done].
    intros a Hin. by apply elem_of_nil in Hin.
  - destruct fuel as [|fuel]; [simpl in Hf; lia|]. simpl in Hf.
    destruct Ht as (Ha & Hl & Hr). rewrite addrs_Tr in Hnd.
    apply NoDup_app in Hnd as (Hndl & Hdisj & Hnd).
    apply NoDup_cons in Hnd as [Har Hndr].
    assert (Hal : a ∉ addrs l) by (intros Hin; apply (Hdisj a Hin); set_solver).
    destruct (IHl h a fuel Hl Hndl ltac:(lia)) as (h1 & Hrun1 & Hfree1 & Hkeep1).
    assert (Ha1 : h1 !! a = h !! a) by (by apply Hkeep1).
    assert (Hr1 : repr h1 a r).
    { eapply repr_ext; [|exact Hr]. intros c Hin. apply Hkeep1.
      intros Hin'. apply (Hdisj c Hin'). set_solver. }
    destruct (IHr h1 a fuel Hr1 Hndr ltac:(lia)) as (h2 & Hrun2 & Hfree2 & Hkeep2).
    exists (delete a h2). split_and!.
    + cbn [ClearRecursive rootp]. run. rewrite Hrun1, bind_Ok.
      rewrite (load_Some h1 a _ (eq_trans Ha1 Ha)), bind_Ok. cbn [right_].
      by rewrite Hrun2, bind_Ok.
    + intros c Hin. rewrite addrs_Tr in Hin.
      destruct (decide (c = a)) as [->|Hne]; [by rewrite lookup_delete_eq|].
      rewrite lookup_delete_ne by done.
      apply elem_of_app in Hin as [Hin|Hin].
      * rewrite Hkeep2; [by apply Hfree1|]. intros Hin'. apply (Hdisj c Hin). set_solver.
      * apply elem_of_cons in Hin as [->|Hin]; [done|]. by apply Hfree2.
    + intros c Hnot. rewrite addrs_Tr in Hnot.
      apply not_elem_of_app in Hnot as [Hnl Hnot].
      apply not_elem_of_cons in Hnot as [Hne Hnr].
      rewrite lookup_delete_ne by done. rewrite Hkeep2 by done. by apply Hkeep1.
Qed.

Lemma BST_clear_spec h b s t fuel :
  root_ b = Some s → wf_at h s t → tsize t ≤ fuel →
  ∃ h',
    BST_clear fuel h b = Ok (h', mkBST (Some s) 0)
    ∧ wf_at h' s Leaf
    ∧ (∀ a, a ∈ addrs t → h' !! a = None)
    ∧ (∀ a, a ∉ addrs t → a ≠ s → h' !! a = h !! a).
Proof.
  intros Hb Hwf Hf. pose proof Hwf as ([d Hd] & Ht & Hnd).
  apply NoDup_cons in Hnd as [Hs Hnd].
  destruct (ClearRecursive_spec h s t fuel Ht Hnd Hf) as (h1 & Hrun & Hfree & Hkeep).
  assert (Hs1 : h1 !! s = Some (mkNode d None (rootp t) None))
    by (by rewrite Hkeep).
  exists (<[s := mkNode d None None None]> h1). split_and!.
  - unfold BST_clear. rewrite Hb. run. rewrite Hrun, bind_Ok.
    by rewrite (store_Some h1 s _ _ Hs1).
  - split_and!; simpl.
    + exists d. by rewrite lookup_insert_eq.
    + done.
    + apply NoDup_singleton.
  - intros a Hin. rewrite lookup_insert_ne by (intros ->; done). by apply Hfree.
  - intros a Hnot Hne. rewrite lookup_insert_ne by done. by apply Hkeep.
Qed.

(** X12: [clear] releases every data node and nothing else, keeps the
    sentinel, and leaves an empty container of size 0. *)
Theorem clear_releases_all_nodes h b t fuel :
  wf h b t → tsize t ≤ fuel →
  ∃ h',
    BST_clear fuel h b = Ok (h', mkBST (root_ b) 0)
    ∧ wf h' (mkBST (root_ b) 0) Leaf
    ∧ BST_empty h' (mkBST (root_ b) 0) = Ok true
    ∧ (∀ a, a ∈ addrs t → h' !! a = None)
    ∧ (∀ a, a ∉ addrs t → Some a ≠ root_ b → h' !! a = h !! a).
Proof.
  intros (s & Hb & Hwf) Hf.
  destruct (BST_clear_spec h b s t fuel Hb Hwf Hf) as (h' & Hrun & Hwf' & Hfree & Hkeep).
  exists h'. rewrite Hb. split_and!; [done| |  |done|].
  - by exists s.
  - destruct Hwf' as ([d Hd] & _). unfold BST_empty. cbn [root_]. by run.
  - intros a Hnot Hne. apply Hkeep; [done|congruence].
Qed.

Lemma BST_destroy_spec h b s t fuel :
  root_ b = Some s → wf_at h s t → tsize t < fuel →
  ∃ h', BST_destroy fuel h b = Ok h'
        ∧ (∀ a, a = s ∨ a ∈ addrs t → h' !! a = None)
        ∧ (∀ a, a ≠ s → a ∉ addrs t → h' !! a = h !! a).
Proof.
  intros Hb Hwf Hf. pose proof Hwf as ([d Hd] & Ht & Hnd).
  apply NoDup_cons in Hnd as [Hs Hnd].
  destruct fuel as [|fuel]; [lia|].
  destruct (ClearRecursive_spec h s t fuel Ht Hnd ltac:(lia)) as (h1 & Hrun & Hfree & Hkeep).
  assert (Hs1 : h1 !! s = Some (mkNode d None (rootp t) None))
    by (by rewrite Hkeep).
  exists (delete s h1). split_and!.
  - unfold BST_destroy. rewrite Hb. cbn [ClearRecursive]. run.
    rewrite Hrun, bind_Ok. rewrite (load_Some h1 s _ Hs1), bind_Ok. cbn [right_].
    by rewrite ClearRecursive_None.
  - intros a [->|Hin]; [by rewrite lookup_delete_eq|].
    rewrite lookup_delete_ne by (intros ->; done). by apply Hfree.
  - intros a Hne Hnot. rewrite lookup_delete_ne by done. by apply Hkeep.
Qed.

(** X13: the destructor releases every data node and the sentinel and
    touches no other slot; running it a second time on the same container
    reads the released sentinel. *)
Theorem destructor_releases_everything_once h b t fuel :
  wf h b t → tsize t < fuel →
  ∃ h',
    BST_destroy fuel h b = Ok h'
    ∧ (∀ a, Some a = root_ b ∨ a ∈ addrs t → h' !! a = None)
    ∧ (∀ a, Some a ≠ root_ b → a ∉ addrs t → h' !! a = h !! a)
    ∧ BST_destroy fuel h' b = UB.
Proof.
  intros (s & Hb & Hwf) Hf.
  destruct (BST_destroy_spec h b s t fuel Hb Hwf Hf) as (h' & Hrun & Hfree & Hkeep).
  exists h'. rewrite Hb. split_and!; [done| | |].
  - intros a [[= ->]|Hin]; apply Hfree; auto.
  - intros a Hne Hnot. apply Hkeep; [congruence|done].
  - unfold BST_destroy. rewrite Hb. destruct fuel as [|fuel]; [lia|].
    cbn [ClearRecursive]. unfold load. by rewrite (Hfree s (or_introl eq_refl)).
Qed.

(** X14: move assignment releases the nodes of the target and copies the
    root pointer and the counter of the source without resetting the
    source: both containers then hold the same nodes, and after the
    destructor of one has run the destructor of the other reads released
    memory. *)
Theorem move_assign_shares_the_nodes h b other tb to fuel :
  wf h b tb → wf h other to →
  (∀ a, Some a = root_ b ∨ a ∈ addrs tb →
        Some a ≠ root_ other ∧ a ∉ addrs to) →
  tsize tb < fuel → tsize to < fuel →
  ∃ h1 b1 h2,
    BST_move_assign false fuel h b other = Ok (h1, b1)
    ∧ root_ b1 = root_ other ∧ size_ b1 = size_ other
    ∧ wf h1 b1 to ∧ wf h1 other to
    ∧ (∀ a, Some a = root_ b ∨ a ∈ addrs tb → h1 !! a = None)
    ∧ BST_destroy fuel h1 b1 = Ok h2
    ∧ BST_destroy fuel h2 other = UB.
Proof.
  intros (s & Hb & Hwf) (so & Ho & Hwfo) Hdisj Hf Hfo.
  destruct (BST_destroy_spec h b s tb fuel Hb Hwf Hf) as (h1 & Hrun & Hfree & Hkeep).
  assert (Hwfo1 : wf_at h1 so to).
  { eapply wf_at_ext; [|exact Hwfo]. intros a Ha. apply Hkeep.
    - intros ->. destruct (Hdisj s) as [Hne Hnot]; [left; congruence|].
      destruct Ha as [->|Hin]; [by rewrite Ho in Hne|done].
    - intros Hin. destruct (Hdisj a (or_intror Hin)) as [Hne Hnot].
      destruct Ha as [->|Hin']; [by rewrite Ho in Hne|done]. }
  set (b1 := mkBST (root_ other) (size_ other)).
  destruct (BST_destroy_spec h1 b1 so to fuel Ho Hwfo1 Hfo) as (h2 & Hrun2 & Hfree2 & _).
  exists h1, b1, h2. split_and!; try done.
  - unfold BST_move_assign. unfold BST_destroy in Hrun. by rewrite Hrun.
  - by exists so.
  - by exists so.
  - intros a [Ha|Hin]; apply Hfree; [left; congruence|by right].
  - unfold BST_destroy. rewrite Ho. destruct fuel as [|fuel]; [lia|].
    cbn [ClearRecursive]. unfold load. by rewrite (Hfree2 so (or_introl eq_refl)).
Qed.

(** ** Insertion *)

Variable comp : T → T → bool.
Variable T0 : T.

Lemma ins_path_Leaf v t c : plug (ins_path comp v t c) Leaf = plug c t.
Proof.
  revert c. induction t as [|l IHl p x r IHr]; intros c; simpl; [done|].
  destruct (comp v x); [by rewrite IHl|by rewrite IHr].
Qed.

Lemma ins_path_insert a v t c :
  plug (ins_path comp v t c) (Tr Leaf a v Leaf) = plug c (spec_insert comp a v t).
Proof.
  revert c. induction t as [|l IHl p x r IHr]; intros c; simpl; [done|].
  destruct (comp v x); [by rewrite IHl|by rewrite IHr].
Qed.

Lemma ins_path_dir v t c :
  Forall (dir_ok comp v) c → Forall (dir_ok comp v) (ins_path comp v t c).
Proof.
  revert c. induction t as [|l IHl p x r IHr]; intros c Hc; simpl; [done|].
  destruct (comp v x) eqn:E; [apply IHl|apply IHr]; by constructor.
Qed.

(** The descent of [insert] follows the search path and returns the node
    above its end. *)
Lemma BST_insert_loop_spec h s v t c fuel :
  repr h (ctx_parent s c) t → tsize t ≤ fuel →
  BST_insert_loop comp fuel h v (rootp t) (Some (ctx_parent s c))
  = Ok (Some (ctx_parent s (ins_path comp v t c))).
Proof.
  revert c fuel. induction t as [|l IHl p x r IHr]; intros c fuel Ht Hf.
  - by destruct fuel.
  - destruct fuel as [|fuel]; [simpl in Hf; lia|].
    destruct Ht as (Hp & Hl & Hr). cbn [BST_insert_loop rootp ins_path]. run.
    simpl in Hf. destruct (comp v x).
    + apply (IHl (FL p x r :: c)); [done|lia].
    + apply (IHr (FR l p x :: c)); [done|lia].
Qed.

(** The statement that links the new node below its parent writes the
    slot at the end of the search path. *)
Lemma BST_insert_link h h5 s v c a :
  repr_ctx h s c None →
  Forall (dir_ok comp v) c →
  (∀ a', a' = s ∨ a' ∈ ctx_addrs c → h5 !! a' = h !! a') →
  ∃ pn, h !! ctx_parent s c = Some pn
    ∧ load h5 (Some (ctx_parent s c)) = Ok pn
    ∧ (if parent_ pn is None then store h5 (Some s) (set_left (Some a))
       else if comp v (data_ pn) then store h5 (Some (ctx_parent s c)) (set_left (Some a))
       else store h5 (Some (ctx_parent s c)) (set_right (Some a)))
      = Ok (<[ctx_parent s c := set_hole c (Some a) pn]> h5).
Proof.
  intros Hc Hdir Hagree. destruct c as [|[q y r|l q y] c].
  - destruct Hc as [d Hd]. eexists. split; [done|].
    assert (H5 : h5 !! s = Some (mkNode d None None None)) by (rewrite Hagree; auto).
    cbn [ctx_parent]. run. split; [done|]. by rewrite (store_Some _ _ _ _ H5).
  - destruct Hc as (Hq & _ & _). eexists. split; [done|].
    assert (H5 : h5 !! q = Some (mkNode y (Some (ctx_parent s c)) None (rootp r))).
    { rewrite Hagree; [done|]. right. simpl. set_solver. }
    apply Forall_cons in Hdir as [Hy _]. simpl in Hy.
    cbn [ctx_parent frame_addr]. run. rewrite Hy. split; [done|].
    by rewrite (store_Some _ _ _ _ H5).
  - destruct Hc as (Hq & _ & _). eexists. split; [done|].
    assert (H5 : h5 !! q = Some (mkNode y (Some (ctx_parent s c)) (rootp l) None)).
    { rewrite Hagree; [done|]. right. simpl. set_solver. }
    apply Forall_cons in Hdir as [Hy _]. simpl in Hy.
    cbn [ctx_parent frame_addr]. run. rewrite Hy. split; [done|].
    by rewrite (store_Some _ _ _ _ H5).
Qed.

(** [insert] on the store refines [spec_insert]: the new node is a slot
    that was free, it hangs as a leaf at the end of the search path, and
    the counter is incremented. *)
Lemma BST_insert_spec h b t v fuel :
  wf h b t → tsize t ≤ fuel →
  ∃ h' a par,
    BST_insert comp T0 fuel h b v
      = Ok (h', mkBST (root_ b) (size_t_incr (size_ b)), (Some a, true))
    ∧ h !! a = None
    ∧ h' !! a = Some (mkNode v (Some par) None None)
    ∧ wf h' (mkBST (root_ b) (size_t_incr (size_ b))) (spec_insert comp a v t).
Proof.
  intros (s & Hb & Hwf) Hf.
  set (a := fresh (dom h)).
  assert (Hfresh : h !! a = None) by (apply not_elem_of_dom, is_fresh).
  set (c1 := ins_path comp v t []).
  pose proof Hwf as ([d Hd] & Ht & _).
  assert (Hwf1 : wf_at h s (plug c1 Leaf)) by (unfold c1; by rewrite ins_path_Leaf).
  apply wf_at_focus in Hwf1 as (_ & Hc1 & Hnd1). simpl in Hc1, Hnd1.
  assert (Hdir : Forall (dir_ok comp v) c1) by (apply ins_path_dir; constructor).
  set (h5 := <[a := mkNode v (Some (ctx_parent s c1)) None None]> h).
  assert (Hold : ∀ a', a' = s ∨ a' ∈ ctx_addrs c1 → a' ≠ a).
  { intros a' Hin ->. destruct (repr_ctx_lookup _ _ _ _ _ Hc1 Hin) as [n Hn]. congruence. }
  assert (Hagree : ∀ a', a' = s ∨ a' ∈ ctx_addrs c1 → h5 !! a' = h !! a').
  { intros a' Hin. unfold h5. rewrite lookup_insert_ne; [done|].
    intros ->. by apply (Hold a'). }
  destruct (BST_insert_link h h5 s v c1 a Hc1 Hdir Hagree) as (pn & Hpn & Hld & Hlink).
  assert (Hpar : ctx_parent s c1 ≠ a).
  { apply Hold. destruct c1 as [|[]]; simpl; [by left|right; set_solver..]. }
  exists (<[ctx_parent s c1 := set_hole c1 (Some a) pn]> h5), a, (ctx_parent s c1).
  split_and!.
  - unfold BST_insert. rewrite Hb. run.
    pose proof (BST_insert_loop_spec h s v t [] fuel Ht Hf) as Hloop.
    cbn [ctx_parent] in Hloop. rewrite Hloop, bind_Ok. fold c1.
    unfold alloc_node. fold a. do 4 rewrite store_insert, bind_Ok.
    match goal with
    | |- context [<[a := ?n]> h] => change (<[a := n]> h) with h5
    end.
    by rewrite Hld, bind_Ok, Hlink.
  - done.
  - rewrite lookup_insert_ne by done. unfold h5. by rewrite lookup_insert_eq.
  - exists s. split; [done|].
    change (spec_insert comp a v t) with (plug [] (spec_insert comp a v t)).
    rewrite <- (ins_path_insert a v t []). fold c1. apply wf_at_unfocus.
    + simpl. split_and!; [|done|done].
      rewrite lookup_insert_ne by done. unfold h5. by rewrite lookup_insert_eq.
    + apply (repr_ctx_set_hole h _ s c1 None (Some a) pn); [done| |done| |].
      * by apply NoDup_cons in Hnd1 as [? ?]; apply NoDup_cons.
      * by rewrite lookup_insert_eq.
      * intros a' Hne Hin. rewrite lookup_insert_ne by done. by apply Hagree.
    + unfold addrs. simpl. apply NoDup_cons in Hnd1 as [Hs Hnd1].
      apply NoDup_cons. split.
      * apply not_elem_of_cons. split; [apply Hold; auto|done].
      * apply NoDup_cons. split; [|done]. intros Hin. by apply (Hold a); [right|].
Qed.

(** C9: [insert(value)] descends from the data root, left exactly when
    [value] is strictly less than the node's value and right otherwise (so
    a value equal to a node's goes into that node's right subtree), hangs a
    new node as a leaf at the end of that path, increments [size()] by one
    and returns the cursor of the new node with the flag [true]. *)
Theorem insert_descends_and_attaches_leaf h b t v fuel :
  wf h b t → tsize t ≤ fuel →
  ∃ h' a par,
    BST_insert comp T0 fuel h b v
      = Ok (h', mkBST (root_ b) (size_t_incr (size_ b)), (Some a, true))
    ∧ h !! a = None
    ∧ h' !! a = Some (mkNode v (Some par) None None)
    ∧ wf h' (mkBST (root_ b) (size_t_incr (size_ b))) (spec_insert comp a v t)
    ∧ (∀ l p r, comp v v = false →
         spec_insert comp a v (Tr l p v r) = Tr l p v (spec_insert comp a v r))
    ∧ ((size_ b + 1 < size_t_max)%N → size_t_incr (size_ b) = (size_ b + 1)%N).
Proof.
  intros Hwf Hf.
  destruct (BST_insert_spec h b t v fuel Hwf Hf) as (h' & a & par & Hrun & Hfree & Hleaf & Hwf').
  exists h', a, par. split_and!; [done|done|done|done| |].
  - intros l p r E. simpl. by rewrite E.
  - intros Hmax. unfold size_t_incr. by apply N.mod_small.
Qed.

(** C4, on the code: on a new, empty container [begin(Inorder)] and
    [begin(Postorder)] are the sentinel, that is [end()], but
    [begin(Preorder)] is the sentinel's left child, a null pointer, which
    differs from [end(Preorder)]. *)
Theorem begin_Preorder_of_empty_is_null h fuel :
  let hb := BST_new T0 h in
  BST_begin Inorder (S fuel) hb.1 hb.2 = Ok (BST_end Inorder hb.2)
  ∧ BST_begin Postorder (S fuel) hb.1 hb.2 = Ok (BST_end Postorder hb.2)
  ∧ BST_begin Preorder fuel hb.1 hb.2 = Ok None
  ∧ BST_end Preorder hb.2 = Some (fresh (dom h))
  ∧ BST_empty hb.1 hb.2 = Ok true.
Proof.
  cbn zeta. unfold BST_new, alloc_node. cbn [fst snd]. unfold BST_end. cbn [root_].
  assert (Hs : (<[fresh (dom h) := mkNode T0 None None None]> h) !! fresh (dom h)
               = Some (mkNode T0 None None None)) by apply lookup_insert_eq.
  split_and!.
  - unfold BST_begin, BST_Leftmost. cbn [root_]. by run.
  - unfold BST_begin, BST_Leftmost_from. cbn [root_ while_left]. by run.
  - unfold BST_begin. cbn [root_]. by run.
  - done.
  - unfold BST_empty. cbn [root_]. by run.
Qed.

(** ** The abstract tree under insertion *)

Lemma elems_spec_insert a v t : elems (spec_insert comp a v t) ≡ₚ v :: elems t.
Proof.
  induction t as [|l IHl p x r IHr]; simpl; [done|].
  destruct (comp v x); rewrite !elems_Tr.
  - rewrite IHl. reflexivity.
  - rewrite IHr. by solve_Permutation.
Qed.

Lemma tsize_spec_insert a v t : tsize (spec_insert comp a v t) = S (tsize t).
Proof.
  induction t as [|l IHl p x r IHr]; simpl; [done|].
  destruct (comp v x); simpl; lia.
Qed.

(** ** The constructor *)

Lemma BST_new_wf h : wf (BST_new T0 h).1 (BST_new T0 h).2 Leaf.
Proof.
  unfold BST_new, alloc_node. simpl. eexists. split; [done|].
  split_and!; simpl.
  - eexists. by rewrite lookup_insert_eq.
  - done.
  - apply NoDup_singleton.
Qed.

Lemma BST_new_size h : size_ (BST_new T0 h).2 = 0%N.
Proof. done. Qed.

(** ** Insertion followed by lookup and removal *)

Lemma inorder_spec_insert a v t :
  ∃ pre suf, inorder (spec_insert comp a v t) = pre ++ (a, v) :: suf
             ∧ inorder t = pre ++ suf.
Proof.
  induction t as [|l IHl p x r IHr]; simpl.
  - by exists [], [].
  - destruct (comp v x); simpl.
    + destruct IHl as (pre & suf & E & E'). exists pre, (suf ++ (p, x) :: inorder r).
      rewrite E, E'. by rewrite <- !app_assoc.
    + destruct IHr as (pre & suf & E & E'). exists (inorder l ++ (p, x) :: pre), suf.
      rewrite E, E'. by rewrite <- !app_assoc.
Qed.

Lemma addrs_spec_insert a v t : addrs (spec_insert comp a v t) ≡ₚ a :: addrs t.
Proof.
  destruct (inorder_spec_insert a v t) as (pre & suf & E & E').
  unfold addrs. rewrite E, E', !fmap_app, fmap_cons. simpl.
  by rewrite <- Permutation_middle.
Qed.

Lemma size_t_decr_incr n : (n < size_t_max)%N → size_t_decr (size_t_incr n) = n.
Proof.
  intros H. unfold size_t_decr, size_t_incr.
  destruct (decide (n + 1 = size_t_max)%N) as [E|E].
  - rewrite E, N.Div0.mod_same. rewrite N.mod_small; lia.
  - rewrite (N.mod_small (n + 1)) by lia.
    replace (n + 1 + size_t_max - 1)%N with (n + 1 * size_t_max)%N by lia.
    rewrite N.Div0.mod_add. by apply N.mod_small.
Qed.

(** X17: the cursor returned by [insert] dereferences to the inserted
    value; afterwards [contains] is true, the in-order [find] returns that
    very node when the value was not stored before, and [erase] at that
    cursor gives back the container as it was: the same in-order sequence
    of nodes and the same counter. *)
Theorem insert_then_find_and_erase h b t v fuel :
  wf h b t → S (tsize t) < fuel → (size_ b < size_t_max)%N →
  ∃ h' b' a,
    BST_insert comp T0 fuel h b v = Ok (h', b', (Some a, true))
    ∧ deref h' (Some a) = Ok v
    ∧ BST_contains fuel h' b' v = Ok true
    ∧ (v ∉ elems t → BST_find Inorder fuel h' b' v = Ok (Some a))
    ∧ ∃ h'' t'' it,
        BST_erase Inorder fuel h' b' (Some a) = Ok (h'', b, it)
        ∧ wf h'' b t'' ∧ inorder t'' = inorder t.
Proof.
  intros Hwf Hf Hmax.
  destruct (BST_insert_spec h b t v fuel Hwf ltac:(lia))
    as (h' & a & par & Hrun & Hfree & Hleaf & Hwf').
  pose proof Hwf' as (s & Hb' & Hwfs). cbn [root_] in Hb'.
  destruct (inorder_spec_insert a v t) as (pre & suf & E & E').
  assert (Hts : tsize (spec_insert comp a v t) < fuel)
    by (rewrite tsize_spec_insert; lia).
  set (b' := mkBST (root_ b) (size_t_incr (size_ b))) in *.
  exists h', b', a. split_and!.
  - done.
  - unfold deref. by rewrite (load_Some _ _ _ Hleaf), bind_Ok.
  - unfold BST_contains.
    rewrite (BST_find_Inorder_pos h' b' s _ v fuel Hb' Hwfs Hts), bind_Ok.
    f_equal. apply bool_decide_eq_true_2. unfold BST_end. cbn [b' root_]. rewrite Hb'.
    destruct (find_first_spec v s (inorder (spec_insert comp a v t)))
      as [[_ Hnot]|(pre' & suf' & E1 & _)].
    + exfalso. apply Hnot. rewrite E, fmap_app. set_solver.
    + intros [= Heq]. by eapply (inorder_addr_ne_sentinel h' s _ pre' _ v suf' Hwfs).
  - intros Hnot. rewrite (BST_find_Inorder_pos h' b' s _ v fuel Hb' Hwfs Hts).
    rewrite E. rewrite find_first_present; [done|].
    intros Hin. apply Hnot. unfold elems. rewrite E', fmap_app. set_solver.
  - destruct (BST_erase_Inorder_spec h' b' _ pre a v suf fuel Hwf' E Hts)
      as (h'' & t'' & it & Hrun' & _ & Hwf'' & Hin'').
    assert (Hbb : mkBST (root_ b') (size_t_decr (size_ b')) = b).
    { cbn [b' root_ size_]. rewrite size_t_decr_incr by done. by destruct b. }
    rewrite Hbb in Hrun', Hwf''.
    exists h'', t'', it. split_and!; [done|done|]. by rewrite Hin'', E'.
Qed.

(** X18: [empty()] is true exactly when no value is stored, and exactly
    then the in-order [begin()] is [end()]; otherwise [begin()] is the node
    of the first value of the in-order sequence. *)
Theorem empty_iff_begin_is_end h b t fuel :
  wf h b t → tsize t ≤ fuel →
  BST_empty h b = Ok (bool_decide (elems t = []))
  ∧ ∃ it, BST_begin Inorder fuel h b = Ok it
      ∧ (it = BST_end Inorder b ↔ elems t = [])
      ∧ (∀ x vs, elems t = x :: vs → deref h it = Ok x).
Proof.
  intros (s & Hb & Hwf) Hf. pose proof Hwf as ([d Hd] & Ht & Hnd). split.
  - unfold BST_empty. rewrite Hb. run. f_equal. destruct t as [|l a x r].
    + done.
    + rewrite elems_Tr. cbn [rootp]. rewrite !bool_decide_eq_false_2; [done| |done].
      by destruct (elems l).
  - exists (Some (hd s (addrs t))). cbn [BST_begin].
    split; [by apply BST_Leftmost_spec|]. unfold BST_end. rewrite Hb.
    destruct (inorder t) as [|[a x] suf] eqn:E.
    + unfold addrs, elems. rewrite E. simpl. by split.
    + assert (Hf' : tsize t < S fuel) by lia.
      destruct (step_Inorder h s t [] a x suf (S fuel) Hwf E Hf') as (Hne & Hd' & _).
      unfold addrs, elems. rewrite E. simpl. split.
      * split; [congruence|done].
      * by intros ? ? [= <- _].
Qed.

(** ** Copying *)

Lemma same_shape_inorder t t' : same_shape t t' → elems t = elems t' ∧ tsize t = tsize t'.
Proof.
  revert t'. induction t as [|l IHl a x r IHr]; intros [|l' a' x' r']; simpl; try done.
  intros (-> & Hl & Hr). destruct (IHl _ Hl) as [El Sl]. destruct (IHr _ Hr) as [Er Sr].
  rewrite !elems_Tr, El, Er, Sl, Sr. done.
Qed.

Lemma CopyRecursive_None fuel h (p : option nat) :
  CopyRecursive T0 fuel h None p = Ok (h, None).
Proof. by destruct fuel. Qed.

Lemma CopyRecursive_spec h par par' t fuel :
  repr h par t → tsize t ≤ fuel →
  ∃ h' t', CopyRecursive T0 fuel h (rootp t) (Some par') = Ok (h', rootp t')
    ∧ same_shape t t' ∧ repr h' par' t' ∧ NoDup (addrs t')
    ∧ (∀ a, a ∈ addrs t' → h !! a = None)
    ∧ (∀ a, a ∉ addrs t' → h' !! a = h !! a).
Proof.
  revert h par par' fuel.
  induction t as [|l IHl a x r IHr]; intros h par par' fuel Ht Hf.
  - exists h, Leaf. rewrite CopyRecursive_None. split_and!; try done.
    + apply NoDup_nil_2.
    + intros a Hin. by apply elem_of_nil in Hin.
  - destruct fuel as [|fuel]; [simpl in Hf; lia|]. simpl in Hf.
    destruct Ht as (Ha & Hl & Hr).
    set (a' := fresh (dom h)).
    assert (Hfresh : h !! a' = None) by (apply not_elem_of_dom, is_fresh).
    assert (Haa : a ≠ a') by (intros ->; congruence).
    set (n3 := mkNode x (Some par') None None).
    set (h3 := <[a' := n3]> h).
    assert (Ha3 : h3 !! a = Some (mkNode x (Some par) (rootp l) (rootp r)))
      by (unfold h3; by rewrite lookup_insert_ne).
    assert (Hl3 : repr h3 a l).
    { eapply repr_ext; [|exact Hl]. intros c Hin. unfold h3.
      rewrite lookup_insert_ne; [done|]. intros <-.
      destruct (repr_lookup h a l a' Hl Hin) as [? ?]. congruence. }
    destruct (IHl h3 a a' fuel Hl3 ltac:(lia))
      as (h4 & l' & Hrun4 & Hsh4 & Hrep4 & Hnd4 & Hnew4 & Hkeep4).
    assert (Hl'a : a' ∉ addrs l').
    { intros Hin. apply Hnew4 in Hin. unfold h3 in Hin. by rewrite lookup_insert_eq in Hin. }
    assert (Hl'h : ∀ k : nat, k ∈ addrs l' → h !! k = None).
    { intros c Hin. assert (c ≠ a') by (intros ->; done).
      specialize (Hnew4 c Hin). unfold h3 in Hnew4. by rewrite lookup_insert_ne in Hnew4. }
    assert (Hal' : a ∉ addrs l') by (intros Hin; apply Hl'h in Hin; congruence).
    assert (H4a' : h4 !! a' = Some n3)
      by (rewrite Hkeep4 by done; unfold h3; apply lookup_insert_eq).
    set (n5 := mkNode x (Some par') (rootp l') None).
    set (h5 := <[a' := n5]> h4).
    assert (Ha5 : h5 !! a = Some (mkNode x (Some par) (rootp l) (rootp r))).
    { unfold h5. rewrite lookup_insert_ne by done. by rewrite Hkeep4. }
    assert (Hr5 : repr h5 a r).
    { eapply repr_ext; [|exact Hr]. intros c Hin.
      destruct (repr_lookup h a r c Hr Hin) as [nc Hnc].
      assert (c ≠ a') by (intros ->; congruence).
      assert (c ∉ addrs l') by (intros Hin'; apply Hl'h in Hin'; congruence).
      unfold h5. rewrite lookup_insert_ne by done. rewrite Hkeep4 by done.
      unfold h3. by rewrite lookup_insert_ne. }
    destruct (IHr h5 a a' fuel Hr5 ltac:(lia))
      as (h6 & r' & Hrun6 & Hsh6 & Hrep6 & Hnd6 & Hnew6 & Hkeep6).
    assert (Hr'a : a' ∉ addrs r').
    { intros Hin. apply Hnew6 in Hin. unfold h5 in Hin. by rewrite lookup_insert_eq in Hin. }
    assert (Hr'l : ∀ k : nat, k ∈ addrs r' → k ∉ addrs l').
    { intros c Hin Hin'. assert (c ≠ a') by (intros ->; done).
      specialize (Hnew6 c Hin). unfold h5 in Hnew6. rewrite lookup_insert_ne in Hnew6 by done.
      destruct (repr_lookup h4 a' l' c Hrep4 Hin') as [? ?]. congruence. }
    assert (Hr'h : ∀ k : nat, k ∈ addrs r' → h !! k = None).
    { intros c Hin. assert (c ≠ a') by (intros ->; done).
      pose proof (Hr'l c Hin) as Hnl.
      specialize (Hnew6 c Hin). unfold h5 in Hnew6. rewrite lookup_insert_ne in Hnew6 by done.
      rewrite Hkeep4 in Hnew6 by done. unfold h3 in Hnew6.
      by rewrite lookup_insert_ne in Hnew6. }
    assert (H6a' : h6 !! a' = Some n5)
      by (rewrite Hkeep6 by done; unfold h5; apply lookup_insert_eq).
    set (n7 := mkNode x (Some par') (rootp l') (rootp r')).
    exists (<[a' := n7]> h6), (Tr l' a' x r'). split_and!.
    + cbn [CopyRecursive rootp]. unfold alloc_node. fold a'.
      rewrite (load_Some _ a _ (eq_trans (lookup_insert_ne _ _ _ _ (not_eq_sym Haa)) Ha)).
      rewrite bind_Ok. cbn [data_]. do 2 rewrite store_insert, bind_Ok.
      change (<[a' := _]> h) with h3.
      rewrite (load_Some h3 a _ Ha3), bind_Ok. cbn [left_].
      rewrite Hrun4, bind_Ok. rewrite (store_Some h4 a' n3 _ H4a'), bind_Ok.
      change (<[a' := _]> h4) with h5.
      rewrite (load_Some h5 a _ Ha5), bind_Ok. cbn [right_].
      rewrite Hrun6, bind_Ok. by rewrite (store_Some h6 a' n5 _ H6a').
    + done.
    + simpl. split_and!.
      * by rewrite lookup_insert_eq.
      * eapply repr_ext; [|exact Hrep4]. intros c Hin.
        assert (c ≠ a') by (intros ->; done).
        rewrite lookup_insert_ne by done.
        rewrite Hkeep6 by (intros Hin'; by apply (Hr'l c Hin')).
        unfold h5. by rewrite lookup_insert_ne.
      * eapply repr_ext; [|exact Hrep6]. intros c Hin.
        assert (c ≠ a') by (intros ->; done).
        by rewrite lookup_insert_ne.
    + rewrite addrs_Tr. apply NoDup_app. split_and!; [done| |].
      * intros c Hin Hin'. apply elem_of_cons in Hin' as [->|Hin']; [done|].
        by apply (Hr'l c Hin').
      * by apply NoDup_cons.
    + intros c Hin. rewrite addrs_Tr in Hin.
      apply elem_of_app in Hin as [Hin|Hin]; [by apply Hl'h|].
      apply elem_of_cons in Hin as [->|Hin]; [done|by apply Hr'h].
    + intros c Hnot. rewrite addrs_Tr in Hnot.
      apply not_elem_of_app in Hnot as [Hnl Hnot].
      apply not_elem_of_cons in Hnot as [Hne Hnr].
      rewrite lookup_insert_ne by done. rewrite Hkeep6 by done.
      unfold h5. rewrite lookup_insert_ne by done. rewrite Hkeep4 by done.
      unfold h3. by rewrite lookup_insert_ne.
Qed.

Lemma BST_copy_spec h other so t fuel :
  root_ other = Some so → wf_at h so t → tsize t < fuel →
  ∃ h' s' t',
    BST_copy T0 fuel h other = Ok (h', mkBST (Some s') (size_ other))
    ∧ wf_at h' s' t' ∧ same_shape t t'
    ∧ (∀ a, a = s' ∨ a ∈ addrs t' → h !! a = None)
    ∧ (∀ a, a ≠ s' → a ∉ addrs t' → h' !! a = h !! a).
Proof.
  intros Ho Hwf Hf. pose proof Hwf as ([d Hd] & Ht & Hnd).
  destruct fuel as [|fuel]; [lia|].
  set (s' := fresh (dom h)).
  assert (Hfresh : h !! s' = None) by (apply not_elem_of_dom, is_fresh).
  assert (Hss : so ≠ s') by (intros ->; congruence).
  set (n3 := mkNode d None None None).
  set (h3 := <[s' := n3]> h).
  assert (Hs3 : h3 !! so = Some (mkNode d None (rootp t) None))
    by (unfold h3; by rewrite lookup_insert_ne).
  assert (Ht3 : repr h3 so t).
  { eapply repr_ext; [|exact Ht]. intros c Hin. unfold h3.
    rewrite lookup_insert_ne; [done|]. intros <-.
    destruct (repr_lookup h so t s' Ht Hin) as [? ?]. congruence. }
  destruct (CopyRecursive_spec h3 so s' t fuel Ht3 ltac:(lia))
    as (h4 & t' & Hrun4 & Hsh & Hrep4 & Hnd4 & Hnew4 & Hkeep4).
  assert (Ht's : s' ∉ addrs t').
  { intros Hin. apply Hnew4 in Hin. unfold h3 in Hin. by rewrite lookup_insert_eq in Hin. }
  assert (Ht'h : ∀ k : nat, k ∈ addrs t' → h !! k = None).
  { intros c Hin. assert (c ≠ s') by (intros ->; done).
    specialize (Hnew4 c Hin). unfold h3 in Hnew4. by rewrite lookup_insert_ne in Hnew4. }
  assert (Hst' : so ∉ addrs t') by (intros Hin; apply Ht'h in Hin; congruence).
  assert (H4s' : h4 !! s' = Some n3)
    by (rewrite Hkeep4 by done; unfold h3; apply lookup_insert_eq).
  set (n5 := mkNode d None (rootp t') None).
  set (h5 := <[s' := n5]> h4).
  assert (Hs5 : h5 !! so = Some (mkNode d None (rootp t) None)).
  { unfold h5. rewrite lookup_insert_ne by done. by rewrite Hkeep4. }
  exists (<[s' := n5]> h5), s', t'. split_and!.
  - unfold BST_copy. rewrite Ho. cbn [CopyRecursive]. unfold alloc_node. fold s'.
    rewrite (load_Some _ so _ (eq_trans (lookup_insert_ne _ _ _ _ (not_eq_sym Hss)) Hd)).
    rewrite bind_Ok. cbn [data_]. do 2 rewrite store_insert, bind_Ok.
    change (<[s' := _]> h) with h3.
    rewrite (load_Some h3 so _ Hs3), bind_Ok. cbn [left_].
    rewrite Hrun4, bind_Ok. rewrite (store_Some h4 s' n3 _ H4s'), bind_Ok.
    change (<[s' := _]> h4) with h5.
    rewrite (load_Some h5 so _ Hs5), bind_Ok. cbn [right_].
    rewrite CopyRecursive_None, bind_Ok.
    by rewrite (store_Some h5 s' n5 _ (lookup_insert_eq _ _ _)), bind_Ok.
  - split_and!.
    + exists d. by rewrite lookup_insert_eq.
    + eapply repr_ext; [|exact Hrep4]. intros c Hin.
      assert (c ≠ s') by (intros ->; done).
      rewrite lookup_insert_ne by done. unfold h5. by rewrite lookup_insert_ne.
    + by apply NoDup_cons.
  - done.
  - intros c [->|Hin]; [done|by apply Ht'h].
  - intros c Hne Hnot. rewrite lookup_insert_ne by done. unfold h5.
    rewrite lookup_insert_ne by done. rewrite Hkeep4 by done.
    unfold h3. by rewrite lookup_insert_ne.
Qed.

(** X15: the copy constructor builds, in slots that were free, a tree of
    the same shape with the same values and copies the counter; the source
    is left as it was, and the in-order loop over the copy yields the
    values of the source. *)
Theorem copy_constructor_is_deep h other t fuel :
  wf h other t → tsize t < fuel →
  ∃ h' b' t',
    BST_copy T0 fuel h other = Ok (h', b')
    ∧ wf h' b' t' ∧ same_shape t t' ∧ size_ b' = size_ other
    ∧ wf h' other t
    ∧ (∀ a, Some a = root_ b' ∨ a ∈ addrs t' → h !! a = None)
    ∧ traverse Inorder fuel h' b' = Ok (elems t).
Proof.
  intros (so & Ho & Hwf) Hf.
  destruct (BST_copy_spec h other so t fuel Ho Hwf Hf)
    as (h' & s' & t' & Hrun & Hwf' & Hsh & Hnew & Hkeep).
  destruct (same_shape_inorder t t' Hsh) as [Hel Hts].
  exists h', (mkBST (Some s') (size_ other)), t'. split_and!; try done.
  - by exists s'.
  - exists so. split; [done|]. eapply wf_at_ext; [|exact Hwf].
    pose proof Hwf as ([d Hd] & Ht & _).
    intros a Ha. apply Hkeep.
    + intros ->. specialize (Hnew s' (or_introl eq_refl)).
      destruct Ha as [->|Hin]; [congruence|].
      destruct (repr_lookup h so t s' Ht Hin) as [? ?]. congruence.
    + intros Hin. specialize (Hnew a (or_intror Hin)).
      destruct Ha as [->|Hin']; [congruence|].
      destruct (repr_lookup h so t a Ht Hin') as [? ?]. congruence.
  - intros a [[= ->]|Hin]; apply Hnew; auto.
  - rewrite (traverse_Inorder h' _ t' fuel) by (by exists s' || lia). by rewrite Hel.
Qed.

(** X16: copy assignment from another container first runs the
    destructor's release on the target, after which every node of the
    target, the sentinel included, is free, and then builds a deep copy of
    the source: the target holds a tree of the same shape and values in
    nodes of its own, the counter is the source's, and the source is left
    as it was.  A slot of the old target is afterwards free or reused by
    the copy, and slots of neither are unchanged. *)
Theorem copy_assign_replaces_by_deep_copy h b other tb to fuel :
  wf h b tb → wf h other to →
  (∀ a, Some a = root_ b ∨ a ∈ addrs tb → Some a ≠ root_ other ∧ a ∉ addrs to) →
  tsize tb < fuel → tsize to < fuel →
  ∃ h1 h' b' t',
    BST_destroy fuel h b = Ok h1
    ∧ (∀ a, Some a = root_ b ∨ a ∈ addrs tb → h1 !! a = None)
    ∧ BST_copy T0 fuel h1 other = Ok (h', b')
    ∧ BST_copy_assign T0 false fuel h b other = Ok (h', b')
    ∧ wf h' b' t' ∧ same_shape to t' ∧ size_ b' = size_ other
    ∧ wf h' other to
    ∧ (∀ a, Some a = root_ b' ∨ a ∈ addrs t' → Some a ≠ root_ other ∧ a ∉ addrs to)
    ∧ (∀ a, Some a = root_ b ∨ a ∈ addrs tb →
            h' !! a = None ∨ Some a = root_ b' ∨ a ∈ addrs t')
    ∧ (∀ a, Some a ≠ root_ b → a ∉ addrs tb → Some a ≠ root_ b' → a ∉ addrs t' →
            h' !! a = h !! a)
    ∧ traverse Inorder fuel h' b' = Ok (elems to).
Proof.
  intros (s & Hb & Hwf) (so & Ho & Hwfo) Hdisj Hf Hfo.
  destruct (BST_destroy_spec h b s tb fuel Hb Hwf Hf) as (h1 & Hrun & Hfree & Hkeep).
  assert (Hwfo1 : wf_at h1 so to).
  { eapply wf_at_ext; [|exact Hwfo]. intros a Ha. apply Hkeep.
    - intros ->. destruct (Hdisj s) as [Hne Hnot]; [left; congruence|].
      destruct Ha as [->|Hin]; [by rewrite Ho in Hne|done].
    - intros Hin. destruct (Hdisj a (or_intror Hin)) as [Hne Hnot].
      destruct Ha as [->|Hin']; [by rewrite Ho in Hne|done]. }
  destruct (BST_copy_spec h1 other so to fuel Ho Hwfo1 Hfo)
    as (h' & s' & t' & Hrun' & Hwf' & Hsh & Hnew & Hkeep').
  destruct (same_shape_inorder to t' Hsh) as [Hel Hts].
  pose proof Hwfo1 as ([d Hd] & Hto & _).
  assert (Hapart : ∀ a, a = s' ∨ a ∈ addrs t' → a ≠ so ∧ a ∉ addrs to).
  { intros a Ha. specialize (Hnew a Ha). split.
    - intros ->. congruence.
    - intros Hin. destruct (repr_lookup h1 so to a Hto Hin) as [? ?]. congruence. }
  exists h1, h', (mkBST (Some s') (size_ other)), t'. split_and!; try done.
  - intros a [Ha|Hin]; apply Hfree; [left; congruence|by right].
  - unfold BST_copy_assign. unfold BST_destroy in Hrun. rewrite Hrun, bind_Ok. exact Hrun'.
  - by exists s'.
  - exists so. split; [done|]. eapply wf_at_ext; [|exact Hwfo1].
    intros a Ha. apply Hkeep'.
    + intros ->. destruct (Hapart s' (or_introl eq_refl)) as [Hne Hnot].
      destruct Ha as [->|Hin]; done.
    + intros Hin. destruct (Hapart a (or_intror Hin)) as [Hne Hnot].
      destruct Ha as [->|Hin']; done.
  - intros a Ha. rewrite Ho. cbn [root_] in Ha.
    destruct (Hapart a) as [Hne Hnot]; [destruct Ha as [[= ->]|Hin]; auto|].
    split; [congruence|done].
  - intros a Ha. cbn [root_].
    assert (Hfa : h1 !! a = None).
    { destruct Ha as [Ha|Hin]; apply Hfree; [left; congruence|by right]. }
    destruct (decide (a = s')) as [->|Hne]; [by right; left|].
    destruct (decide (a ∈ addrs t')) as [Hin|Hnin]; [by right; right|].
    left. by rewrite Hkeep'.
  - intros a Hna Hnin Hna' Hnin'. cbn [root_] in Hna'.
    rewrite Hkeep' by (done || congruence). apply Hkeep; [congruence|done].
  - rewrite (traverse_Inorder h' _ t' fuel) by (by exists s' || lia). by rewrite Hel.
Qed.

(** ** The comparator is a strict weak ordering *)

Hypothesis comp_asym : ∀ x y, comp x y = true → comp y x = false.
Hypothesis comp_negtrans :
  ∀ x y z, comp x z = true → comp x y = true ∨ comp y z = true.

Lemma bst_inv_spec_insert a v t : bst_inv comp t → bst_inv comp (spec_insert comp a v t).
Proof.
  induction t as [|l IHl p x r IHr]; simpl.
  - intros _. split_and!; done.
  - intros (Hl & Hr & Il & Ir). destruct (comp v x) eqn:E; simpl; split_and!; auto.
    + rewrite elems_spec_insert. constructor; [by apply comp_asym|done].
    + rewrite elems_spec_insert. by constructor.
Qed.

Lemma bst_inv_non_decreasing t : bst_inv comp t → non_decreasing comp (elems t).
Proof.
  unfold non_decreasing. induction t as [|l IHl p x r IHr]; simpl.
  - intros _. constructor.
  - intros (Hl & Hr & Il & Ir). rewrite elems_Tr.
    apply StronglySorted_app. split_and!; [|by apply IHl|].
    + intros y z Hy Hz. rewrite Forall_forall in Hl, Hr.
      apply elem_of_cons in Hz as [->|Hz]; [by apply Hl|].
      destruct (comp z y) eqn:E; [|done].
      destruct (comp_negtrans z x y E) as [H|H].
      * by rewrite (Hr z Hz) in H.
      * by rewrite (Hl y Hy) in H.
    + apply StronglySorted_cons. split; [done|by apply IHr].
Qed.

(** ** A sequence of insertions *)

Lemma size_ok_insert b t a v :
  size_ok b t → (N.of_nat (tsize t) + 1 < size_t_max)%N →
  size_ok (mkBST (root_ b) (size_t_incr (size_ b))) (spec_insert comp a v t).
Proof.
  unfold size_ok. simpl. intros -> Hmax. rewrite tsize_spec_insert.
  unfold size_t_incr. rewrite N.mod_small; lia.
Qed.

Lemma BST_insert_range_spec h b t (vs : list T) fuel :
  wf h b t → bst_inv comp t →
  tsize t + length vs ≤ fuel →
  ∃ h' b' t',
    BST_insert_range comp T0 fuel h b vs = Ok (h', b')
    ∧ wf h' b' t' ∧ bst_inv comp t'
    ∧ elems t' ≡ₚ vs ++ elems t
    ∧ tsize t' = tsize t + length vs
    ∧ (size_ok b t → (N.of_nat (tsize t + length vs) < size_t_max)%N →
       size_ok b' t').
Proof.
  revert h b t. induction vs as [|v vs IH]; intros h b t Hwf Hinv Hf.
  - exists h, b, t. simpl. split_and!; auto; lia.
  - simpl in Hf.
    destruct (BST_insert_spec h b t v fuel Hwf ltac:(lia)) as (h1 & a & par & Hins & _ & _ & Hwf1).
    destruct (IH h1 _ (spec_insert comp a v t) Hwf1) as (h' & b' & t' & Hrun & Hwf' & Hinv' & Hperm & Hts & Hsz').
    + by apply bst_inv_spec_insert.
    + rewrite tsize_spec_insert. lia.
    + exists h', b', t'. cbn [BST_insert_range]. rewrite Hins, bind_Ok.
      split_and!; [done|done|done| | |].
      * rewrite Hperm, elems_spec_insert. simpl. by rewrite <- Permutation_middle.
      * rewrite Hts, tsize_spec_insert. simpl. lia.
      * intros Hsz Hmax. simpl in Hmax. apply Hsz'.
        -- apply size_ok_insert; [done|lia].
        -- rewrite tsize_spec_insert. by replace (S (tsize t) + length vs) with (tsize t + S (length vs)) by lia.
Qed.

(** ** The abstract tree under deletion *)

Lemma bst_inv_graft l r x :
  bst_inv comp l → bst_inv comp r →
  Forall (λ y, comp x y = false) (elems l) →
  Forall (λ y, comp y x = false) (elems r) →
  bst_inv comp (graft l r).
Proof.
  intros Il Ir Hl Hr. induction r as [|rl IHl p y rr _]; [done|].
  destruct Ir as (Hrl & Hrr & Irl & Irr). rewrite elems_Tr in Hr.
  apply Forall_app in Hr as [Hr1 Hr2]. apply Forall_cons in Hr2 as [Hy Hr2].
  simpl. split_and!; [|done|by apply IHl|done].
  unfold elems. rewrite inorder_graft, fmap_app. apply Forall_app. split; [|done].
  eapply Forall_impl; [exact Hl|]. intros z Hz. simpl in Hz.
  destruct (comp y z) eqn:E; [|done].
  destruct (comp_negtrans y x z E) as [H|H]; congruence.
Qed.

Lemma bst_inv_delete_root l a x r :
  bst_inv comp (Tr l a x r) → bst_inv comp (spec_delete_root l r).
Proof.
  intros (Hl & Hr & Il & Ir).
  destruct l as [|ll la lx lr], r as [|rl ra rx rr]; cbn [spec_delete_root]; try done.
  by apply (bst_inv_graft _ _ x).
Qed.

Lemma bst_inv_fill f t : bst_inv comp (fill f t) → bst_inv comp t.
Proof. destruct f; simpl; tauto. Qed.

Lemma bst_inv_plug c t : bst_inv comp (plug c t) → bst_inv comp t.
Proof.
  revert t. induction c as [|f c IH]; intros t; simpl; [done|].
  intros H. by eapply bst_inv_fill, IH.
Qed.

(** Replacing a subtree by one with no new values keeps the invariant. *)
Lemma bst_inv_plug_sub c t t' :
  bst_inv comp (plug c t) → bst_inv comp t' →
  (∀ y, y ∈ elems t' → y ∈ elems t) →
  bst_inv comp (plug c t').
Proof.
  revert t t'. induction c as [|f c IH]; intros t t' Hinv Ht' Hsub; simpl in *; [done|].
  apply (IH (fill f t)); [done| |].
  - apply bst_inv_plug in Hinv.
    destruct f as [a x r|l a x]; simpl in *; destruct Hinv as (Hl & Hr & Il & Ir);
      split_and!; try done.
    + rewrite Forall_forall in Hl |- *. auto.
    + rewrite Forall_forall in Hr |- *. auto.
  - intros y. destruct f as [a x r|l a x]; simpl; rewrite !elems_Tr;
      rewrite !elem_of_app, !elem_of_cons; naive_solver.
Qed.

(** C1: for every sequence of values inserted into a new container, the
    in-order loop from [begin()] to [end()] visits exactly the inserted
    values, each as often as it was inserted, and in non-decreasing order
    under the comparator. *)
Theorem inorder_visits_inserted_values_sorted h0 (vs : list T) fuel :
  length vs < fuel →
  ∃ h b out,
    BST_insert_range comp T0 fuel (BST_new T0 h0).1 (BST_new T0 h0).2 vs
      = Ok (h, b)
    ∧ traverse Inorder fuel h b = Ok out
    ∧ out ≡ₚ vs
    ∧ non_decreasing comp out.
Proof.
  intros Hf.
  destruct (BST_insert_range_spec _ _ Leaf vs fuel (BST_new_wf h0) I)
    as (h & b & t & Hrun & Hwf & Hinv & Hperm & Hts & _); [simpl; lia|].
  exists h, b, (elems t). split_and!.
  - done.
  - apply traverse_Inorder; [done|]. rewrite Hts. simpl. lia.
  - rewrite Hperm. unfold elems. simpl. by rewrite app_nil_r.
  - by apply bst_inv_non_decreasing.
Qed.

(** C6: the tree invariant (nothing in a left subtree is greater than the
    node, nothing in a right subtree is less) is kept by every [insert]
    and by every [DeleteNode]; deletion puts [spec_delete_root] of the two
    subtrees in the node's place, which for a node with two children is
    its right subtree with its left subtree hung as the left child of the
    right subtree's minimum; the tree then holds the former values less
    the deleted one. *)
Theorem tree_invariant_preserved h b t :
  wf h b t → bst_inv comp t →
  (∀ v fuel, tsize t ≤ fuel →
     ∃ h' b' a,
       BST_insert comp T0 fuel h b v = Ok (h', b', (Some a, true))
       ∧ wf h' b' (spec_insert comp a v t)
       ∧ bst_inv comp (spec_insert comp a v t)
       ∧ elems (spec_insert comp a v t) ≡ₚ v :: elems t)
  ∧ (∀ a x fuel, (a, x) ∈ inorder t → tsize t ≤ fuel →
     ∃ h' c l r,
       t = plug c (Tr l a x r)
       ∧ BST_DeleteNode fuel h (Some a) = Ok h'
       ∧ h' !! a = None
       ∧ wf h' b (plug c (spec_delete_root l r))
       ∧ bst_inv comp (plug c (spec_delete_root l r))
       ∧ elems t ≡ₚ x :: elems (plug c (spec_delete_root l r))
       ∧ (l ≠ Leaf → r ≠ Leaf → spec_delete_root l r = graft l r)).
Proof.
  intros Hwf Hinv. split.
  - intros v fuel Hf.
    destruct (BST_insert_spec h b t v fuel Hwf Hf) as (h' & a & par & Hrun & _ & _ & Hwf').
    eexists h', _, a. split_and!; [done|done| |].
    + by apply bst_inv_spec_insert.
    + apply elems_spec_insert.
  - intros a x fuel Hin Hf. destruct Hwf as (s & Hb & Hwf).
    apply list_elem_of_split in Hin as (pre & suf & Hsplit).
    destruct (focus_split t [] pre a x suf Hsplit) as (c & l & r & Hp & _ & _).
    simpl in Hp. subst t.
    pose proof (tsize_plug c (Tr l a x r)) as Hsz. simpl in Hsz.
    destruct (BST_DeleteNode_spec h s c l a x r fuel Hwf ltac:(lia))
      as (h' & Hrun & Hfree & Hwf').
    exists h', c, l, r. split_and!; [done|done|done|by exists s| | |].
    + apply (bst_inv_plug_sub c (Tr l a x r)); [done| |].
      * eapply bst_inv_delete_root, bst_inv_plug, Hinv.
      * intros y. rewrite elems_delete_root, elems_Tr.
        rewrite !elem_of_app, elem_of_cons. tauto.
    + rewrite !elems_plug, elems_delete_root, elems_Tr. by solve_Permutation.
    + intros Hl Hr. by destruct l, r.
Qed.

(** ** The strict form of the invariant, and [count] *)

Lemma comp_irrefl x : comp x x = false.
Proof. destruct (comp x x) eqn:E; [|done]. by rewrite (comp_asym x x E) in E. Qed.

Lemma bst_strict_inv t : bst_strict comp t → bst_inv comp t.
Proof.
  induction t as [|l IHl p x r IHr]; simpl; [done|].
  intros (Hl & Hr & Il & Ir). split_and!; auto.
  eapply Forall_impl; [exact Hl|]. intros y Hy. by apply comp_asym.
Qed.

Lemma bst_strict_spec_insert a v t :
  bst_strict comp t → bst_strict comp (spec_insert comp a v t).
Proof.
  induction t as [|l IHl p x r IHr]; simpl.
  - intros _. split_and!; done.
  - intros (Hl & Hr & Il & Ir). destruct (comp v x) eqn:E; simpl; split_and!; auto.
    + rewrite elems_spec_insert. by constructor.
    + rewrite elems_spec_insert. by constructor.
Qed.

Lemma bst_strict_graft l r x :
  bst_strict comp l → bst_strict comp r →
  Forall (λ y, comp y x = true) (elems l) →
  Forall (λ y, comp y x = false) (elems r) →
  bst_strict comp (graft l r).
Proof.
  intros Il Ir Hl Hr. induction r as [|rl IHl p y rr _]; [done|].
  destruct Ir as (Hrl & Hrr & Irl & Irr). rewrite elems_Tr in Hr.
  apply Forall_app in Hr as [Hr1 Hr2]. apply Forall_cons in Hr2 as [Hy Hr2].
  simpl. split_and!; [|done|by apply IHl|done].
  unfold elems. rewrite inorder_graft, fmap_app. apply Forall_app. split; [|done].
  eapply Forall_impl; [exact Hl|]. intros z Hz. simpl in Hz.
  destruct (comp_negtrans z y x Hz) as [H|H]; congruence.
Qed.

Lemma bst_strict_delete_root l a x r :
  bst_strict comp (Tr l a x r) → bst_strict comp (spec_delete_root l r).
Proof.
  intros (Hl & Hr & Il & Ir).
  destruct l as [|ll la lx lr], r as [|rl ra rx rr]; cbn [spec_delete_root]; try done.
  by apply (bst_strict_graft _ _ x).
Qed.

Lemma bst_strict_plug c t : bst_strict comp (plug c t) → bst_strict comp t.
Proof.
  revert t. induction c as [|f c IH]; intros t; simpl; [done|].
  intros H. apply IH in H. destruct f; simpl in H; tauto.
Qed.

Lemma bst_strict_plug_sub c t t' :
  bst_strict comp (plug c t) → bst_strict comp t' →
  (∀ y, y ∈ elems t' → y ∈ elems t) →
  bst_strict comp (plug c t').
Proof.
  revert t t'. induction c as [|f c IH]; intros t t' Hinv Ht' Hsub; simpl in *; [done|].
  apply (IH (fill f t)); [done| |].
  - apply bst_strict_plug in Hinv.
    destruct f as [a x r|l a x]; simpl in *; destruct Hinv as (Hl & Hr & Il & Ir);
      split_and!; try done.
    + rewrite Forall_forall in Hl |- *. auto.
    + rewrite Forall_forall in Hr |- *. auto.
  - intros y. destruct f as [a x r|l a x]; simpl; rewrite !elems_Tr;
      rewrite !elem_of_app, !elem_of_cons; naive_solver.
Qed.

(** X19: every value in a left subtree is strictly less than the node, so
    values equal to a node's are found only in its right subtree; the empty
    tree has this form, [insert] and [DeleteNode] keep it, and it implies
    the invariant of the specification. *)
Theorem equal_values_stay_right h b t :
  wf h b t → bst_strict comp t →
  bst_inv comp t
  ∧ bst_strict comp (Leaf : tree)
  ∧ (∀ v fuel, tsize t ≤ fuel →
     ∃ h' b' a,
       BST_insert comp T0 fuel h b v = Ok (h', b', (Some a, true))
       ∧ wf h' b' (spec_insert comp a v t)
       ∧ bst_strict comp (spec_insert comp a v t))
  ∧ (∀ a x fuel, (a, x) ∈ inorder t → tsize t ≤ fuel →
     ∃ h' c l r,
       t = plug c (Tr l a x r)
       ∧ BST_DeleteNode fuel h (Some a) = Ok h'
       ∧ wf h' b (plug c (spec_delete_root l r))
       ∧ bst_strict comp (plug c (spec_delete_root l r))).
Proof.
  intros Hwf Hinv. split_and!; [by apply bst_strict_inv|done| |].
  - intros v fuel Hf.
    destruct (BST_insert_spec h b t v fuel Hwf Hf) as (h' & a & par & Hrun & _ & _ & Hwf').
    eexists h', _, a. split_and!; [done|done|]. by apply bst_strict_spec_insert.
  - intros a x fuel Hin Hf. destruct Hwf as (s & Hb & Hwf).
    apply list_elem_of_split in Hin as (pre & suf & Hsplit).
    destruct (focus_split t [] pre a x suf Hsplit) as (c & l & r & Hp & _ & _).
    simpl in Hp. subst t.
    pose proof (tsize_plug c (Tr l a x r)) as Hsz. simpl in Hsz.
    destruct (BST_DeleteNode_spec h s c l a x r fuel Hwf ltac:(lia))
      as (h' & Hrun & Hfree & Hwf').
    exists h', c, l, r. split_and!; [done|done|by exists s|].
    apply (bst_strict_plug_sub c (Tr l a x r)); [done| |].
    + eapply bst_strict_delete_root, bst_strict_plug, Hinv.
    + intros y. rewrite elems_delete_root, elems_Tr.
      rewrite !elem_of_app, elem_of_cons. tauto.
Qed.

Lemma occurrences_cons_ne v x (vs : list T) :
  x ≠ v → occurrences v (x :: vs) = occurrences v vs.
Proof. intros H. unfold occurrences. by rewrite filter_cons_False. Qed.

Lemma BST_count_loop_spec h par t v fuel k :
  repr h par t → bst_strict comp t → tsize t ≤ fuel →
  BST_count_loop comp fuel h v (rootp t) k
  = Ok (Nat.iter (occurrences v (elems t)) size_t_incr k).
Proof.
  revert par fuel k. induction t as [|l IHl p x r IHr]; intros par fuel k Ht Hinv Hf.
  - by destruct fuel.
  - destruct fuel as [|fuel]; [simpl in Hf; lia|]. simpl in Hf.
    destruct Ht as (Hp & Hl & Hr). destruct Hinv as (Fl & Fr & Il & Ir).
    rewrite Forall_forall in Fl, Fr.
    cbn [BST_count_loop rootp]. run.
    rewrite elems_Tr, occurrences_app.
    destruct (decide (x = v)) as [->|Hne].
    + rewrite comp_irrefl.
      rewrite (occurrences_absent v (elems l)).
      2:{ intros Hin. apply Fl in Hin. by rewrite comp_irrefl in Hin. }
      rewrite occurrences_cons_eq, Nat.add_0_l, Nat.iter_succ_r.
      apply (IHr p fuel); [done|done|lia].
    + rewrite occurrences_cons_ne by done.
      destruct (comp v x) eqn:E.
      * rewrite (occurrences_absent v (elems r)).
        2:{ intros Hin. apply Fr in Hin. congruence. }
        rewrite Nat.add_0_r. apply (IHl p fuel); [done|done|lia].
      * rewrite (occurrences_absent v (elems l)).
        2:{ intros Hin. apply Fl in Hin. congruence. }
        apply (IHr p fuel); [done|done|lia].
Qed.

(** X20: on a tree in the strict form, which is what insertions and
    deletions produce, [count(value)] is the number of stored values equal
    to [value]. *)
Theorem count_counts_occurrences h b t v fuel :
  wf h b t → bst_strict comp t → tsize t ≤ fuel →
  (N.of_nat (tsize t) < size_t_max)%N →
  BST_count comp fuel h b v = Ok (N.of_nat (occurrences v (elems t))).
Proof.
  intros (s & Hb & ([d Hd] & Ht & _)) Hinv Hf Hmax.
  unfold BST_count. rewrite Hb. run.
  rewrite (BST_count_loop_spec h s t v fuel 0%N Ht Hinv Hf).
  f_equal. apply iter_size_t_incr.
  pose proof (occurrences_le v (elems t)) as Hle.
  unfold elems in Hle at 2. rewrite length_fmap, length_inorder in Hle. lia.
Qed.

(** ** Merging *)

Lemma BST_insert_frame h b s t v fuel :
  root_ b = Some s → wf_at h s t → tsize t ≤ fuel →
  ∃ h' a,
    BST_insert comp T0 fuel h b v
      = Ok (h', mkBST (root_ b) (size_t_incr (size_ b)), (Some a, true))
    ∧ h !! a = None
    ∧ wf_at h' s (spec_insert comp a v t)
    ∧ (∀ a', a' ≠ a → a' ≠ s → a' ∉ addrs t → h' !! a' = h !! a').
Proof.
  intros Hb Hwf Hf.
  set (a := fresh (dom h)).
  assert (Hfresh : h !! a = None) by (apply not_elem_of_dom, is_fresh).
  set (c1 := ins_path comp v t []).
  pose proof Hwf as ([d Hd] & Ht & _).
  assert (Hplug : plug c1 Leaf = t) by (unfold c1; by rewrite ins_path_Leaf).
  assert (Hwf1 : wf_at h s (plug c1 Leaf)) by (by rewrite Hplug).
  apply wf_at_focus in Hwf1 as (_ & Hc1 & Hnd1). simpl in Hc1, Hnd1.
  assert (Hdir : Forall (dir_ok comp v) c1) by (apply ins_path_dir; constructor).
  set (h5 := <[a := mkNode v (Some (ctx_parent s c1)) None None]> h).
  assert (Hold : ∀ a', a' = s ∨ a' ∈ ctx_addrs c1 → a' ≠ a).
  { intros a' Hin ->. destruct (repr_ctx_lookup _ _ _ _ _ Hc1 Hin) as [n Hn]. congruence. }
  assert (Hagree : ∀ a', a' = s ∨ a' ∈ ctx_addrs c1 → h5 !! a' = h !! a').
  { intros a' Hin. unfold h5. rewrite lookup_insert_ne; [done|].
    intros ->. by apply (Hold a'). }
  destruct (BST_insert_link h h5 s v c1 a Hc1 Hdir Hagree) as (pn & Hpn & Hld & Hlink).
  assert (Hpar : ctx_parent s c1 ≠ a).
  { apply Hold. destruct c1 as [|[]]; simpl; [by left|right; set_solver..]. }
  exists (<[ctx_parent s c1 := set_hole c1 (Some a) pn]> h5), a.
  split_and!.
  - unfold BST_insert. rewrite Hb. run.
    pose proof (BST_insert_loop_spec h s v t [] fuel Ht Hf) as Hloop.
    cbn [ctx_parent] in Hloop. rewrite Hloop, bind_Ok. fold c1.
    unfold alloc_node. fold a. do 4 rewrite store_insert, bind_Ok.
    match goal with
    | |- context [<[a := ?n]> h] => change (<[a := n]> h) with h5
    end.
    by rewrite Hld, bind_Ok, Hlink.
  - done.
  - change (spec_insert comp a v t) with (plug [] (spec_insert comp a v t)).
    rewrite <- (ins_path_insert a v t []). fold c1. apply wf_at_unfocus.
    + simpl. split_and!; [|done|done].
      rewrite lookup_insert_ne by done. unfold h5. by rewrite lookup_insert_eq.
    + apply (repr_ctx_set_hole h _ s c1 None (Some a) pn); [done| |done| |].
      * by apply NoDup_cons in Hnd1 as [? ?]; apply NoDup_cons.
      * by rewrite lookup_insert_eq.
      * intros a' Hne Hin. rewrite lookup_insert_ne by done. by apply Hagree.
    + unfold addrs. simpl. apply NoDup_cons in Hnd1 as [Hs Hnd1].
      apply NoDup_cons. split.
      * apply not_elem_of_cons. split; [apply Hold; auto|done].
      * apply NoDup_cons. split; [|done]. intros Hin. by apply (Hold a); [right|].
  - intros a' Hne Hns Hnot.
    assert (Hnp : ctx_parent s c1 ≠ a').
    { intros <-. destruct (ctx_parent_in s c1) as [E|Hin]; [done|].
      apply Hnot. rewrite <- Hplug, addrs_plug. set_solver. }
    rewrite lookup_insert_ne by done. unfold h5. by rewrite lookup_insert_ne.
Qed.

Lemma BST_insert_iter_spec h b s so tb to pre suf fuel0 fuel :
  root_ b = Some s → wf_at h s tb → wf_at h so to → bst_inv comp tb →
  (∀ a, a = so ∨ a ∈ addrs to → a ≠ s ∧ a ∉ addrs tb) →
  inorder to = pre ++ suf →
  tsize tb + length suf ≤ fuel0 → tsize to < fuel0 → length suf < fuel →
  ∃ h' b' t',
    BST_insert_iter comp T0 fuel0 fuel h b (Some (hd so suf.*1)) (Some so) = Ok (h', b')
    ∧ root_ b' = Some s ∧ wf_at h' s t' ∧ wf_at h' so to ∧ bst_inv comp t'
    ∧ elems t' ≡ₚ suf.*2 ++ elems tb
    ∧ tsize t' = tsize tb + length suf
    ∧ size_ b' = Nat.iter (length suf) size_t_incr (size_ b)
    ∧ (size_ok b tb → (N.of_nat (tsize tb + length suf) < size_t_max)%N →
       size_ok b' t').
Proof.
  revert h b tb pre fuel.
  induction suf as [|[q x] suf IH]; intros h b tb pre fuel Hb Hwf Hwfo Hinv Hdisj Hsplit Hf0 Hfo Hf.
  - destruct fuel as [|fuel]; [simpl in Hf; lia|]. simpl.
    rewrite decide_True by done. exists h, b, tb.
    split_and!; done.
  - destruct fuel as [|fuel]; [simpl in Hf; lia|]. simpl in Hf0, Hf.
    destruct (step_Inorder h so to pre q x suf fuel0 Hwfo Hsplit Hfo) as (Hne & Hd & _).
    destruct (BST_insert_frame h b s tb x fuel0 Hb Hwf ltac:(lia))
      as (h1 & a1 & Hrun & Hfree & Hwf1 & Hframe).
    pose proof Hwfo as ([d Hds] & Hto & _).
    assert (Hother : ∀ a', a' = so ∨ a' ∈ addrs to → a' ≠ a1).
    { intros a' [->|Hin] ->; [congruence|].
      destruct (repr_lookup h so to a1 Hto Hin) as [? ?]. congruence. }
    assert (Hwfo1 : wf_at h1 so to).
    { eapply wf_at_ext; [|exact Hwfo]. intros a' Ha'.
      destruct (Hdisj a' Ha') as [Hns Hnot]. apply Hframe; [by apply Hother|done|done]. }
    destruct (step_Inorder h1 so to pre q x suf fuel0 Hwfo1 Hsplit Hfo) as (_ & _ & Hadd).
    set (b1 := mkBST (root_ b) (size_t_incr (size_ b))) in *.
    destruct (IH h1 b1 (spec_insert comp a1 x tb) (pre ++ [(q, x)]) fuel)
      as (h' & b' & t' & Hrun' & Hb' & Hwf' & Hwfo' & Hinv' & Hperm & Hts & Hit & Hsz');
      [done|done|done|by apply bst_inv_spec_insert| |by rewrite <- app_assoc
      |rewrite tsize_spec_insert; lia|done|lia|].
    { intros a' Ha'. destruct (Hdisj a' Ha') as [Hns Hnot]. split; [done|].
      rewrite addrs_spec_insert. apply not_elem_of_cons. split; [by apply Hother|done]. }
    exists h', b', t'. split_and!; [|done|done|done|done| | | |].
    + cbn [BST_insert_iter fmap list_fmap hd fst].
      rewrite decide_False by congruence.
      rewrite Hd, bind_Ok, Hrun, bind_Ok. cbn [Add]. rewrite Hadd, bind_Ok. exact Hrun'.
    + rewrite Hperm, elems_spec_insert. simpl. by rewrite <- Permutation_middle.
    + rewrite Hts, tsize_spec_insert. simpl. lia.
    + rewrite Hit. cbn [b1 size_ length]. by rewrite Nat.iter_succ_r.
    + intros Hsz Hmax. simpl in Hmax. apply Hsz'.
      * apply size_ok_insert; [done|lia].
      * rewrite tsize_spec_insert.
        by replace (S (tsize tb) + length suf) with (tsize tb + S (length suf)) by lia.
Qed.

(** X22: [merge(other)] inserts a copy of every value of [other], taken in
    in-order, into the target; the source keeps all its nodes, and the
    target then holds the values of both, which its in-order loop yields in
    non-decreasing order.  The target's counter is incremented once for
    every node of the source, whatever the two counters were; it is the sum
    of the two [size()]s when both counters count their nodes and the sum
    fits [size_t]. *)
Theorem merge_copies_the_values h b other tb to fuel :
  wf h b tb → wf h other to → bst_inv comp tb →
  (∀ a, Some a = root_ other ∨ a ∈ addrs to → Some a ≠ root_ b ∧ a ∉ addrs tb) →
  tsize tb + tsize to < fuel →
  ∃ h' b' out,
    BST_merge comp T0 fuel h b other = Ok (h', b')
    ∧ wf h' other to
    ∧ traverse Inorder fuel h' b' = Ok out
    ∧ out ≡ₚ elems to ++ elems tb
    ∧ non_decreasing comp out
    ∧ BST_size b' = Nat.iter (tsize to) size_t_incr (BST_size b)
    ∧ (size_ok b tb → size_ok other to →
       (N.of_nat (tsize tb + tsize to) < size_t_max)%N →
       BST_size b' = (BST_size b + BST_size other)%N).
Proof.
  intros (s & Hb & Hwf) (so & Ho & Hwfo) Hinv Hdisj Hf.
  assert (Hdisj' : ∀ a, a = so ∨ a ∈ addrs to → a ≠ s ∧ a ∉ addrs tb).
  { intros a Ha. destruct (Hdisj a) as [Hne Hnot].
    - destruct Ha as [->|Hin]; auto.
    - split; [congruence|done]. }
  destruct (BST_insert_iter_spec h b s so tb to [] (inorder to) fuel fuel)
    as (h' & b' & t' & Hrun & Hb' & Hwf' & Hwfo' & Hinv' & Hperm & Hts & Hit & Hsz);
    [done|done|done|done|done|done|rewrite length_inorder; lia|lia
    |rewrite length_inorder; lia|].
  rewrite length_inorder in Hts, Hit, Hsz.
  exists h', b', (elems t'). split_and!.
  - unfold BST_merge. cbn [BST_begin].
    rewrite (BST_Leftmost_spec h so to other fuel Hwfo Ho) by lia. rewrite bind_Ok.
    unfold BST_end. rewrite Ho. exact Hrun.
  - by exists so.
  - apply traverse_Inorder; [by exists s|lia].
  - exact Hperm.
  - by apply bst_inv_non_decreasing.
  - exact Hit.
  - intros Hsok Hsoo Hmax. unfold BST_size. rewrite (Hsz Hsok Hmax), Hts.
    unfold size_ok in Hsok, Hsoo. rewrite Hsok, Hsoo. lia.
Qed.

(** ** Assignment from a list *)

Lemma BST_insert_range_frame h b s t (vs : list T) fuel :
  root_ b = Some s → wf_at h s t → bst_inv comp t →
  tsize t + length vs ≤ fuel →
  ∃ h' b' t',
    BST_insert_range comp T0 fuel h b vs = Ok (h', b')
    ∧ root_ b' = Some s ∧ wf_at h' s t' ∧ bst_inv comp t'
    ∧ elems t' ≡ₚ vs ++ elems t
    ∧ tsize t' = tsize t + length vs
    ∧ size_ b' = Nat.iter (length vs) size_t_incr (size_ b)
    ∧ (∀ a, a ≠ s → a ∉ addrs t' → h' !! a = h !! a)
    ∧ (∀ a, a ∈ addrs t → a ∈ addrs t').
Proof.
  revert h b t. induction vs as [|v vs IH]; intros h b t Hb Hwf Hinv Hf.
  - exists h, b, t. simpl. split_and!; auto.
  - simpl in Hf.
    destruct (BST_insert_frame h b s t v fuel Hb Hwf ltac:(lia))
      as (h1 & a1 & Hins & Hfree & Hwf1 & Hframe).
    destruct (IH h1 (mkBST (root_ b) (size_t_incr (size_ b))) (spec_insert comp a1 v t))
      as (h' & b' & t' & Hrun & Hb' & Hwf' & Hinv' & Hperm & Hts & Hsz & Hfr' & Hincl);
      [done|done|by apply bst_inv_spec_insert|rewrite tsize_spec_insert; lia|].
    exists h', b', t'. cbn [BST_insert_range]. rewrite Hins, bind_Ok.
    split_and!; [done|done|done|done| | | | |].
    + rewrite Hperm, elems_spec_insert. simpl. by rewrite <- Permutation_middle.
    + rewrite Hts, tsize_spec_insert. simpl. lia.
    + rewrite Hsz. cbn [size_ length]. by rewrite Nat.iter_succ_r.
    + intros a Hne Hnot.
      assert (Hn1 : a ∉ addrs (spec_insert comp a1 v t)) by (intros Hin; by apply Hnot, Hincl).
      rewrite addrs_spec_insert in Hn1. apply not_elem_of_cons in Hn1 as [Hna Hnt].
      rewrite Hfr' by done. by apply Hframe.
    + intros a Hin. apply Hincl. rewrite addrs_spec_insert. by apply elem_of_cons; right.
Qed.

(** X21: assigning a list of values first clears the container, after
    which every old data node is free, and then inserts the values of the
    list into the same sentinel: the in-order loop yields exactly the
    values of the list, in non-decreasing order, and [size()] is the length
    of the list.  A slot of an old data node is afterwards free or reused
    by a new node. *)
Theorem assign_list_replaces_contents h b t (ilist : list T) fuel :
  wf h b t → tsize t ≤ fuel → length ilist < fuel →
  ∃ h1 h' b' t',
    BST_clear fuel h b = Ok (h1, mkBST (root_ b) 0)
    ∧ (∀ a, a ∈ addrs t → h1 !! a = None)
    ∧ BST_assign_list comp T0 fuel h b ilist = Ok (h', b')
    ∧ wf h' b' t' ∧ root_ b' = root_ b
    ∧ traverse Inorder fuel h' b' = Ok (elems t')
    ∧ elems t' ≡ₚ ilist
    ∧ non_decreasing comp (elems t')
    ∧ ((N.of_nat (length ilist) < size_t_max)%N →
       BST_size b' = N.of_nat (length ilist))
    ∧ (∀ a, a ∈ addrs t → h' !! a = None ∨ a ∈ addrs t').
Proof.
  intros (s & Hb & Hwf) Hf Hlen.
  destruct (BST_clear_spec h b s t fuel Hb Hwf Hf) as (h1 & Hrun1 & Hwf1 & Hfree & _).
  destruct (BST_insert_range_frame h1 (mkBST (Some s) 0) s Leaf ilist fuel eq_refl Hwf1 I)
    as (h' & b' & t' & Hrun & Hb' & Hwf' & Hinv & Hperm & Hts & Hsz & Hframe & _);
    [simpl; lia|].
  exists h1, h', b', t'. rewrite Hb. split_and!.
  - done.
  - done.
  - unfold BST_assign_list. by rewrite Hrun1, bind_Ok.
  - by exists s.
  - done.
  - apply traverse_Inorder; [by exists s|]. rewrite Hts. simpl. lia.
  - rewrite Hperm. unfold elems. simpl. by rewrite app_nil_r.
  - by apply bst_inv_non_decreasing.
  - intros Hmax. unfold BST_size. rewrite Hsz. cbn [size_]. by apply iter_size_t_incr.
  - intros a Hin.
    destruct (decide (a ∈ addrs t')) as [Hin'|Hnin]; [by right|]. left.
    assert (Has : a ≠ s) by (intros ->; by apply (wf_at_sentinel_notin h s t Hwf)).
    rewrite Hframe by done. by apply Hfree.
Qed.

End BST_proofs.

(** * Runs on [BST<int>] *)

Lemma Zlt_asym (x y : Z) : (x <? y)%Z = true → (y <? x)%Z = false.
Proof. intros H. apply Z.ltb_lt in H. apply Z.ltb_ge. lia. Qed.

Lemma Zlt_negtrans (x y z : Z) :
  (x <? z)%Z = true → (x <? y)%Z = true ∨ (y <? z)%Z = true.
Proof. intros H. apply Z.ltb_lt in H. rewrite !Z.ltb_lt. lia. Qed.

Ltac zwf t :=
  exists 0; split; [reflexivity|]; unfold wf_at, t; split;
  [ eexists; vm_compute; reflexivity | split ];
  [ cbn [repr rootp]; repeat split; vm_compute; reflexivity
  | apply (bool_decide_unpack _); vm_compute; exact I ].

Lemma Zwf426 : wf (Zh [4;2;6]%Z) (Zb [4;2;6]%Z) Ztree426.
Proof. zwf Ztree426. Defined.

Lemma Zwf21 : wf (Zh [2;1]%Z) (Zb [2;1]%Z) Ztree21.
Proof. zwf Ztree21. Defined.

(** C2: after inserting 4,2,6,1,3,5,7 the in-order loop yields
    1 2 3 4 5 6 7, the pre-order loop 4 2 1 3 6 5 7 and the post-order
    loop 1 3 2 5 7 6 4. *)
Theorem traversals_of_4261357 :
  Ztraverse Inorder [4;2;6;1;3;5;7]%Z = Ok [1;2;3;4;5;6;7]%Z
  ∧ Ztraverse Preorder [4;2;6;1;3;5;7]%Z = Ok [4;2;1;3;6;5;7]%Z
  ∧ Ztraverse Postorder [4;2;6;1;3;5;7]%Z = Ok [1;3;2;5;7;6;4]%Z.
Proof. split_and!; vm_compute; reflexivity. Qed.

(** C3, on the code: stepping forward and then backward does not return to
    the start for the pre-order and the post-order.  After inserting 3,1,2
    the node holding 1 (at address 2) is the second pre-order position; [++]
    takes it to the sentinel, skipping the node holding 2, and [--] from
    there to the node holding 3.  After inserting 3,2,1,4,5 the node holding
    2 (at address 2) is the second post-order position; [++] takes it to the
    node holding 4 and [--] from there to the node holding 5.  A reverse
    pre-order cursor at the node holding 2 (address 3) goes to the node
    holding 1 and then to the sentinel. *)
Theorem forward_then_backward_fails_for_pre_and_post :
  (deref (Zh [3;1;2]%Z) (Some 2) = Ok 1%Z
   ∧ BST_begin Preorder 100 (Zh [3;1;2]%Z) (Zb [3;1;2]%Z) = Ok (Some 1)
   ∧ BST_end Preorder (Zb [3;1;2]%Z) = Some 0
   ∧ Add Preorder 100 (Zh [3;1;2]%Z) (Some 2) = Ok (Some 0)
   ∧ Subtract Preorder 100 (Zh [3;1;2]%Z) (Some 0) = Ok (Some 1))
  ∧ (deref (Zh [3;2;1;4;5]%Z) (Some 2) = Ok 2%Z
     ∧ BST_begin Postorder 100 (Zh [3;2;1;4;5]%Z) (Zb [3;2;1;4;5]%Z) = Ok (Some 3)
     ∧ BST_end Postorder (Zb [3;2;1;4;5]%Z) = Some 0
     ∧ Add Postorder 100 (Zh [3;2;1;4;5]%Z) (Some 2) = Ok (Some 4)
     ∧ Subtract Postorder 100 (Zh [3;2;1;4;5]%Z) (Some 4) = Ok (Some 5))
  ∧ (deref (Zh [3;1;2]%Z) (Some 3) = Ok 2%Z
     ∧ ReverseIterator_incr Preorder 100 (Zh [3;1;2]%Z) (Some 3) = Ok (Some 2)
     ∧ ReverseIterator_decr Preorder 100 (Zh [3;1;2]%Z) (Some 2) = Ok (Some 0)).
Proof. repeat split; vm_compute; reflexivity. Qed.

(** C5, on the code: [swap] exchanges the root pointers but not the
    counters.  With 1 inserted into the first of two containers and the two
    swapped, the first reports size 1 and holds nothing, the second reports
    size 0 and holds the value. *)
Theorem swap_leaves_the_counters_behind :
  ('(h, b1, b2) ← Zswap_run;
   Ok (BST_size b1, BST_empty h b1, traverse Inorder 100 h b1,
       BST_size b2, BST_empty h b2, traverse Inorder 100 h b2))
  = Ok (1%N, Ok true, Ok [], 0%N, Ok false, Ok [1%Z]).
Proof. vm_compute. reflexivity. Qed.

(** C8, on the code: after inserting 1,2 the value 2 is stored (the in-order
    loop yields 1 2, and the in-order [find] returns its node), yet
    [find(2, Preorder)] and [find(2, Postorder)] return [end()]; on the
    empty container [find] with the pre-order dereferences a null
    pointer. *)
Theorem find_misses_stored_value_for_pre_and_post :
  Ztraverse Inorder [1;2]%Z = Ok [1;2]%Z
  ∧ BST_find Inorder 100 (Zh [1;2]%Z) (Zb [1;2]%Z) 2%Z = Ok (Some 2)
  ∧ deref (Zh [1;2]%Z) (Some 2) = Ok 2%Z
  ∧ BST_find Preorder 100 (Zh [1;2]%Z) (Zb [1;2]%Z) 2%Z
    = Ok (BST_end Preorder (Zb [1;2]%Z))
  ∧ BST_find Postorder 100 (Zh [1;2]%Z) (Zb [1;2]%Z) 2%Z
    = Ok (BST_end Postorder (Zb [1;2]%Z))
  ∧ BST_find Preorder 100 Zempty.1 Zempty.2 2%Z = UB.
Proof. repeat split; vm_compute; reflexivity. Qed.


(** ** The general theorems at concrete inputs *)

Lemma inorder_visits_inserted_values_sorted_witness :
  length [4;2;6;1;3;5;7]%Z < 8
  ∧ ∃ h b out,
      BST_insert_range Z.ltb 0%Z 8 (BST_new 0%Z ∅).1 (BST_new 0%Z ∅).2
        [4;2;6;1;3;5;7]%Z = Ok (h, b)
      ∧ traverse Inorder 8 h b = Ok out
      ∧ out ≡ₚ [4;2;6;1;3;5;7]%Z
      ∧ non_decreasing Z.ltb out.
Proof.
  split; [simpl; lia|].
  apply (inorder_visits_inserted_values_sorted Z.ltb 0%Z Zlt_asym Zlt_negtrans).
  simpl; lia.
Defined.

Lemma Zinv426 : bst_inv Z.ltb Ztree426.
Proof. unfold Ztree426. simpl. repeat split; repeat constructor. Defined.

Lemma tree_invariant_preserved_witness :
  wf (Zh [4;2;6]%Z) (Zb [4;2;6]%Z) Ztree426
  ∧ bst_inv Z.ltb Ztree426
  ∧ (∃ h' b' a,
       BST_insert Z.ltb 0%Z 3 (Zh [4;2;6]%Z) (Zb [4;2;6]%Z) 5%Z
         = Ok (h', b', (Some a, true))
       ∧ wf h' b' (spec_insert Z.ltb a 5%Z Ztree426)
       ∧ bst_inv Z.ltb (spec_insert Z.ltb a 5%Z Ztree426)
       ∧ elems (spec_insert Z.ltb a 5%Z Ztree426) ≡ₚ 5%Z :: elems Ztree426)
  ∧ (∃ h' c l r,
       Ztree426 = plug c (Tr l 1 4%Z r)
       ∧ BST_DeleteNode 3 (Zh [4;2;6]%Z) (Some 1) = Ok h'
       ∧ h' !! 1 = None
       ∧ wf h' (Zb [4;2;6]%Z) (plug c (spec_delete_root l r))
       ∧ bst_inv Z.ltb (plug c (spec_delete_root l r))
       ∧ elems Ztree426 ≡ₚ 4%Z :: elems (plug c (spec_delete_root l r))
       ∧ (l ≠ Leaf → r ≠ Leaf → spec_delete_root l r = graft l r)).
Proof.
  destruct (tree_invariant_preserved Z.ltb 0%Z Zlt_asym Zlt_negtrans
              (Zh [4;2;6]%Z) (Zb [4;2;6]%Z) Ztree426 Zwf426 Zinv426) as [Hins Hdel].
  split_and!.
  - exact Zwf426.
  - exact Zinv426.
  - apply Hins. simpl; lia.
  - apply Hdel; [|simpl; lia]. unfold Ztree426. simpl. set_solver.
Defined.

Lemma insert_descends_and_attaches_leaf_witness :
  wf (Zh [4;2;6]%Z) (Zb [4;2;6]%Z) Ztree426
  ∧ tsize Ztree426 ≤ 3
  ∧ ∃ h' a par,
      BST_insert Z.ltb 0%Z 3 (Zh [4;2;6]%Z) (Zb [4;2;6]%Z) 4%Z
        = Ok (h', mkBST (root_ (Zb [4;2;6]%Z)) (size_t_incr (size_ (Zb [4;2;6]%Z))),
              (Some a, true))
      ∧ Zh [4;2;6]%Z !! a = None
      ∧ h' !! a = Some (mkNode 4%Z (Some par) None None)
      ∧ wf h' (mkBST (root_ (Zb [4;2;6]%Z)) (size_t_incr (size_ (Zb [4;2;6]%Z))))
           (spec_insert Z.ltb a 4%Z Ztree426)
      ∧ (∀ l p r, (4 <? 4)%Z = false →
           spec_insert Z.ltb a 4%Z (Tr l p 4%Z r)
           = Tr l p 4%Z (spec_insert Z.ltb a 4%Z r))
      ∧ ((size_ (Zb [4;2;6]%Z) + 1 < size_t_max)%N →
         size_t_incr (size_ (Zb [4;2;6]%Z)) = (size_ (Zb [4;2;6]%Z) + 1)%N).
Proof.
  split; [exact Zwf426|]. split; [simpl; lia|].
  apply (insert_descends_and_attaches_leaf Z.ltb 0%Z); [exact Zwf426|simpl; lia].
Defined.


(** ** The further theorems at concrete inputs *)

Ltac zwf_at s t :=
  exists s; split; [reflexivity|]; unfold wf_at, t; split;
  [ eexists; vm_compute; reflexivity | split ];
  [ cbn [repr rootp]; repeat split; vm_compute; reflexivity
  | apply (bool_decide_unpack _); vm_compute; exact I ].

Ltac zdec := apply (bool_decide_unpack _); vm_compute; exact I.

Lemma Zwf12 : wf (Zh [1;2]%Z) (Zb [1;2]%Z) Ztree12.
Proof. zwf_at 0 Ztree12. Defined.

Lemma Zwf2a : wf Zh2 Zb2a Ztree2a.
Proof. zwf_at 0 Ztree2a. Defined.

Lemma Zwf2b : wf Zh2 Zb2b Ztree2b.
Proof. zwf_at 1 Ztree2b. Defined.

Lemma Zapart_ab a :
  Some a = root_ Zb2a ∨ a ∈ addrs Ztree2a → Some a ≠ root_ Zb2b ∧ a ∉ addrs Ztree2b.
Proof.
  intros [Ha|Ha].
  - vm_compute in Ha. injection Ha as ->. split; [vm_compute; congruence|zdec].
  - apply list_elem_of_In in Ha. simpl in Ha.
    destruct Ha as [<-|[<-|[]]]; (split; [vm_compute; congruence|zdec]).
Defined.

Lemma Zapart_ba a :
  Some a = root_ Zb2b ∨ a ∈ addrs Ztree2b → Some a ≠ root_ Zb2a ∧ a ∉ addrs Ztree2a.
Proof.
  intros [Ha|Ha].
  - vm_compute in Ha. injection Ha as ->. split; [vm_compute; congruence|zdec].
  - apply list_elem_of_In in Ha. simpl in Ha.
    destruct Ha as [<-|[<-|[]]]; (split; [vm_compute; congruence|zdec]).
Defined.

Lemma Zsize426 : size_ok (Zb [4;2;6]%Z) Ztree426.
Proof. vm_compute. reflexivity. Defined.

Lemma Zstrict426 : bst_strict Z.ltb Ztree426.
Proof. unfold Ztree426. simpl. repeat split; repeat constructor. Defined.

Lemma find_Inorder_first_occurrence_or_end_witness :
  wf (Zh [4;2;6]%Z) (Zb [4;2;6]%Z) Ztree426 ∧ tsize Ztree426 < 4
  ∧ ∃ it, BST_find Inorder 4 (Zh [4;2;6]%Z) (Zb [4;2;6]%Z) 6%Z = Ok it
      ∧ (it = BST_end Inorder (Zb [4;2;6]%Z) ↔ 6%Z ∉ elems Ztree426)
      ∧ (it ≠ BST_end Inorder (Zb [4;2;6]%Z) →
         deref (Zh [4;2;6]%Z) it = Ok 6%Z
         ∧ ∃ pre a suf, it = Some a ∧ inorder Ztree426 = pre ++ (a, 6%Z) :: suf
                        ∧ 6%Z ∉ pre.*2).
Proof.
  split; [exact Zwf426|]. split; [simpl; lia|].
  apply (find_Inorder_first_occurrence_or_end (Zh [4;2;6]%Z) (Zb [4;2;6]%Z) Ztree426 6%Z 4); [exact Zwf426|simpl; lia].
Defined.

Lemma contains_iff_stored_witness :
  wf (Zh [4;2;6]%Z) (Zb [4;2;6]%Z) Ztree426 ∧ tsize Ztree426 < 4
  ∧ BST_contains 4 (Zh [4;2;6]%Z) (Zb [4;2;6]%Z) 6%Z = Ok (bool_decide (6%Z ∈ elems Ztree426)).
Proof.
  split; [exact Zwf426|]. split; [simpl; lia|].
  apply (contains_iff_stored (Zh [4;2;6]%Z) (Zb [4;2;6]%Z) Ztree426 6%Z 4); [exact Zwf426|simpl; lia].
Defined.

Lemma erase_Inorder_removes_one_witness :
  wf (Zh [4;2;6]%Z) (Zb [4;2;6]%Z) Ztree426 ∧ size_ok (Zb [4;2;6]%Z) Ztree426 ∧ (N.of_nat (tsize Ztree426) < size_t_max)%N
  ∧ inorder Ztree426 = [(2, 2%Z)] ++ (1, 4%Z) :: [(3, 6%Z)] ∧ tsize Ztree426 < 4
  ∧ ∃ h' b' t' it,
      BST_erase Inorder 4 (Zh [4;2;6]%Z) (Zb [4;2;6]%Z) (Some 1) = Ok (h', b', it)
      ∧ it = hd (BST_end Inorder (Zb [4;2;6]%Z)) (Some <$> [(3, 6%Z)].*1)
      ∧ wf h' b' t' ∧ size_ok b' t'
      ∧ inorder t' = [(2, 2%Z)] ++ [(3, 6%Z)]
      ∧ traverse Inorder 4 h' b' = Ok ([(2, 2%Z)].*2 ++ [(3, 6%Z)].*2).
Proof.
  split; [exact Zwf426|]. split; [exact Zsize426|]. split; [reflexivity|].
  split; [reflexivity|]. split; [simpl; lia|].
  apply (erase_Inorder_removes_one (Zh [4;2;6]%Z) (Zb [4;2;6]%Z) Ztree426 [(2, 2%Z)] 1 4%Z [(3, 6%Z)] 4);
    [exact Zwf426|exact Zsize426|reflexivity|reflexivity|simpl; lia].
Defined.

Lemma extract_value_present_or_absent_witness :
  wf (Zh [4;2;6]%Z) (Zb [4;2;6]%Z) Ztree426 ∧ tsize Ztree426 < 4
  ∧ (∀ pre a suf, inorder Ztree426 = pre ++ (a, 4%Z) :: suf → 4%Z ∉ pre.*2 →
       ∃ h' b' t',
         BST_extract_value 4 (Zh [4;2;6]%Z) (Zb [4;2;6]%Z) 4%Z = Ok (h', b', 4%Z)
         ∧ wf h' b' t' ∧ inorder t' = pre ++ suf
         ∧ size_ b' = size_t_decr (size_ (Zb [4;2;6]%Z)))
  ∧ (4%Z ∉ elems Ztree426 →
     ∃ d, deref (Zh [4;2;6]%Z) (root_ (Zb [4;2;6]%Z)) = Ok d
          ∧ BST_extract_value 4 (Zh [4;2;6]%Z) (Zb [4;2;6]%Z) 4%Z = Ok ((Zh [4;2;6]%Z), (Zb [4;2;6]%Z), d)).
Proof.
  split; [exact Zwf426|]. split; [simpl; lia|].
  apply (extract_value_present_or_absent (Zh [4;2;6]%Z) (Zb [4;2;6]%Z) Ztree426 4%Z 4); [exact Zwf426|simpl; lia].
Defined.

Lemma erase_range_Inorder_removes_segment_witness :
  wf (Zh [4;2;6]%Z) (Zb [4;2;6]%Z) Ztree426 ∧ size_ok (Zb [4;2;6]%Z) Ztree426 ∧ (N.of_nat (tsize Ztree426) < size_t_max)%N
  ∧ inorder Ztree426 = [(2, 2%Z)] ++ [(1, 4%Z)] ++ [(3, 6%Z)] ∧ tsize Ztree426 < 4
  ∧ ∃ h' b' t',
      BST_erase_range Inorder 4 4 (Zh [4;2;6]%Z) (Zb [4;2;6]%Z)
        (hd (BST_end Inorder (Zb [4;2;6]%Z)) (Some <$> ([(1, 4%Z)] ++ [(3, 6%Z)]).*1))
        (hd (BST_end Inorder (Zb [4;2;6]%Z)) (Some <$> [(3, 6%Z)].*1)) = Ok (h', b')
      ∧ wf h' b' t' ∧ size_ok b' t'
      ∧ inorder t' = [(2, 2%Z)] ++ [(3, 6%Z)]
      ∧ traverse Inorder 4 h' b' = Ok ([(2, 2%Z)].*2 ++ [(3, 6%Z)].*2)
      ∧ ([(2, 2%Z)] = [] → [(3, 6%Z)] = [] → BST_empty h' b' = Ok true).
Proof.
  split; [exact Zwf426|]. split; [exact Zsize426|]. split; [reflexivity|].
  split; [reflexivity|]. split; [simpl; lia|].
  apply (erase_range_Inorder_removes_segment (Zh [4;2;6]%Z) (Zb [4;2;6]%Z) Ztree426 [(2, 2%Z)] [(1, 4%Z)] [(3, 6%Z)] 4);
    [exact Zwf426|exact Zsize426|reflexivity|reflexivity|simpl; lia].
Defined.


Lemma bounds_of_absent_value_are_end_witness :
  wf (Zh [4;2;6]%Z) (Zb [4;2;6]%Z) Ztree426 ∧ tsize Ztree426 < 4
  ∧ (5%Z ∉ elems Ztree426)
  ∧ BST_lower_bound Inorder 4 (Zh [4;2;6]%Z) (Zb [4;2;6]%Z) 5%Z = Ok (BST_end Inorder (Zb [4;2;6]%Z))
  ∧ BST_rfind Inorder 4 (Zh [4;2;6]%Z) (Zb [4;2;6]%Z) 5%Z = Ok (BST_end Inorder (Zb [4;2;6]%Z))
  ∧ BST_upper_bound Inorder 4 (Zh [4;2;6]%Z) (Zb [4;2;6]%Z) 5%Z = Ok (BST_end Inorder (Zb [4;2;6]%Z))
  ∧ BST_equal_range Inorder 4 (Zh [4;2;6]%Z) (Zb [4;2;6]%Z) 5%Z = Ok (BST_end Inorder (Zb [4;2;6]%Z), BST_end Inorder (Zb [4;2;6]%Z)).
Proof.
  assert (Hnot : 5%Z ∉ elems Ztree426) by zdec.
  split; [exact Zwf426|]. split; [simpl; lia|]. split; [exact Hnot|].
  apply (bounds_of_absent_value_are_end (Zh [4;2;6]%Z) (Zb [4;2;6]%Z) Ztree426 5%Z 4); [exact Zwf426|simpl; lia|exact Hnot].
Defined.

Lemma equal_range_Inorder_delimits_run_witness :
  wf (Zh [2;1]%Z) (Zb [2;1]%Z) Ztree21 ∧ tsize Ztree21 < 3
  ∧ inorder Ztree21 = [] ++ [(2, 1%Z)] ++ [(1, 2%Z)]
  ∧ (1%Z ∉ ([] : list (nat * Z)).*2) ∧ [(2, 1%Z)] ≠ []
  ∧ Forall (λ p : nat * Z, p.2 = 1%Z) [(2, 1%Z)]
  ∧ BST_equal_range Inorder 3 (Zh [2;1]%Z) (Zb [2;1]%Z) 1%Z
    = Ok (hd (BST_end Inorder (Zb [2;1]%Z)) (Some <$> [(2, 1%Z)].*1),
          hd (BST_end Inorder (Zb [2;1]%Z)) (Some <$> [(1, 2%Z)].*1))
  ∧ BST_rfind Inorder 3 (Zh [2;1]%Z) (Zb [2;1]%Z) 1%Z
    = Ok (default (BST_end Inorder (Zb [2;1]%Z)) (last (Some <$> [(2, 1%Z)].*1))).
Proof.
  assert (Hnot : 1%Z ∉ ([] : list (nat * Z)).*2) by apply not_elem_of_nil.
  assert (Hall : Forall (λ p : nat * Z, p.2 = 1%Z) [(2, 1%Z)])
    by (repeat constructor).
  split; [exact Zwf21|]. split; [simpl; lia|]. split; [reflexivity|].
  split; [exact Hnot|]. split; [discriminate|]. split; [exact Hall|].
  apply (equal_range_Inorder_delimits_run (Zh [2;1]%Z) (Zb [2;1]%Z) Ztree21 1%Z [] [(2, 1%Z)] [(1, 2%Z)] 3);
    [exact Zwf21|simpl; lia|reflexivity|exact Hnot|discriminate|exact Hall
    |simpl; discriminate].
Defined.

Lemma operator_eq_compares_inorder_sequences_witness :
  wf Zh2 Zb2a Ztree2a ∧ wf Zh2 Zb2b Ztree2b
  ∧ size_ok Zb2a Ztree2a ∧ size_ok Zb2b Ztree2b
  ∧ tsize Ztree2a < 3 ∧ tsize Ztree2b < 3
  ∧ BST_eq 3 Zh2 Zb2a Zb2b = Ok (bool_decide (elems Ztree2a = elems Ztree2b)).
Proof.
  split; [exact Zwf2a|]. split; [exact Zwf2b|].
  split; [vm_compute; reflexivity|]. split; [vm_compute; reflexivity|].
  split; [simpl; lia|]. split; [simpl; lia|].
  apply (operator_eq_compares_inorder_sequences Zh2 Zb2a Zb2b Ztree2a Ztree2b 3);
    [exact Zwf2a|exact Zwf2b|vm_compute; reflexivity|vm_compute; reflexivity
    |simpl; lia|simpl; lia].
Defined.

Lemma reverse_Inorder_loop_yields_reversed_values_witness :
  wf (Zh [2;1]%Z) (Zb [2;1]%Z) Ztree21 ∧ tsize Ztree21 < 3
  ∧ rtraverse Inorder 3 (Zh [2;1]%Z) (Zb [2;1]%Z) = Ok (reverse (elems Ztree21)).
Proof.
  split; [exact Zwf21|]. split; [simpl; lia|].
  apply (reverse_Inorder_loop_yields_reversed_values (Zh [2;1]%Z) (Zb [2;1]%Z) Ztree21 3);
    [exact Zwf21|simpl; discriminate|simpl; lia].
Defined.

Lemma rend_Inorder_null_dereference_witness :
  wf (Zh [1;2]%Z) (Zb [1;2]%Z) (Tr Leaf 1 1%Z (Tr Leaf 2 2%Z Leaf))
  ∧ tsize (Tr Leaf 1 1%Z (Tr Leaf 2 2%Z Leaf)) ≤ 2
  ∧ BST_begin Inorder 2 (Zh [1;2]%Z) (Zb [1;2]%Z) = Ok (Some 1)
  ∧ BST_rend Inorder 2 (Zh [1;2]%Z) (Zb [1;2]%Z) = UB
  ∧ rtraverse Inorder 2 (Zh [1;2]%Z) (Zb [1;2]%Z) = UB.
Proof.
  split; [exact Zwf12|]. split; [simpl; lia|].
  apply (rend_Inorder_null_dereference (Zh [1;2]%Z) (Zb [1;2]%Z) 1 1%Z (Tr Leaf 2 2%Z Leaf) 2);
    [exact Zwf12|simpl; lia].
Defined.

Lemma clear_releases_all_nodes_witness :
  wf (Zh [4;2;6]%Z) (Zb [4;2;6]%Z) Ztree426 ∧ tsize Ztree426 ≤ 3
  ∧ ∃ h',
      BST_clear 3 (Zh [4;2;6]%Z) (Zb [4;2;6]%Z) = Ok (h', mkBST (root_ (Zb [4;2;6]%Z)) 0)
      ∧ wf h' (mkBST (root_ (Zb [4;2;6]%Z)) 0) Leaf
      ∧ BST_empty h' (mkBST (root_ (Zb [4;2;6]%Z)) 0) = Ok true
      ∧ (∀ a, a ∈ addrs Ztree426 → h' !! a = None)
      ∧ (∀ a, a ∉ addrs Ztree426 → Some a ≠ root_ (Zb [4;2;6]%Z) → h' !! a = (Zh [4;2;6]%Z) !! a).
Proof.
  split; [exact Zwf426|]. split; [simpl; lia|].
  apply (clear_releases_all_nodes (Zh [4;2;6]%Z) (Zb [4;2;6]%Z) Ztree426 3); [exact Zwf426|simpl; lia].
Defined.

Lemma destructor_releases_everything_once_witness :
  wf (Zh [4;2;6]%Z) (Zb [4;2;6]%Z) Ztree426 ∧ tsize Ztree426 < 4
  ∧ ∃ h',
      BST_destroy 4 (Zh [4;2;6]%Z) (Zb [4;2;6]%Z) = Ok h'
      ∧ (∀ a, Some a = root_ (Zb [4;2;6]%Z) ∨ a ∈ addrs Ztree426 → h' !! a = None)
      ∧ (∀ a, Some a ≠ root_ (Zb [4;2;6]%Z) → a ∉ addrs Ztree426 → h' !! a = (Zh [4;2;6]%Z) !! a)
      ∧ BST_destroy 4 h' (Zb [4;2;6]%Z) = UB.
Proof.
  split; [exact Zwf426|]. split; [simpl; lia|].
  apply (destructor_releases_everything_once (Zh [4;2;6]%Z) (Zb [4;2;6]%Z) Ztree426 4); [exact Zwf426|simpl; lia].
Defined.

Lemma move_assign_shares_the_nodes_witness :
  wf Zh2 Zb2a Ztree2a ∧ wf Zh2 Zb2b Ztree2b
  ∧ tsize Ztree2a < 3 ∧ tsize Ztree2b < 3
  ∧ ∃ h1 b1 h2,
      BST_move_assign false 3 Zh2 Zb2a Zb2b = Ok (h1, b1)
      ∧ root_ b1 = root_ Zb2b ∧ size_ b1 = size_ Zb2b
      ∧ wf h1 b1 Ztree2b ∧ wf h1 Zb2b Ztree2b
      ∧ (∀ a, Some a = root_ Zb2a ∨ a ∈ addrs Ztree2a → h1 !! a = None)
      ∧ BST_destroy 3 h1 b1 = Ok h2
      ∧ BST_destroy 3 h2 Zb2b = UB.
Proof.
  split; [exact Zwf2a|]. split; [exact Zwf2b|].
  split; [simpl; lia|]. split; [simpl; lia|].
  apply (move_assign_shares_the_nodes Zh2 Zb2a Zb2b Ztree2a Ztree2b 3);
    [exact Zwf2a|exact Zwf2b|exact Zapart_ab|simpl; lia|simpl; lia].
Defined.

Lemma copy_constructor_is_deep_witness :
  wf (Zh [4;2;6]%Z) (Zb [4;2;6]%Z) Ztree426 ∧ tsize Ztree426 < 4
  ∧ ∃ h' b' t',
      BST_copy 0%Z 4 (Zh [4;2;6]%Z) (Zb [4;2;6]%Z) = Ok (h', b')
      ∧ wf h' b' t' ∧ same_shape Ztree426 t' ∧ size_ b' = size_ (Zb [4;2;6]%Z)
      ∧ wf h' (Zb [4;2;6]%Z) Ztree426
      ∧ (∀ a, Some a = root_ b' ∨ a ∈ addrs t' → (Zh [4;2;6]%Z) !! a = None)
      ∧ traverse Inorder 4 h' b' = Ok (elems Ztree426).
Proof.
  split; [exact Zwf426|]. split; [simpl; lia|].
  apply (copy_constructor_is_deep 0%Z (Zh [4;2;6]%Z) (Zb [4;2;6]%Z) Ztree426 4); [exact Zwf426|simpl; lia].
Defined.

Lemma copy_assign_replaces_by_deep_copy_witness :
  wf Zh2 Zb2a Ztree2a ∧ wf Zh2 Zb2b Ztree2b
  ∧ tsize Ztree2a < 3 ∧ tsize Ztree2b < 3
  ∧ ∃ h1 h' b' t',
      BST_destroy 3 Zh2 Zb2a = Ok h1
      ∧ (∀ a, Some a = root_ Zb2a ∨ a ∈ addrs Ztree2a → h1 !! a = None)
      ∧ BST_copy 0%Z 3 h1 Zb2b = Ok (h', b')
      ∧ BST_copy_assign 0%Z false 3 Zh2 Zb2a Zb2b = Ok (h', b')
      ∧ wf h' b' t' ∧ same_shape Ztree2b t' ∧ size_ b' = size_ Zb2b
      ∧ wf h' Zb2b Ztree2b
      ∧ (∀ a, Some a = root_ b' ∨ a ∈ addrs t' →
              Some a ≠ root_ Zb2b ∧ a ∉ addrs Ztree2b)
      ∧ (∀ a, Some a = root_ Zb2a ∨ a ∈ addrs Ztree2a →
              h' !! a = None ∨ Some a = root_ b' ∨ a ∈ addrs t')
      ∧ (∀ a, Some a ≠ root_ Zb2a → a ∉ addrs Ztree2a →
              Some a ≠ root_ b' → a ∉ addrs t' → h' !! a = Zh2 !! a)
      ∧ traverse Inorder 3 h' b' = Ok (elems Ztree2b).
Proof.
  split; [exact Zwf2a|]. split; [exact Zwf2b|].
  split; [simpl; lia|]. split; [simpl; lia|].
  apply (copy_assign_replaces_by_deep_copy 0%Z Zh2 Zb2a Zb2b Ztree2a Ztree2b 3);
    [exact Zwf2a|exact Zwf2b|exact Zapart_ab|simpl; lia|simpl; lia].
Defined.

Lemma insert_then_find_and_erase_witness :
  wf (Zh [4;2;6]%Z) (Zb [4;2;6]%Z) Ztree426 ∧ S (tsize Ztree426) < 5 ∧ (size_ (Zb [4;2;6]%Z) < size_t_max)%N
  ∧ ∃ h' b' a,
      BST_insert Z.ltb 0%Z 5 (Zh [4;2;6]%Z) (Zb [4;2;6]%Z) 5%Z = Ok (h', b', (Some a, true))
      ∧ deref h' (Some a) = Ok 5%Z
      ∧ BST_contains 5 h' b' 5%Z = Ok true
      ∧ (5%Z ∉ elems Ztree426 → BST_find Inorder 5 h' b' 5%Z = Ok (Some a))
      ∧ ∃ h'' t'' it,
          BST_erase Inorder 5 h' b' (Some a) = Ok (h'', (Zb [4;2;6]%Z), it)
          ∧ wf h'' (Zb [4;2;6]%Z) t'' ∧ inorder t'' = inorder Ztree426.
Proof.
  split; [exact Zwf426|]. split; [simpl; lia|]. split; [reflexivity|].
  apply (insert_then_find_and_erase Z.ltb 0%Z (Zh [4;2;6]%Z) (Zb [4;2;6]%Z) Ztree426 5%Z 5); [exact Zwf426|simpl; lia|reflexivity].
Defined.

Lemma empty_iff_begin_is_end_witness :
  wf (Zh [4;2;6]%Z) (Zb [4;2;6]%Z) Ztree426 ∧ tsize Ztree426 ≤ 3
  ∧ BST_empty (Zh [4;2;6]%Z) (Zb [4;2;6]%Z) = Ok (bool_decide (elems Ztree426 = []))
  ∧ ∃ it, BST_begin Inorder 3 (Zh [4;2;6]%Z) (Zb [4;2;6]%Z) = Ok it
      ∧ (it = BST_end Inorder (Zb [4;2;6]%Z) ↔ elems Ztree426 = [])
      ∧ (∀ x vs, elems Ztree426 = x :: vs → deref (Zh [4;2;6]%Z) it = Ok x).
Proof.
  split; [exact Zwf426|]. split; [simpl; lia|].
  apply (empty_iff_begin_is_end (Zh [4;2;6]%Z) (Zb [4;2;6]%Z) Ztree426 3); [exact Zwf426|simpl; lia].
Defined.

Lemma equal_values_stay_right_witness :
  wf (Zh [4;2;6]%Z) (Zb [4;2;6]%Z) Ztree426 ∧ bst_strict Z.ltb Ztree426
  ∧ bst_inv Z.ltb Ztree426
  ∧ bst_strict Z.ltb (Leaf : tree (T:=Z))
  ∧ (∀ v fuel, tsize Ztree426 ≤ fuel →
     ∃ h' b' a,
       BST_insert Z.ltb 0%Z fuel (Zh [4;2;6]%Z) (Zb [4;2;6]%Z) v = Ok (h', b', (Some a, true))
       ∧ wf h' b' (spec_insert Z.ltb a v Ztree426)
       ∧ bst_strict Z.ltb (spec_insert Z.ltb a v Ztree426))
  ∧ (∀ a x fuel, (a, x) ∈ inorder Ztree426 → tsize Ztree426 ≤ fuel →
     ∃ h' c l r,
       Ztree426 = plug c (Tr l a x r)
       ∧ BST_DeleteNode fuel (Zh [4;2;6]%Z) (Some a) = Ok h'
       ∧ wf h' (Zb [4;2;6]%Z) (plug c (spec_delete_root l r))
       ∧ bst_strict Z.ltb (plug c (spec_delete_root l r))).
Proof.
  split; [exact Zwf426|]. split; [exact Zstrict426|].
  apply (equal_values_stay_right Z.ltb 0%Z Zlt_asym Zlt_negtrans (Zh [4;2;6]%Z) (Zb [4;2;6]%Z) Ztree426);
    [exact Zwf426|exact Zstrict426].
Defined.

Lemma count_counts_occurrences_witness :
  wf (Zh [4;2;6]%Z) (Zb [4;2;6]%Z) Ztree426 ∧ bst_strict Z.ltb Ztree426 ∧ tsize Ztree426 ≤ 3
  ∧ (N.of_nat (tsize Ztree426) < size_t_max)%N
  ∧ BST_count Z.ltb 3 (Zh [4;2;6]%Z) (Zb [4;2;6]%Z) 4%Z = Ok (N.of_nat (occurrences 4%Z (elems Ztree426))).
Proof.
  split; [exact Zwf426|]. split; [exact Zstrict426|]. split; [simpl; lia|].
  split; [reflexivity|].
  apply (count_counts_occurrences Z.ltb Zlt_asym (Zh [4;2;6]%Z) (Zb [4;2;6]%Z) Ztree426 4%Z 3);
    [exact Zwf426|exact Zstrict426|simpl; lia|reflexivity].
Defined.

Lemma assign_list_replaces_contents_witness :
  wf (Zh [4;2;6]%Z) (Zb [4;2;6]%Z) Ztree426 ∧ tsize Ztree426 ≤ 4
  ∧ length [3;1;2]%Z < 4
  ∧ ∃ h1 h' b' t',
      BST_clear 4 (Zh [4;2;6]%Z) (Zb [4;2;6]%Z) = Ok (h1, mkBST (root_ (Zb [4;2;6]%Z)) 0)
      ∧ (∀ a, a ∈ addrs Ztree426 → h1 !! a = None)
      ∧ BST_assign_list Z.ltb 0%Z 4 (Zh [4;2;6]%Z) (Zb [4;2;6]%Z) [3;1;2]%Z = Ok (h', b')
      ∧ wf h' b' t' ∧ root_ b' = root_ (Zb [4;2;6]%Z)
      ∧ traverse Inorder 4 h' b' = Ok (elems t')
      ∧ elems t' ≡ₚ [3;1;2]%Z
      ∧ non_decreasing Z.ltb (elems t')
      ∧ BST_size b' = N.of_nat (length [3;1;2]%Z)
      ∧ (∀ a, a ∈ addrs Ztree426 → h' !! a = None ∨ a ∈ addrs t').
Proof.
  split; [exact Zwf426|]. split; [simpl; lia|]. split; [simpl; lia|].
  destruct (assign_list_replaces_contents Z.ltb 0%Z Zlt_asym Zlt_negtrans
              (Zh [4;2;6]%Z) (Zb [4;2;6]%Z) Ztree426 [3;1;2]%Z 4 Zwf426
              ltac:(simpl; lia) ltac:(simpl; lia))
    as (h1 & h' & b' & t' & Hcl & Hfree & Hrun & Hwf & Hroot & Htr & Hperm & Hnd
        & Hsize & Hold).
  exists h1, h', b', t'.
  split_and!; [exact Hcl|exact Hfree|exact Hrun|exact Hwf|exact Hroot|exact Htr
              |exact Hperm|exact Hnd| |exact Hold].
  apply Hsize. reflexivity.
Defined.

Lemma Zinv2a : bst_inv Z.ltb Ztree2a.
Proof. unfold Ztree2a. simpl. repeat split; repeat constructor. Defined.

Lemma merge_copies_the_values_witness :
  wf Zh2 Zb2a Ztree2a ∧ wf Zh2 Zb2b Ztree2b ∧ bst_inv Z.ltb Ztree2a
  ∧ tsize Ztree2a + tsize Ztree2b < 5
  ∧ ∃ h' b' out,
      BST_merge Z.ltb 0%Z 5 Zh2 Zb2a Zb2b = Ok (h', b')
      ∧ wf h' Zb2b Ztree2b
      ∧ traverse Inorder 5 h' b' = Ok out
      ∧ out ≡ₚ elems Ztree2b ++ elems Ztree2a
      ∧ non_decreasing Z.ltb out
      ∧ BST_size b' = Nat.iter (tsize Ztree2b) size_t_incr (BST_size Zb2a)
      ∧ BST_size b' = (BST_size Zb2a + BST_size Zb2b)%N.
Proof.
  split; [exact Zwf2a|]. split; [exact Zwf2b|]. split; [exact Zinv2a|].
  split; [simpl; lia|].
  destruct (merge_copies_the_values Z.ltb 0%Z Zlt_asym Zlt_negtrans
              Zh2 Zb2a Zb2b Ztree2a Ztree2b 5 Zwf2a Zwf2b Zinv2a Zapart_ba
              ltac:(simpl; lia))
    as (h' & b' & out & Hrun & Hwfo & Htr & Hperm & Hnd & Hit & Hsum).
  exists h', b', out. split_and!; [exact Hrun|exact Hwfo|exact Htr|exact Hperm|exact Hnd
                                  |exact Hit|].
  apply Hsum; [vm_compute; reflexivity|vm_compute; reflexivity|reflexivity].
Defined.

Lemma preorder_loop_skips_right_of_leftless_witness :
  wf (Zh [1;2]%Z) (Zb [1;2]%Z) Ztree12 ∧ tsize Ztree12 < 3
  ∧ traverse Preorder 3 (Zh [1;2]%Z) (Zb [1;2]%Z)
    = match Ztree12 with Leaf => UB | _ => Ok (pre_visited Ztree12).*2 end
  ∧ (left_full Ztree12 ↔ (pre_visited Ztree12).*2 = (preorder Ztree12).*2).
Proof.
  split; [exact Zwf12|]. split; [simpl; lia|].
  apply (preorder_loop_skips_right_of_leftless (Zh [1;2]%Z) (Zb [1;2]%Z) Ztree12 3); [exact Zwf12|simpl; lia].
Defined.

Lemma postorder_loop_skips_right_of_leftless_witness :
  wf (Zh [1;2]%Z) (Zb [1;2]%Z) Ztree12 ∧ tsize Ztree12 < 3
  ∧ traverse Postorder 3 (Zh [1;2]%Z) (Zb [1;2]%Z) = Ok (post_visited Ztree12).*2
  ∧ (left_full Ztree12 ↔ (post_visited Ztree12).*2 = (postorder Ztree12).*2).
Proof.
  split; [exact Zwf12|]. split; [simpl; lia|].
  apply (postorder_loop_skips_right_of_leftless (Zh [1;2]%Z) (Zb [1;2]%Z) Ztree12 3); [exact Zwf12|simpl; lia].
Defined.
